(** * reform: the CRUD execution engine and its dialect abstraction

    A shallow embedding of the Go package [reform] (metadata contract,
    dialects, column/value filter, Querier commands and selects) together
    with the properties stated for it.

    Conventions of the embedding.
    - Go [string] is [string]; [int]/[int64] are [Z]; [uint] indices are [nat].
    - An [interface{}] value is a [value]; the untyped nil is [VNil].
    - A Go [error] result is [option error] ([None] is the nil error).
    - A Go map used as a set is a [gset string]; [ViewBase.m] is a
      [gmap string string].
    - A run-time panic is the [Panic] outcome of [res].
    - Calls on the connection and hook invocations are recorded, in order,
      in a trace that every command threads through.
    - A struct is passed by value: a command that changes its struct
      returns the struct as it left it.
    - The column/value filter is embedded a second time on slices in a
      memory of backing arrays ([Mem]), to state what it writes.
    - A row of the connection is a list of columns, each of which converts
      to its destination or fails to: [Scan] assigns them in order and
      stops at the first that fails.
    - A view object has an identity; [==] on views compares objects.
    - The commands take [os.Expand] as a parameter; [os.Expand] is its
      model, for what reaches the connection under a given dialect. *)

From stdpp Require Import base gmap strings pretty list sorting.
From Stdlib Require Import ZArith Ascii.

Open Scope string_scope.
Open Scope list_scope.

Set Warnings "-clear-no-such-hyp".

(** ** Values and errors *)

Inductive value : Type :=
| VNil
| VInt (n : Z)
| VStr (s : string)
| VBool (b : bool).

#[global] Instance value_eq_dec : EqDecision value.
Proof. solve_decision. Defined.

(** [ErrNoRows] and [ErrNoPK] are the two package-level sentinels;
    [Errorf] is an error made by [fmt.Errorf] inside the package;
    [ErrForeign] is any other error value (driver, hook). *)
Inductive error : Type :=
| ErrNoRows
| ErrNoPK
| Errorf (msg : string)
| ErrForeign (msg : string).

#[global] Instance error_eq_dec : EqDecision error.
Proof. solve_decision. Defined.

(** Outcome of a Go call: it returns, or it panics. *)
Inductive res (A : Type) : Type :=
| Ok (a : A)
| Panic (msg : string).
Arguments Ok {A} a.
Arguments Panic {A} msg.

(** ** String helpers ([strings], [fmt]) *)

(** [strings.Join]. *)
Fixpoint Join (elems : list string) (sep : string) : string :=
  match elems with
  | [] => EmptyString
  | [e] => e
  | e :: rest => e +:+ sep +:+ Join rest sep
  end.

(** [strings.TrimLeft s cutset] for a one-character cutset. *)
Fixpoint TrimLeft (s : string) (cut : Ascii.ascii) : string :=
  match s with
  | EmptyString => EmptyString
  | String a s' => if Ascii.eqb a cut then TrimLeft s' cut else s
  end.

(** The double-quote character. *)
Definition dquote : Ascii.ascii := Ascii.ascii_of_nat 34.

(** The [%v] verb of [fmt] applied to a [[]string]. *)
Definition fmt_v (l : list string) : string := "[" +:+ Join l " " +:+ "]".

(** [strconv.Itoa] and the [%d] verb. *)
Definition Itoa (n : Z) : string := pretty n.

(** [os.Expand] of the standard library, on the bytes of the string. *)
Module os.

Definition isShellSpecialVar (c : Ascii.ascii) : bool :=
  existsb (Ascii.eqb c) (String.list_ascii_of_string "*#$@!?-0123456789").

Definition between (lo hi c : Ascii.ascii) : bool :=
  (Ascii.nat_of_ascii lo <=? Ascii.nat_of_ascii c)%nat
  && (Ascii.nat_of_ascii c <=? Ascii.nat_of_ascii hi)%nat.

Definition isAlphaNum (c : Ascii.ascii) : bool :=
  Ascii.eqb c "_" || between "0" "9" c || between "a" "z" c || between "A" "Z" c.

(** The index of the first closing brace of [s], whose first byte has index
    [i]. *)
Fixpoint closing_brace (s : string) (i : nat) : option nat :=
  match s with
  | EmptyString => None
  | String c rest => if Ascii.eqb c "}" then Some i else closing_brace rest (S i)
  end.

(** The number of alphanumeric bytes at the start of [s]. *)
Fixpoint alphanumerics (s : string) : nat :=
  match s with
  | EmptyString => 0
  | String c rest => if isAlphaNum c then S (alphanumerics rest) else 0
  end.

(** [getShellName]: the name that begins [s] and the number of bytes it
    takes.  [Expand] calls it on a string that is not empty. *)
Definition getShellName (s : string) : string * nat :=
  match s with
  | EmptyString => (EmptyString, 0%nat)
  | String c0 rest =>
      if Ascii.eqb c0 "{" then
        let scan :=
          match closing_brace rest 1 with
          | Some i =>
              if (i =? 1)%nat then (EmptyString, 2%nat)
              else (String.substring 1 (i - 1) s, (i + 1)%nat)
          | None => (EmptyString, 1%nat)
          end in
        match rest with
        | String c1 (String c2 _) =>
            if isShellSpecialVar c1 && Ascii.eqb c2 "}"
            then (String c1 EmptyString, 3%nat) else scan
        | _ => scan
        end
      else if isShellSpecialVar c0 then (String c0 EmptyString, 1%nat)
      else (String.substring 0 (alphanumerics s) s, alphanumerics s)
  end.

(** The loop of [Expand]; [skip] bytes are still part of the last name. *)
Fixpoint expand (skip : nat) (s : string) (mapping : string → string) : string :=
  match s with
  | EmptyString => EmptyString
  | String c rest =>
      match skip with
      | S skip' => expand skip' rest mapping
      | O =>
          match rest with
          | EmptyString => s
          | String _ _ =>
              if Ascii.eqb c "$" then
                let '(name, w) := getShellName rest in
                (if bool_decide (name = EmptyString)
                 then if (0 <? w)%nat then EmptyString else "$"
                 else mapping name)
                +:+ expand w rest mapping
              else String c (expand 0 rest mapping)
          end
      end
  end.

Definition Expand (s : string) (mapping : string → string) : string :=
  expand 0 s mapping.

End os.

(** ** Metadata contract *)

(** The three fields of [parse.FieldInfo] that [NewViewBase] reads. *)
Record FieldInfo : Type := {
  fiName : string;
  fiColumn : string;
  fiPKType : string
}.

Record ViewBase : Type := {
  m : gmap string string;
  fields : list string;
  icols : list string;
  pk : string
}.

#[global] Instance ViewBase_eq_dec : EqDecision ViewBase.
Proof. solve_decision. Defined.

Definition NewViewBase_step (v : ViewBase) (info : FieldInfo) : ViewBase :=
  {| m := <[fiColumn info := fiColumn info]> (<[fiName info := fiColumn info]> (m v));
     fields := fields v ++ [fiName info];
     icols := icols v ++ [fiColumn info];
     pk := if bool_decide (fiPKType info = EmptyString) then pk v else fiColumn info |}.

Definition NewViewBase (s : list FieldInfo) : ViewBase :=
  foldl NewViewBase_step {| m := ∅; fields := []; icols := []; pk := EmptyString |} s.

Definition HasCol (v : ViewBase) (field : string) : option string := m v !! field.

Definition ToCol (v : ViewBase) (field : string) : string :=
  match m v !! field with
  | Some col => col
  | None => field
  end.

(** The data of a view object: what [Schema], [Name] and [Columns] return,
    the embedded [ViewBase], and, when the view is a [Table],
    [PKColumnIndex]. *)
Record ViewInfo : Type := {
  Schema : string;
  Name : string;
  Columns : list string;
  vbase : ViewBase;
  PKColumnIndex : option nat
}.

#[global] Instance ViewInfo_eq_dec : EqDecision ViewInfo.
Proof. solve_decision. Defined.

(** A hook is a method on the struct: it may change the fields and
    returns an error. *)
Definition hook : Type := list value → list value * option error.

(** Modelled from the spec: the generated view and struct types are not
    part of the sources.  A view object comes with the methods of its
    struct type: the zero-valued fields of [NewStruct], [String], and the
    optional capabilities [BeforeInserter], [BeforeUpdater],
    [AfterFinder].  [vobj] is the identity of the view object: the
    interface value that [View()] returns is a reference to it. *)
Record View : Type := {
  vinfo :> ViewInfo;
  vobj : nat;
  vzero : list value;
  vString : list value → string;
  vBeforeInsert : option hook;
  vBeforeUpdate : option hook;
  vAfterFind : option hook
}.

(** Modelled from the spec: a struct is its view and its field values;
    it is a [Record] exactly when its view is a [Table]. *)
Record Struct : Type := {
  sview : View;
  sfields : list value
}.

(** [a == b] on the interface values of two views: the same object.  One
    object has one set of data, so two views that differ in their data are
    two objects, as are the views of two struct types over equal data. *)
Definition same_view (a b : View) : bool :=
  bool_decide (vobj a = vobj b) && bool_decide (vinfo a = vinfo b).

Definition NewStruct (view : View) : Struct :=
  {| sview := view; sfields := vzero view |}.

Definition Values (str : Struct) : list value := sfields str.

Definition String_ (str : Struct) : string := vString (sview str) (sfields str).

Definition isRecord (str : Struct) : bool :=
  match PKColumnIndex (sview str) with Some _ => true | None => false end.

(** The zero value of each basic type. *)
Definition is_zero (v : value) : bool :=
  match v with
  | VNil => true
  | VInt n => bool_decide (n = 0%Z)
  | VStr s => bool_decide (s = EmptyString)
  | VBool b => negb b
  end.

(** Modelled from the spec: [PKValue], [HasPK] ("has a non-zero primary
    key") and [SetPK] of the generated record type, on the primary-key
    field. *)
Definition PKValue (record : Struct) : value :=
  match PKColumnIndex (sview record) with
  | Some i => default VNil (sfields record !! i)
  | None => VNil
  end.

Definition HasPK (record : Struct) : bool := negb (is_zero (PKValue record)).

Definition SetPK (record : Struct) (v : value) : Struct :=
  match PKColumnIndex (sview record) with
  | Some i => {| sview := sview record; sfields := <[i := v]> (sfields record) |}
  | None => record
  end.

(** ** Dialects *)

Inductive LastInsertIdMethod : Type := LastInsertId | Returning | OutputInserted.
Inductive SelectLimitMethod : Type := Limit | SelectTop.

#[global] Instance LastInsertIdMethod_eq_dec : EqDecision LastInsertIdMethod.
Proof. solve_decision. Defined.
#[global] Instance SelectLimitMethod_eq_dec : EqDecision SelectLimitMethod.
Proof. solve_decision. Defined.

Record Dialect : Type := {
  Placeholder : Z → string;
  Placeholders : Z → nat → list string;
  QuoteIdentifier : string → string;
  lastInsertIdMethod : LastInsertIdMethod;
  selectLimitMethod : SelectLimitMethod
}.

Module mssql.

Definition Placeholder (index : Z) : string := "?".

Definition Placeholders (start : Z) (count : nat) : list string := replicate count "?".

Definition QuoteIdentifier (identifier : string) : string := "[" +:+ identifier +:+ "]".

Definition Dialect : Dialect :=
  Build_Dialect Placeholder Placeholders QuoteIdentifier OutputInserted SelectTop.

End mssql.

Module postgresql.

Definition Placeholder (index : Z) : string := "$" +:+ Itoa index.

Definition Placeholders (start : Z) (count : nat) : list string :=
  map (λ i : nat, "$" +:+ Itoa (start + Z.of_nat i)) (seq 0 count).

Definition QuoteIdentifier (identifier : string) : string :=
  String dquote identifier +:+ String dquote EmptyString.

Definition Dialect : Dialect :=
  Build_Dialect Placeholder Placeholders QuoteIdentifier Returning Limit.

End postgresql.

(** ** The connection primitive

    The types of the external package [database/sql], as far as the
    Querier uses them. *)

(** [sql.Result]: what [LastInsertId] and [RowsAffected] answer. *)
Record sql_Result : Type := {
  resLastInsertId : error + Z;
  resRowsAffected : error + Z
}.

(** One column of a row as [Scan] meets it: the value that it assigns to
    the destination, or the error with which the conversion to the
    destination fails. *)
Definition sql_cell : Type := error + value.

(** A row: an error that [Scan] reports before it assigns anything, or the
    columns of the row. *)
Definition sql_row : Type := error + list sql_cell.

(** A row all of whose columns convert. *)
Definition plain_row (vs : list value) : sql_row := inr (map inr vs).

(** [*sql.Row]: the deferred error, or the single row. *)
Definition sql_Row : Type := sql_row.

(** [*sql.Rows]: the current row, the rows still to come, the error that
    [Err] reports once they are exhausted, and the error of [Close]. *)
Record sql_Rows : Type := {
  rows_cur : option sql_row;
  rows_pending : list sql_row;
  rows_err : option error;
  rows_closeErr : option error
}.

(** What a command did to the outside world, in order. *)
Inductive event : Type :=
| EvExec (query : string) (args : list value)
| EvQuery (query : string) (args : list value)
| EvQueryRow (query : string) (args : list value)
| EvBeforeInsert (fs : list value)
| EvBeforeUpdate (fs : list value)
| EvAfterFind (fs : list value).

Definition trace : Type := list event.

Definition is_sql (e : event) : bool :=
  match e with
  | EvExec _ _ | EvQuery _ _ | EvQueryRow _ _ => true
  | _ => false
  end.

(** The three primitives of [DBTX].  The answer of the stub may depend on
    everything that happened before the call. *)
Record DBTX : Type := {
  Exec : trace → string → list value → error + sql_Result;
  Query : trace → string → list value → error + sql_Rows;
  QueryRow : trace → string → list value → sql_Row
}.

(** ** Commands: state (the trace) and panics *)

Definition M (A : Type) : Type := trace → res A * trace.

#[global] Instance M_ret : MRet M := λ A a tr, (Ok a, tr).

#[global] Instance M_bind : MBind M := λ A B f c tr,
  match c tr with
  | (Ok a, tr') => f a tr'
  | (Panic msg, tr') => (Panic msg, tr')
  end.

Definition panic {A : Type} (msg : string) : M A := λ tr, (Panic msg, tr).

Definition lift {A : Type} (r : res A) : M A := λ tr, (r, tr).

Definition emit (e : event) : M unit := λ tr, (Ok tt, tr ++ [e]).

(** Calling an optional capability of a struct. *)
Definition call_hook (h : hook) (ev : list value → event) (str : Struct)
  : M (option error * Struct) :=
  _ ← emit (ev (sfields str));
  let '(fs, err) := h (sfields str) in
  mret (err, {| sview := sview str; sfields := fs |}).

(** ** Slices *)

(** [append(l[:pk], l[pk+1:]...)]: panics unless [pk+1 <= len(l)]. *)
Definition cut {A : Type} (l : list A) (pk : nat) : res (list A) :=
  if decide (pk < length l)%nat then Ok (take pk l ++ drop (S pk) l)
  else Panic "slice bounds out of range".

(** [l[lo:hi]] on a slice whose capacity is its length. *)
Definition slice {A : Type} (l : list A) (lo hi : nat) : res (list A) :=
  if decide (lo ≤ hi ∧ hi ≤ length l)%nat then Ok (take (hi - lo) (drop lo l))
  else Panic "slice bounds out of range".

(** [l[i]]. *)
Definition index {A : Type} (l : list A) (i : nat) : res A :=
  match l !! i with
  | Some x => Ok x
  | None => Panic "index out of range"
  end.

(** ** The Querier *)

(** A Querier embeds a [Dialect] and a [DBTX].  [QualifiedView] and
    [QualifiedColumns] are methods of the Querier whose bodies are defined
    elsewhere in the package; they are taken as given. *)
Record Querier : Type := {
  qDialect :> Dialect;
  qDBTX :> DBTX;
  QualifiedView : ViewInfo → string;
  QualifiedColumns : ViewInfo → list string
}.

Definition qExec (q : Querier) (query : string) (args : list value)
  : M (error + sql_Result) :=
  λ tr, (Ok (Exec q tr query args), tr ++ [EvExec query args]).

Definition qQuery (q : Querier) (query : string) (args : list value)
  : M (error + sql_Rows) :=
  λ tr, (Ok (Query q tr query args), tr ++ [EvQuery query args]).

Definition qQueryRow (q : Querier) (query : string) (args : list value)
  : M sql_Row :=
  λ tr, (Ok (QueryRow q tr query args), tr ++ [EvQueryRow query args]).

(** The loop of [Scan] over the columns: the destinations are assigned one
    after the other; at the first column that does not convert, [Scan]
    returns its error and the destinations before it stay assigned. *)
Fixpoint assign_cells (cells : list sql_cell) : error * list value + list value :=
  match cells with
  | [] => inr []
  | inl err :: _ => inl (err, [])
  | inr v :: rest =>
      match assign_cells rest with
      | inl (err, assigned) => inl (err, v :: assigned)
      | inr vs => inr (v :: vs)
      end
  end.

(** [Scan] of a row into [n] destinations.  The row's own error and a
    mismatch in the number of columns are reported before anything is
    assigned; otherwise the columns are assigned in order.  A failure comes
    with the values of the destinations assigned before it. *)
Definition scan_row (row : sql_row) (n : nat) : error * list value + list value :=
  match row with
  | inl err => inl (err, [])
  | inr cells =>
      if decide (length cells = n) then assign_cells cells
      else inl (ErrForeign ("sql: expected " +:+ pretty (length cells)
                            +:+ " destination arguments in Scan, not " +:+ pretty n),
                [])
  end.

(** The fields [fs] after their first ones have been assigned. *)
Definition overwrite (assigned fs : list value) : list value :=
  assigned ++ drop (length assigned) fs.

(** [Scan(str.Pointers()...)]: the fields are overwritten in column order,
    all of them when [Scan] succeeds, those before the failing column when
    it fails. *)
Definition Scan_Pointers (row : sql_row) (str : Struct) : option error * Struct :=
  match scan_row row (length (sfields str)) with
  | inl (err, assigned) =>
      (Some err, {| sview := sview str; sfields := overwrite assigned (sfields str) |})
  | inr vs => (None, {| sview := sview str; sfields := vs |})
  end.

(** [Scan(record.PKPointer())]: the single column goes to the primary-key
    field. *)
Definition Scan_PKPointer (row : sql_row) (record : Struct) : option error * Struct :=
  match scan_row row 1 with
  | inl (err, assigned) =>
      (Some err, match head assigned with
                 | Some v => SetPK record v
                 | None => record
                 end)
  | inr vs => (None, SetPK record (default VNil (head vs)))
  end.

Section Commands.

(** The order in which [range] visits the keys of a map: unspecified, and
    chosen by every loop for itself, so that a statement about two calls
    takes an order for each. *)
Variable range_order : gset string → list string.

(** [os.Expand], or any function in its place: the commands pass their
    statement through it and do not depend on what it does. *)
Variable Expand : string → (string → string) → string.

Variable q : Querier.

(** *** Column/value filter *)

Definition requested_set (toCol : string → string) (columnsIn : list string)
  : gset string :=
  foldl (λ (set : gset string) c, {[ toCol (TrimLeft c "$"%char) ]} ∪ set) ∅ columnsIn.

(** The pass over [allColumns]; [i] is the index of the head of [rest]. *)
Fixpoint filter_pass (isUpdate : bool) (pk : nat) (allValues : list value)
    (i : nat) (rest : list string)
    (columnsSet : gset string) (columns : list string) (values : list value)
  : res (gset string * list string * list value * option error) :=
  match rest with
  | [] => Ok (columnsSet, columns, values, None)
  | c :: rest' =>
      if bool_decide (c ∈ columnsSet) then
        if isUpdate && bool_decide (i = pk) then
          Ok (columnsSet, columns, values,
              Some (Errorf ("reform: will not update PK column: " +:+ c)))
        else
          match allValues !! i with
          | None => Panic "index out of range"
          | Some v =>
              filter_pass isUpdate pk allValues (S i) rest'
                (columnsSet ∖ {[ c ]}) (columns ++ [c]) (values ++ [v])
          end
      else filter_pass isUpdate pk allValues (S i) rest' columnsSet columns values
  end.

Definition filteredColumnsAndValues (record : Struct) (columnsIn : list string)
    (isUpdate : bool) : res (list string * list value * option error) :=
  let columnsSet := requested_set (ToCol (vbase (sview record))) columnsIn in
  match PKColumnIndex (sview record) with
  | None => Panic "invalid memory address or nil pointer dereference"
  | Some pk =>
      let allColumns := Columns (sview record) in
      let allValues := Values record in
      match filter_pass isUpdate pk allValues 0 allColumns columnsSet [] [] with
      | Panic msg => Panic msg
      | Ok (columnsSet, columns, values, Some err) => Ok (columns, values, Some err)
      | Ok (columnsSet, columns, values, None) =>
          if decide (0 < size columnsSet)%nat then
            let columns := range_order columnsSet in
            Ok (columns, values,
                Some (Errorf ("reform: unexpected columns: " +:+ fmt_v columns)))
          else Ok (columns, values, None)
      end
  end.

(** *** Insert *)

Definition err_of {A : Type} (r : error + A) : option error :=
  match r with
  | inl err => Some err
  | inr _ => None
  end.

(** [record] of the source is [PKColumnIndex view] here: [Some pk] exactly
    when [str] is a Record. *)
Definition insert (str : Struct) (columns : list string) (values : list value)
  : M (option error * Struct) :=
  let columns := map (QuoteIdentifier q) columns in
  let placeholders := Placeholders q 1 (length columns) in
  let view := sview str in
  let record := PKColumnIndex view in
  let method := lastInsertIdMethod q in
  let query := "INSERT INTO " +:+ QualifiedView q view +:+ " (" +:+ Join columns ", " +:+ ")" in
  query ← match record, method with
          | Some pk, OutputInserted =>
              c ← lift (index (Columns view) pk);
              mret (query +:+ " OUTPUT INSERTED." +:+ QuoteIdentifier q c)
          | _, _ => mret query
          end;
  let query := query +:+ " VALUES (" +:+ Join placeholders ", " +:+ ")" in
  query ← match record, method with
          | Some pk, Returning =>
              c ← lift (index (Columns view) pk);
              mret (query +:+ " RETURNING " +:+ QuoteIdentifier q c)
          | _, _ => mret query
          end;
  match method with
  | LastInsertId =>
      r ← qExec q (Expand query (ToCol (vbase view))) values;
      match r with
      | inl err => mret (Some err, str)
      | inr res =>
          match record with
          | Some _ =>
              match resLastInsertId res with
              | inl err => mret (Some err, str)
              | inr id => mret (None, SetPK str (VInt id))
              end
          | None => mret (None, str)
          end
      end
  | Returning | OutputInserted =>
      match record with
      | Some _ =>
          row ← qQueryRow q query values;
          mret (Scan_PKPointer row str)
      | None =>
          r ← qExec q (Expand query (ToCol (vbase view))) values;
          mret (err_of r, str)
      end
  end.

Definition beforeInsert (str : Struct) : M (option error * Struct) :=
  match vBeforeInsert (sview str) with
  | Some bi => call_hook bi EvBeforeInsert str
  | None => mret (None, str)
  end.

Definition Insert (str : Struct) : M (option error * Struct) :=
  '(err, str) ← beforeInsert str;
  match err with
  | Some e => mret (Some e, str)
  | None =>
      let view := sview str in
      let values := Values str in
      let columns := Columns view in
      match PKColumnIndex view with
      | Some pk =>
          if HasPK str then insert str columns values
          else
            values ← lift (cut values pk);
            columns ← lift (cut columns pk);
            insert str columns values
      | None => insert str columns values
      end
  end.

(** When [str] is not a Record, [record] is nil: no hook is found on it and
    the filter dereferences it. *)
Definition InsertColumns (str : Struct) (columns : list string)
  : M (option error * Struct) :=
  match PKColumnIndex (sview str) with
  | None => panic "invalid memory address or nil pointer dereference"
  | Some _ =>
      '(err, record) ← beforeInsert str;
      match err with
      | Some e => mret (Some e, record)
      | None =>
          '(columns, values, err) ← lift (filteredColumnsAndValues record columns false);
          match err with
          | Some e => mret (Some e, record)
          | None => insert record columns values
          end
      end
  end.

(** *** InsertMulti *)

(** The structs of a batch are taken to be distinct objects. *)

(** First loop: every struct has the view of the first one. *)
Fixpoint check_views (view : View) (structs : list Struct) : option error :=
  match structs with
  | [] => None
  | str :: rest =>
      if same_view (sview str) view then check_views view rest
      else Some (Errorf ("reform: different tables in InsertMulti: "
                         +:+ Name view +:+ " and " +:+ Name (sview str)))
  end.

(** Second loop: every hook runs; the first error is kept. *)
Fixpoint run_hooks (structs : list Struct) (err : option error)
  : M (option error * list Struct) :=
  match structs with
  | [] => mret (err, [])
  | str :: rest =>
      match vBeforeInsert (sview str) with
      | Some bi =>
          '(e, str) ← call_hook bi EvBeforeInsert str;
          let err := match err with None => e | Some _ => err end in
          '(err, rest) ← run_hooks rest err;
          mret (err, str :: rest)
      | None =>
          '(err, rest) ← run_hooks rest err;
          mret (err, str :: rest)
      end
  end.

(** Third loop: all primary keys are present or all are absent. *)
Fixpoint check_pks (record : Struct) (structs : list Struct) : res (option error) :=
  match structs with
  | [] => Ok None
  | rec :: rest =>
      match PKColumnIndex (sview rec) with
      | None => Panic "invalid memory address or nil pointer dereference"
      | Some _ =>
          if bool_decide (HasPK record = HasPK rec) then check_pks record rest
          else Ok (Some (Errorf
                 ("reform: PK in present in one struct and absent in other: first: "
                  +:+ String_ record +:+ ", second: " +:+ String_ rec)))
      end
  end.

(** One placeholder group per struct; [idx] are the indices still to do. *)
Fixpoint value_groups (placeholders : list string) (ncols : nat) (idx : list nat)
    (query : string) : res string :=
  match idx with
  | [] => Ok query
  | i :: rest =>
      match slice placeholders (ncols * i) (ncols * (i + 1)) with
      | Panic msg => Panic msg
      | Ok g => value_groups placeholders ncols rest
                  (query +:+ "(" +:+ Join g ", " +:+ "), ")
      end
  end.

(** Last loop: the values of every struct, without the primary key when
    [cutpk] is set. *)
Fixpoint all_values (cutpk : option nat) (structs : list Struct)
    (values : list value) : res (list value) :=
  match structs with
  | [] => Ok values
  | str :: rest =>
      match cutpk with
      | Some pk =>
          match cut (Values str) pk with
          | Panic msg => Panic msg
          | Ok v => all_values cutpk rest (values ++ v)
          end
      | None => all_values cutpk rest (values ++ Values str)
      end
  end.

Definition InsertMulti (structs : list Struct) : M (option error * list Struct) :=
  match structs with
  | [] => mret (None, structs)
  | first :: _ =>
      let view := sview first in
      match check_views view structs with
      | Some e => mret (Some e, structs)
      | None =>
          '(err, structs) ← run_hooks structs None;
          match err with
          | Some e => mret (Some e, structs)
          | None =>
              let record := head structs in
              let isrec := PKColumnIndex view in
              pkerr ← match record, isrec with
                      | Some record, Some _ => lift (check_pks record structs)
                      | _, _ => mret None
                      end;
              match pkerr with
              | Some e => mret (Some e, structs)
              | None =>
                  let columns := map (QuoteIdentifier q) (Columns view) in
                  let cutpk := match record, isrec with
                               | Some record, Some pk =>
                                   if HasPK record then None else Some pk
                               | _, _ => None
                               end in
                  columns ← match cutpk with
                            | Some pk => lift (cut columns pk)
                            | None => mret columns
                            end;
                  let placeholders :=
                    Placeholders q 1 (length columns * length structs) in
                  let query := "INSERT INTO " +:+ QualifiedView q view
                               +:+ " (" +:+ Join columns ", " +:+ ") VALUES " in
                  query ← lift (value_groups placeholders (length columns)
                                  (seq 0 (length structs)) query);
                  let query := String.substring 0 (String.length query - 2) query in
                  values ← lift (all_values cutpk structs []);
                  r ← qExec q (Expand query (ToCol (vbase view))) values;
                  mret (err_of r, structs)
              end
          end
      end
  end.

(** *** Update *)

(** [p[i] = c + " = " + placeholders[i]] for every column. *)
Fixpoint set_list (columns placeholders : list string) : res (list string) :=
  match columns with
  | [] => Ok []
  | c :: cs =>
      match placeholders with
      | [] => Panic "index out of range"
      | ph :: phs =>
          match set_list cs phs with
          | Panic msg => Panic msg
          | Ok p => Ok ((c +:+ " = " +:+ ph) :: p)
          end
      end
  end.

(** What [update] and [Delete] make of the affected-row count. *)
Definition rows_affected_outcome (verb : string) (ra : Z) : M (option error) :=
  if decide (ra = 0)%Z then mret (Some ErrNoRows)
  else if decide (ra > 1)%Z then
    panic ("reform: " +:+ Itoa ra +:+ " rows by " +:+ verb
           +:+ " by primary key. Please report this bug.")
  else mret None.

Definition update (record : Struct) (columns : list string) (values : list value)
  : M (option error) :=
  let columns := map (QuoteIdentifier q) columns in
  let placeholders := Placeholders q 1 (length columns) in
  p ← lift (set_list columns placeholders);
  let table := sview record in
  match PKColumnIndex table with
  | None => panic "invalid memory address or nil pointer dereference"
  | Some pk =>
      c ← lift (index (Columns table) pk);
      let query := "UPDATE " +:+ QualifiedView q table +:+ " SET " +:+ Join p ", "
                   +:+ " WHERE " +:+ QuoteIdentifier q c +:+ " = "
                   +:+ Placeholder q (Z.of_nat (length columns) + 1) in
      let args := values ++ [PKValue record] in
      r ← qExec q (Expand query (ToCol (vbase table))) args;
      match r with
      | inl err => mret (Some err)
      | inr res =>
          match resRowsAffected res with
          | inl err => mret (Some err)
          | inr ra => rows_affected_outcome "UPDATE" ra
          end
      end
  end.

Definition beforeUpdate (record : Struct) : M (option error * Struct) :=
  if negb (HasPK record) then mret (Some ErrNoPK, record)
  else
    match vBeforeUpdate (sview record) with
    | Some bu => call_hook bu EvBeforeUpdate record
    | None => mret (None, record)
    end.

Definition Update (record : Struct) : M (option error * Struct) :=
  '(err, record) ← beforeUpdate record;
  match err with
  | Some e => mret (Some e, record)
  | None =>
      let table := sview record in
      let values := Values record in
      let columns := Columns table in
      match PKColumnIndex table with
      | None => panic "invalid memory address or nil pointer dereference"
      | Some pk =>
          values ← lift (cut values pk);
          columns ← lift (cut columns pk);
          err ← update record columns values;
          mret (err, record)
      end
  end.

Definition UpdateColumns (record : Struct) (columns : list string)
  : M (option error * Struct) :=
  '(err, record) ← beforeUpdate record;
  match err with
  | Some e => mret (Some e, record)
  | None =>
      '(columns, values, err) ← lift (filteredColumnsAndValues record columns true);
      match err with
      | Some e => mret (Some e, record)
      | None =>
          if decide (length values = 0)%nat then
            mret (Some (Errorf "reform: nothing to update"), record)
          else
            err ← update record columns values;
            mret (err, record)
      end
  end.

(** *** Save and Delete *)

Definition Save (record : Struct) : M (option error * Struct) :=
  if HasPK record then
    '(err, record) ← Update record;
    if decide (err = Some ErrNoRows) then Insert record
    else mret (err, record)
  else Insert record.

Definition Delete (record : Struct) : M (option error) :=
  if negb (HasPK record) then mret (Some ErrNoPK)
  else
    let table := sview record in
    match PKColumnIndex table with
    | None => panic "invalid memory address or nil pointer dereference"
    | Some pk =>
        c ← lift (index (Columns table) pk);
        let query := "DELETE FROM " +:+ QualifiedView q table +:+ " WHERE "
                     +:+ QuoteIdentifier q c +:+ " = " +:+ Placeholder q 1 in
        r ← qExec q (Expand query (ToCol (vbase table))) [PKValue record];
        match r with
        | inl err => mret (Some err)
        | inr res =>
            match resRowsAffected res with
            | inl err => mret (Some err)
            | inr ra => rows_affected_outcome "DELETE" ra
            end
        end
    end.

(** *** The cursor: [Next], [Err], [Scan] and [Close] of [*sql.Rows] *)

Definition rows_Next (rows : sql_Rows) : bool * sql_Rows :=
  match rows_pending rows with
  | [] =>
      (false, {| rows_cur := None; rows_pending := [];
                 rows_err := rows_err rows; rows_closeErr := rows_closeErr rows |})
  | r :: rest =>
      (true, {| rows_cur := Some r; rows_pending := rest;
                rows_err := rows_err rows; rows_closeErr := rows_closeErr rows |})
  end.

Definition rows_Err (rows : sql_Rows) : option error := rows_err rows.

Definition rows_Scan (rows : sql_Rows) (str : Struct) : option error * Struct :=
  match rows_cur rows with
  | Some row => Scan_Pointers row str
  | None => (Some (ErrForeign "sql: Scan called without calling Next"), str)
  end.

Definition rows_Close (rows : sql_Rows) : option error := rows_closeErr rows.

(** *** Selects *)

Definition afterFind (str : Struct) : M (option error * Struct) :=
  match vAfterFind (sview str) with
  | Some af => call_hook af EvAfterFind str
  | None => mret (None, str)
  end.

Definition NextRow (str : Struct) (rows : sql_Rows)
  : M (option error * Struct * sql_Rows) :=
  let '(next, rows) := rows_Next rows in
  if negb next then
    let err := rows_Err rows in
    let err := match err with None => Some ErrNoRows | Some _ => err end in
    mret (err, str, rows)
  else
    let '(err, str) := rows_Scan rows str in
    match err with
    | Some e => mret (Some e, str, rows)
    | None =>
        '(err, str) ← afterFind str;
        mret (err, str, rows)
    end.

Definition selectQuery (view : View) (tail : string) (limit1 : bool) : string :=
  let command := "SELECT" in
  let command :=
    if limit1 && bool_decide (selectLimitMethod q = SelectTop)
    then command +:+ " TOP 1" else command in
  command +:+ " " +:+ Join (QualifiedColumns q view) ", " +:+ " FROM "
    +:+ QualifiedView q view +:+ " " +:+ tail.

Definition SelectOneTo (str : Struct) (tail : string) (args : list value)
  : M (option error * Struct) :=
  let query := selectQuery (sview str) tail true in
  row ← qQueryRow q (Expand query (ToCol (vbase (sview str)))) args;
  let '(err, str) := Scan_Pointers row str in
  match err with
  | Some e => mret (Some e, str)
  | None => afterFind str
  end.

Definition SelectOneFrom (view : View) (tail : string) (args : list value)
  : M (option Struct * option error) :=
  let str := NewStruct view in
  '(err, str) ← SelectOneTo str tail args;
  match err with
  | Some e => mret (None, Some e)
  | None => mret (Some str, None)
  end.

Definition SelectRows (view : View) (tail : string) (args : list value)
  : M (error + sql_Rows) :=
  let query := selectQuery view tail false in
  qQuery q (Expand query (ToCol (vbase view))) args.

(** The [for] loop of [SelectAllFrom].  Every turn that does not return
    consumes one pending row, so [fuel] larger than their number is never
    used up. *)
Fixpoint SelectAllFrom_loop (fuel : nat) (view : View) (rows : sql_Rows)
    (structs : list Struct) : M (list Struct * option error * sql_Rows) :=
  match fuel with
  | O => panic "unreachable"
  | S fuel =>
      let str := NewStruct view in
      '(err, str, rows) ← NextRow str rows;
      match err with
      | Some e =>
          mret (structs, if decide (e = ErrNoRows) then None else Some e, rows)
      | None => SelectAllFrom_loop fuel view rows (structs ++ [str])
      end
  end.

Definition SelectAllFrom (view : View) (tail : string) (args : list value)
  : M (list Struct * option error) :=
  r ← SelectRows view tail args;
  match r with
  | inl err => mret ([], Some err)
  | inr rows =>
      '(structs, err, rows) ←
        SelectAllFrom_loop (S (length (rows_pending rows))) view rows [];
      let e := rows_Close rows in
      mret (structs, match err with None => e | Some _ => err end)
  end.

(** *** Finds *)

Definition findTail (view : string) (column : string) (arg : value) (limit1 : bool)
  : string * bool :=
  let qi := QuoteIdentifier q view +:+ "." +:+ QuoteIdentifier q column in
  let '(tail, needArg) :=
    if decide (arg = VNil) then ("WHERE " +:+ qi +:+ " IS NULL", false)
    else ("WHERE " +:+ qi +:+ " = " +:+ Placeholder q 1, true) in
  let tail :=
    if limit1 && bool_decide (selectLimitMethod q = Limit)
    then tail +:+ " LIMIT 1" else tail in
  (tail, needArg).

Definition FindOneTo (str : Struct) (column : string) (arg : value)
  : M (option error * Struct) :=
  let '(tail, needArg) := findTail (Name (sview str)) column arg true in
  if needArg then SelectOneTo str tail [arg]
  else SelectOneTo str tail [].

Definition FindOneFrom (view : View) (column : string) (arg : value)
  : M (option Struct * option error) :=
  let '(tail, needArg) := findTail (Name view) column arg true in
  if needArg then SelectOneFrom view tail [arg]
  else SelectOneFrom view tail [].

Definition FindRows (view : View) (column : string) (arg : value)
  : M (error + sql_Rows) :=
  let '(tail, needArg) := findTail (Name view) column arg false in
  if needArg then SelectRows view tail [arg]
  else SelectRows view tail [].

Definition FindByPrimaryKeyTo (record : Struct) (pk : value)
  : M (option error * Struct) :=
  let table := sview record in
  match PKColumnIndex table with
  | None => panic "invalid memory address or nil pointer dereference"
  | Some i =>
      c ← lift (index (Columns table) i);
      FindOneTo record c pk
  end.

Definition Reload (record : Struct) : M (option error * Struct) :=
  FindByPrimaryKeyTo record (PKValue record).

(** *** The other commands and finds of the two files *)

(** The pass of [filteredStructColumnsAndValues]: as [filter_pass], without
    the primary key. *)
Fixpoint struct_pass (allValues : list value) (i : nat) (rest : list string)
    (columnsSet : gset string) (columns : list string) (values : list value)
  : res (gset string * list string * list value) :=
  match rest with
  | [] => Ok (columnsSet, columns, values)
  | c :: rest' =>
      if bool_decide (c ∈ columnsSet) then
        match allValues !! i with
        | None => Panic "index out of range"
        | Some v =>
            struct_pass allValues (S i) rest'
              (columnsSet ∖ {[ c ]}) (columns ++ [c]) (values ++ [v])
        end
      else struct_pass allValues (S i) rest' columnsSet columns values
  end.

Definition filteredStructColumnsAndValues (str : Struct) (columnsIn : list string)
  : res (list string * list value * option error) :=
  let columnsSet := requested_set (ToCol (vbase (sview str))) columnsIn in
  let allColumns := Columns (sview str) in
  let allValues := Values str in
  match struct_pass allValues 0 allColumns columnsSet [] [] with
  | Panic msg => Panic msg
  | Ok (columnsSet, columns, values) =>
      if decide (0 < size columnsSet)%nat then
        let columns := range_order columnsSet in
        Ok (columns, values,
            Some (Errorf ("reform: unexpected columns: " +:+ fmt_v columns)))
      else Ok (columns, values, None)
  end.

(** [uint(ra)] for an [int64] on a 64-bit platform. *)
Definition to_uint (ra : Z) : Z := (ra mod 2 ^ 64)%Z.

Definition DsExec (view : View) (query : string) (args : list value)
  : M (Z * option error) :=
  r ← qExec q (Expand query (ToCol (vbase view))) args;
  match r with
  | inl err => mret (0%Z, Some err)
  | inr res =>
      match resRowsAffected res with
      | inl err => mret (0%Z, Some err)
      | inr ra => mret (to_uint ra, None)
      end
  end.

Definition DeleteFrom (view : View) (tail : string) (args : list value)
  : M (Z * option error) :=
  let query := "DELETE FROM " +:+ QualifiedView q view +:+ " " +:+ tail in
  r ← qExec q (Expand query (ToCol (vbase view))) args;
  match r with
  | inl err => mret (0%Z, Some err)
  | inr res =>
      match resRowsAffected res with
      | inl err => mret (0%Z, Some err)
      | inr ra => mret (to_uint ra, None)
      end
  end.

Definition FindAllFrom (view : View) (column : string) (args : list value)
  : M (list Struct * option error) :=
  let p := Join (Placeholders q 1 (length args)) ", " in
  let qi := QualifiedView q view +:+ "." +:+ QuoteIdentifier q column in
  let tail := "WHERE " +:+ qi +:+ " IN (" +:+ p +:+ ")" in
  SelectAllFrom view tail args.

Definition FindAllFromPK (table : View) (args : list value)
  : M (list Struct * option error) :=
  if decide (length args = 0)%nat then mret ([], Some ErrNoPK)
  else
    let p := Join (Placeholders q 1 (length args)) ", " in
    let qi := QualifiedView q table +:+ "." +:+ QuoteIdentifier q (pk (vbase table)) in
    let tail := "WHERE " +:+ qi +:+ " IN (" +:+ p +:+ ")" in
    SelectAllFrom table tail args.

Definition FindByPrimaryKeyFrom (table : View) (pk : value)
  : M (option Struct * option error) :=
  let record := NewStruct table in
  match PKColumnIndex table with
  | None => panic "invalid memory address or nil pointer dereference"
  | Some i =>
      c ← lift (index (Columns table) i);
      '(err, record) ← FindOneTo record c pk;
      match err with
      | Some e => mret (None, Some e)
      | None => mret (Some record, None)
      end
  end.

End Commands.

(** ** The column/value filter on slices in memory

    In Go a slice is a window onto a backing array, and [append] writes
    into that array when the capacity allows.  To state what the filter
    does to the arrays it is given, this section embeds it once more, on
    slices in a memory of arrays: [columnsIn] is the caller's slice,
    [allColumns] and [allValues] are the slices that [table.Columns()] and
    [record.Values()] return, wherever they point. *)

Module Mem.

Record slice : Type := { arr : nat; off : nat; len : nat; cap : nat }.

Section Heap.

Context {A : Type} (zero : A).

(** A heap is the list of the backing arrays, by address. *)

(** The elements a slice shows. *)
Definition contents (h : list (list A)) (s : slice) : list A :=
  take (len s) (drop (off s) (default [] (h !! arr s))).

(** The slice lies within an allocated array. *)
Definition valid (h : list (list A)) (s : slice) : Prop :=
  ∃ a, h !! arr s = Some a ∧ (off s + cap s ≤ length a)%nat ∧ (len s ≤ cap s)%nat.

(** [s[i]]. *)
Definition get (h : list (list A)) (s : slice) (i : nat) : res A :=
  if decide (i < len s)%nat then
    match h !! arr s ≫= (λ a, a !! (off s + i)%nat) with
    | Some x => Ok x
    | None => Panic "index out of range"
    end
  else Panic "index out of range".

(** [make([]T, 0, c)]: a new array of [c] zero values. *)
Definition make (h : list (list A)) (c : nat) : list (list A) * slice :=
  (h ++ [replicate c zero], {| arr := length h; off := 0; len := 0; cap := c |}).

(** [append(s, x)]: in place when the capacity allows, otherwise into a
    new, larger array that starts with a copy of the elements of [s]. *)
Definition append (h : list (list A)) (s : slice) (x : A) : list (list A) * slice :=
  if decide (len s < cap s)%nat then
    (alter (λ a, <[(off s + len s)%nat := x]> a) (arr s) h,
     {| arr := arr s; off := off s; len := S (len s); cap := cap s |})
  else
    let c := S (2 * cap s) in
    (h ++ [contents h s ++ x :: replicate (c - S (len s)) zero],
     {| arr := length h; off := 0; len := S (len s); cap := c |}).

(** The first [n] arrays are the same in [h'] as in [h]. *)
Definition preserved (n : nat) (h h' : list (list A)) : Prop :=
  ∀ a, (a < n)%nat → h' !! a = h !! a.

End Heap.

(** The memory: arrays of strings and arrays of values. *)
Record mem : Type := { strs : list (list string); vals : list (list value) }.

Section Filter.

Variable range_order : gset string → list string.

(** The pass over [allColumns]; [idx] are the indices still to visit. *)
Fixpoint pass (isUpdate : bool) (pk : nat) (allColumns allValues : slice)
    (idx : list nat) (m : mem)
    (columnsSet : gset string) (columns values : slice)
  : res (mem * gset string * slice * slice * option error) :=
  match idx with
  | [] => Ok (m, columnsSet, columns, values, None)
  | i :: idx' =>
      match get (strs m) allColumns i with
      | Panic msg => Panic msg
      | Ok c =>
          if bool_decide (c ∈ columnsSet) then
            if isUpdate && bool_decide (i = pk) then
              Ok (m, columnsSet, columns, values,
                  Some (Errorf ("reform: will not update PK column: " +:+ c)))
            else
              let '(hs, columns) := append EmptyString (strs m) columns c in
              match get (vals m) allValues i with
              | Panic msg => Panic msg
              | Ok v =>
                  let '(hv, values) := append VNil (vals m) values v in
                  pass isUpdate pk allColumns allValues idx'
                    {| strs := hs; vals := hv |}
                    (columnsSet ∖ {[ c ]}) columns values
              end
          else pass isUpdate pk allColumns allValues idx' m columnsSet columns values
      end
  end.

(** The loop that collects the names left in the set. *)
Definition collect (h : list (list string)) (columns : slice) (names : list string)
  : list (list string) * slice :=
  foldl (λ hc c, append EmptyString hc.1 hc.2 c) (h, columns) names.

Definition filteredColumnsAndValues (toCol : string → string) (pk : nat)
    (allColumns allValues columnsIn : slice) (isUpdate : bool) (m : mem)
  : res (slice * slice * option error * mem) :=
  let columnsSet := requested_set toCol (contents (strs m) columnsIn) in
  let '(hs, columns) := make EmptyString (strs m) (size columnsSet) in
  let '(hv, values) := make VNil (vals m) (len columns) in
  match pass isUpdate pk allColumns allValues (seq 0 (len allColumns))
          {| strs := hs; vals := hv |} columnsSet columns values with
  | Panic msg => Panic msg
  | Ok (m, columnsSet, columns, values, Some err) => Ok (columns, values, Some err, m)
  | Ok (m, columnsSet, columns, values, None) =>
      if decide (0 < size columnsSet)%nat then
        let '(hs, columns) := make EmptyString (strs m) (size columnsSet) in
        let '(hs, columns) := collect hs columns (range_order columnsSet) in
        Ok (columns, values,
            Some (Errorf ("reform: unexpected columns: "
                          +:+ fmt_v (contents hs columns))),
            {| strs := hs; vals := vals m |})
      else Ok (columns, values, None, m)
  end.

End Filter.

End Mem.

(** ** Well-formed inputs *)

(** A dialect returns as many placeholders as it is asked for. *)
Definition wf_dialect (d : Dialect) : Prop :=
  ∀ start count, length (Placeholders d start count) = count.

(** The invariant of the data model for a record: its view is a table whose
    primary-key index is a valid column index, and it has one value per
    column. *)
Definition wf_record (record : Struct) : Prop :=
  ∃ pk, PKColumnIndex (sview record) = Some pk
        ∧ (pk < length (Columns (sview record)))%nat
        ∧ length (sfields record) = length (Columns (sview record)).

(** A hook changes the values of the fields, not their number. *)
Definition wf_hooks (view : View) : Prop :=
  ∀ h : hook,
    vBeforeInsert view = Some h ∨ vBeforeUpdate view = Some h ∨ vAfterFind view = Some h →
    ∀ fs, length (h fs).1 = length fs.

(** ** A table and stubs to run the commands on *)

Module Fixture.

Definition person_fields : list FieldInfo :=
  [ {| fiName := "ID"; fiColumn := "id"; fiPKType := "int32" |};
    {| fiName := "Name"; fiColumn := "name"; fiPKType := EmptyString |};
    {| fiName := "Age"; fiColumn := "age"; fiPKType := EmptyString |} ].

Definition person_info : ViewInfo :=
  {| Schema := EmptyString; Name := "people"; Columns := ["id"; "name"; "age"];
     vbase := NewViewBase person_fields; PKColumnIndex := Some 0%nat |}.

Definition person_String (fs : list value) : string := "person".

(** The person table, with no optional capability. *)
Definition PersonTable : View :=
  {| vinfo := person_info; vobj := 1; vzero := [VInt 0; VStr EmptyString; VInt 0];
     vString := person_String;
     vBeforeInsert := None; vBeforeUpdate := None; vAfterFind := None |}.

(** The view object [obj] of another struct type over the same table, with
    hooks. *)
Definition PersonTable_hooks (obj : nat) (bi bu af : option hook) : View :=
  {| vinfo := person_info; vobj := obj; vzero := [VInt 0; VStr EmptyString; VInt 0];
     vString := person_String;
     vBeforeInsert := bi; vBeforeUpdate := bu; vAfterFind := af |}.

Definition person (view : View) (id : Z) (name : string) (age : Z) : Struct :=
  {| sview := view; sfields := [VInt id; VStr name; VInt age] |}.

(** A hook that succeeds and changes nothing, and one that fails. *)
Definition hook_ok : hook := λ fs, (fs, None).
Definition hook_fail (msg : string) : hook := λ fs, (fs, Some (ErrForeign msg)).

(** A connection whose every statement affects [ra] rows and reports [id]
    as the generated key, by whichever method the dialect uses. *)
Definition stub_db (ra id : Z) : DBTX :=
  {| Exec := λ _ _ _, inr {| resLastInsertId := inr id; resRowsAffected := inr ra |};
     Query := λ _ _ _, inr {| rows_cur := None; rows_pending := [];
                              rows_err := None; rows_closeErr := None |};
     QueryRow := λ _ _ _, plain_row [VInt id] |}.

(** A connection to an empty table: nothing is affected, nothing is found. *)
Definition empty_db : DBTX :=
  {| Exec := λ _ _ _, inr {| resLastInsertId := inr 0%Z; resRowsAffected := inr 0%Z |};
     Query := λ _ _ _, inr {| rows_cur := None; rows_pending := [];
                              rows_err := None; rows_closeErr := None |};
     QueryRow := λ _ _ _, inl ErrNoRows |}.

(** A dialect like MySQL's: [?] placeholders, backquotes, driver-reported
    last-inserted-id, [LIMIT]. *)
Definition lastid_dialect : Dialect :=
  Build_Dialect (λ _, "?") (λ _ count, replicate count "?")
    (λ identifier, "`" +:+ identifier +:+ "`") LastInsertId Limit.

Definition qualified_view (d : Dialect) (view : ViewInfo) : string :=
  QuoteIdentifier d (Name view).

Definition qualified_columns (d : Dialect) (view : ViewInfo) : list string :=
  map (λ c, QuoteIdentifier d (Name view) +:+ "." +:+ QuoteIdentifier d c) (Columns view).

Definition querier (d : Dialect) (db : DBTX) : Querier :=
  {| qDialect := d; qDBTX := db;
     QualifiedView := qualified_view d; QualifiedColumns := qualified_columns d |}.

(** [os.Expand] leaves a query without a dollar sign as it is. *)
Definition expand_plain (s : string) (mapping : string → string) : string := s.

(** One possible iteration order of a map. *)
Definition range_sorted (s : gset string) : list string := elements s.

(** Ann, already stored under key 5, and Bob, not stored yet. *)
Definition ann : Struct := person PersonTable 5 "ann" 30.
Definition bob : Struct := person PersonTable 0 "bob" 31.

(** The same two for a struct type with a [BeforeInsert] hook. *)
Definition ann_hooked : Struct :=
  person (PersonTable_hooks 2 (Some hook_ok) None None) 5 "ann" 30.
Definition bob_hooked : Struct :=
  person (PersonTable_hooks 2 (Some hook_ok) None None) 0 "bob" 31.

(** A connection whose query yields two rows and then loses the link. *)
Definition broken_cursor : sql_Rows :=
  {| rows_cur := None;
     rows_pending := [plain_row [VInt 1; VStr "ann"; VInt 30];
                      plain_row [VInt 2; VStr "bob"; VInt 31]];
     rows_err := Some (ErrForeign "connection lost");
     rows_closeErr := None |}.

Definition broken_db : DBTX :=
  {| Exec := λ _ _ _, inl (ErrForeign "connection lost");
     Query := λ _ _ _, inr broken_cursor;
     QueryRow := λ _ _ _, inl (ErrForeign "connection lost") |}.

(** A memory with the columns of the person table, a request, and the
    values of Ann, each in an array of its own. *)
Definition memory : Mem.mem :=
  {| Mem.strs := [["id"; "name"; "age"]; ["$Name"; "age"; "name"]];
     Mem.vals := [[VInt 5; VStr "ann"; VInt 30]] |}.

Definition whole (a : nat) : Mem.slice :=
  {| Mem.arr := a; Mem.off := 0; Mem.len := 3; Mem.cap := 3 |}.

End Fixture.

(** ** Vocabulary of the statements *)

(** The [LIMIT 1] that [findTail] appends for a single-row find under a
    [LIMIT] dialect. *)
Definition limit_suffix (q : Querier) (limit1 : bool) : string :=
  if limit1 && bool_decide (selectLimitMethod q = Limit) then " LIMIT 1"
  else EmptyString.

(** The text of a SELECT statement on [view] that ends in [tail]. *)
Definition select_text (q : Querier) (view : View) (tail : string) (limit1 : bool)
  : string :=
  "SELECT"
  +:+ (if limit1 && bool_decide (selectLimitMethod q = SelectTop)
       then " TOP 1" else EmptyString)
  +:+ " " +:+ Join (QualifiedColumns q view) ", "
  +:+ " FROM " +:+ QualifiedView q view +:+ " " +:+ tail.

(** The predicate and the bound arguments that the finds synthesize. *)
Definition find_predicate (q : Querier) (view column : string) (arg : value) : string :=
  let qi := QuoteIdentifier q view +:+ "." +:+ QuoteIdentifier q column in
  if decide (arg = VNil) then "WHERE " +:+ qi +:+ " IS NULL"
  else "WHERE " +:+ qi +:+ " = " +:+ Placeholder q 1.

(** The generated key as the connection reports it for the statement
    [query]: the driver's last-inserted id under [LastInsertId], the single
    column of the returned row under [Returning] and [OutputInserted]. *)
Definition reported_key (q : Querier) (tr : trace) (query : string)
    (args : list value) : error + value :=
  match lastInsertIdMethod q with
  | LastInsertId =>
      match Exec q tr query args with
      | inl e => inl e
      | inr r =>
          match resLastInsertId r with
          | inl e => inl e
          | inr id => inr (VInt id)
          end
      end
  | Returning | OutputInserted =>
      match scan_row (QueryRow q tr query args) 1 with
      | inl (e, _) => inl e
      | inr vs => inr (default VNil (head vs))
      end
  end.

(** The call by which [insert] sends its statement. *)
Definition insert_event (q : Querier) (query : string) (args : list value) : event :=
  match lastInsertIdMethod q with
  | LastInsertId => EvExec query args
  | Returning | OutputInserted => EvQueryRow query args
  end.

(** A struct after its [BeforeInsert] hook, and the error of the hook. *)
Definition after_BeforeInsert (str : Struct) : Struct * option error :=
  match vBeforeInsert (sview str) with
  | Some bi =>
      ({| sview := sview str; sfields := (bi (sfields str)).1 |}, (bi (sfields str)).2)
  | None => (str, None)
  end.

(** One [BeforeInsert] event for every struct that has the hook, in input
    order. *)
Definition BeforeInsert_events (structs : list Struct) : list event :=
  omap (λ str, match vBeforeInsert (sview str) with
               | Some _ => Some (EvBeforeInsert (sfields str))
               | None => None
               end) structs.

(** The first error of a sequence of results, after [err]. *)
Definition first_error (err : option error) (es : list (option error)) : option error :=
  foldl (λ acc e, match acc with None => e | Some _ => acc end) err es.

(** [tr'] extends [tr] by events none of which is a call on the
    connection. *)
Definition no_sql_since (tr tr' : trace) : Prop :=
  ∃ added, tr' = tr ++ added ∧ Forall (λ e, is_sql e = false) added.

(** The error names exactly the columns of [U], each once. *)
Definition names_columns (err : option error) (U : gset string) : Prop :=
  ∃ names, err = Some (Errorf ("reform: unexpected columns: " +:+ fmt_v names))
           ∧ names ≡ₚ elements U.

(** The primary-key column is among the requested names. *)
Definition pk_requested (record : Struct) (columnsIn : list string) : Prop :=
  ∃ pk c, PKColumnIndex (sview record) = Some pk
          ∧ Columns (sview record) !! pk = Some c
          ∧ c ∈ requested_set (ToCol (vbase (sview record))) columnsIn.

(** The requested names, normalized, that are no column of the table. *)
Definition unmatched (record : Struct) (columnsIn : list string) : gset string :=
  requested_set (ToCol (vbase (sview record))) columnsIn
  ∖ list_to_set (Columns (sview record)).

(** The selected columns and values are taken at the same, strictly
    increasing, positions of the table's columns and of the record's
    values: aligned, and in table order. *)
Definition selected_at (idx : list nat) (allColumns : list string)
    (allValues : list value) (columns : list string) (values : list value) : Prop :=
  StronglySorted lt idx
  ∧ Forall2 (λ i c, allColumns !! i = Some c) idx columns
  ∧ Forall2 (λ i v, allValues !! i = Some v) idx values.

(** The cursor after [Next]. *)
Definition advance (rows : sql_Rows) : sql_Rows := (rows_Next rows).2.

(** What a row with values [vs] becomes: the struct of [view] with these
    fields, after its [AfterFind] hook if it has one, and the hook's error. *)
Definition materialize (view : View) (vs : list value) : Struct * option error :=
  match vAfterFind view with
  | Some af => ({| sview := view; sfields := (af vs).1 |}, (af vs).2)
  | None => ({| sview := view; sfields := vs |}, None)
  end.

(** A row that [NextRow] materializes without error. *)
Definition valid_row (view : View) (vs : list value) : Prop :=
  length vs = length (vzero view) ∧ (materialize view vs).2 = None.

Definition afterFind_events (view : View) (rows : list (list value)) : list event :=
  match vAfterFind view with
  | Some _ => map EvAfterFind rows
  | None => []
  end.

(** The statements as first proposed, for the inputs on which they fail. *)


(** [InsertMulti] rejects [structs] before any hook and any SQL. *)
Definition rejected_before_hooks (Expand : string → (string → string) → string)
    (q : Querier) (structs : list Struct) : Prop :=
  ∀ tr, ∃ msg,
    InsertMulti Expand q structs tr = (Ok (Some (Errorf msg), structs), tr).

(** The command reports [ErrNoPK] for [record] before any SQL. *)
Definition reports_missing_key (command : Struct → M (option error * Struct))
    (record : Struct) : Prop :=
  HasPK record = false →
  ∀ tr, command record tr = (Ok (Some ErrNoPK, record), tr).

(** The filter fails with an error naming every unmatched column. *)
Definition rejects_naming_unmatched (range_order : gset string → list string)
    (record : Struct) (columnsIn : list string) (isUpdate : bool) : Prop :=
  unmatched record columnsIn ≠ ∅ →
  ∃ columns values err,
    filteredColumnsAndValues range_order record columnsIn isUpdate
    = Ok (columns, values, err)
    ∧ names_columns err (unmatched record columnsIn).

(** The memory a pass of the filter works on: the arrays that existed
    before the call are untouched, and the two output slices lie in newer
    arrays. *)
Definition pass_inv (m0 m : Mem.mem) (columns values : Mem.slice)
    (cols : list string) (vals : list value) : Prop :=
  Mem.preserved (length (Mem.strs m0)) (Mem.strs m0) (Mem.strs m)
  ∧ Mem.preserved (length (Mem.vals m0)) (Mem.vals m0) (Mem.vals m)
  ∧ Mem.valid (Mem.strs m) columns
  ∧ (length (Mem.strs m0) ≤ Mem.arr columns)%nat
  ∧ Mem.contents (Mem.strs m) columns = cols
  ∧ Mem.valid (Mem.vals m) values
  ∧ (length (Mem.vals m0) ≤ Mem.arr values)%nat
  ∧ Mem.contents (Mem.vals m) values = vals.

(** *** Vocabulary of the further properties *)

(** Two results of the filter that are the same but for the order in which
    an error about unexpected columns lists them: every loop over a map
    visits the keys in an order of its own. *)
Definition same_selection (a b : res (list string * list value * option error))
  : Prop :=
  match a, b with
  | Ok (columns, values, None), Ok (columns', values', None) =>
      columns = columns' ∧ values = values'
  | Ok (columns, values, Some e), Ok (columns', values', Some e') =>
      values = values'
      ∧ ((columns = columns' ∧ e = e')
         ∨ (columns ≡ₚ columns'
            ∧ e = Errorf ("reform: unexpected columns: " +:+ fmt_v columns)
            ∧ e' = Errorf ("reform: unexpected columns: " +:+ fmt_v columns')))
  | Panic msg, Panic msg' => msg = msg'
  | _, _ => False
  end.

(** The text of the UPDATE statement that sets [columns] on the row whose
    primary-key column is [c]. *)
Definition update_text (q : Querier) (table : View) (columns : list string)
    (c : string) : string :=
  "UPDATE " +:+ QualifiedView q table +:+ " SET "
  +:+ Join (zip_with (λ column placeholder, column +:+ " = " +:+ placeholder)
              (map (QuoteIdentifier q) columns)
              (Placeholders q 1 (length columns))) ", "
  +:+ " WHERE " +:+ QuoteIdentifier q c +:+ " = "
  +:+ Placeholder q (Z.of_nat (length columns) + 1).

(** What [update], [Delete], [DeleteFrom] and [DsExec] make of the answer
    of [Exec]: the error of the driver, if any. *)
Definition driver_error (r : error + sql_Result) : option error :=
  match r with
  | inl e => Some e
  | inr res =>
      match resRowsAffected res with
      | inl e => Some e
      | inr _ => None
      end
  end.

(** The result of an update or delete by primary key, from the answer of
    [Exec]. *)
Definition exec_outcome (verb : string) (r : error + sql_Result) : res (option error) :=
  match r with
  | inl e => Ok (Some e)
  | inr res =>
      match resRowsAffected res with
      | inl e => Ok (Some e)
      | inr ra => (rows_affected_outcome verb ra []).1
      end
  end.

(** [l] without its element at [pk]. *)
Definition without {A : Type} (pk : nat) (l : list A) : list A :=
  take pk l ++ drop (S pk) l.

(** ** More sample data *)

Module Samples.

Import Fixture.

(** The persons as a view: the same columns, no primary key. *)
Definition people_view_info : ViewInfo :=
  {| Schema := EmptyString; Name := "people_view"; Columns := ["id"; "name"; "age"];
     vbase := NewViewBase person_fields; PKColumnIndex := None |}.

Definition PeopleView : View :=
  {| vinfo := people_view_info; vobj := 5;
     vzero := [VInt 0; VStr EmptyString; VInt 0];
     vString := person_String;
     vBeforeInsert := None; vBeforeUpdate := None; vAfterFind := None |}.

Definition ann_viewed : Struct :=
  {| sview := PeopleView; sfields := [VInt 5; VStr "ann"; VInt 30] |}.

(** A second table. *)
Definition pet_fields : list FieldInfo :=
  [ {| fiName := "ID"; fiColumn := "id"; fiPKType := "int32" |};
    {| fiName := "Name"; fiColumn := "name"; fiPKType := EmptyString |} ].

Definition pet_info : ViewInfo :=
  {| Schema := EmptyString; Name := "pets"; Columns := ["id"; "name"];
     vbase := NewViewBase pet_fields; PKColumnIndex := Some 0%nat |}.

Definition PetTable : View :=
  {| vinfo := pet_info; vobj := 6; vzero := [VInt 0; VStr EmptyString];
     vString := λ _, "pet";
     vBeforeInsert := None; vBeforeUpdate := None; vAfterFind := None |}.

Definition rex : Struct :=
  {| sview := PetTable; sfields := [VInt 0; VStr "rex"] |}.

(** A hook that refuses a person without a name. *)
Definition hook_named : hook := λ fs,
  match fs !! 1%nat with
  | Some (VStr EmptyString) => (fs, Some (ErrForeign "name is empty"))
  | _ => (fs, None)
  end.

(** A hook that reports [ErrNoRows] for a person of age 0. *)
Definition hook_stop : hook := λ fs,
  match fs !! 2%nat with
  | Some (VInt 0) => (fs, Some ErrNoRows)
  | _ => (fs, None)
  end.

(** The person table for a struct type that checks the name before every
    write, and one that stops at age 0 after every find. *)
Definition PersonChecked : View :=
  PersonTable_hooks 3 (Some hook_named) (Some hook_named) None.

Definition PersonStopping : View :=
  PersonTable_hooks 4 None None (Some hook_stop).

Definition cy : Struct := person PersonTable 0 "cy" 20.

(** A connection whose query yields three rows and whose single-row query
    yields Ann. *)
Definition three_rows : sql_Rows :=
  {| rows_cur := None;
     rows_pending := [plain_row [VInt 1; VStr "ann"; VInt 30];
                      plain_row [VInt 2; VStr "bob"; VInt 0];
                      plain_row [VInt 3; VStr "cy"; VInt 20]];
     rows_err := None;
     rows_closeErr := None |}.

Definition rows_db : DBTX :=
  {| Exec := λ _ _ _, inr {| resLastInsertId := inr 0%Z; resRowsAffected := inr 3%Z |};
     Query := λ _ _ _, inr three_rows;
     QueryRow := λ _ _ _, plain_row [VInt 5; VStr "ann"; VInt 31] |}.

(** Another possible iteration order of a map. *)
Definition range_reversed (s : gset string) : list string := reverse (elements s).

(** A row whose third column does not convert to the integer field, and a
    connection that yields it. *)
Definition torn_row : sql_row :=
  inr [inr (VInt 7); inr (VStr "zed"); inl (ErrForeign "converting to int")].

Definition torn_cursor : sql_Rows :=
  {| rows_cur := None; rows_pending := [torn_row];
     rows_err := None; rows_closeErr := None |}.

Definition torn_db : DBTX :=
  {| Exec := λ _ _ _, inr {| resLastInsertId := inr 0%Z; resRowsAffected := inr 1%Z |};
     Query := λ _ _ _, inr torn_cursor;
     QueryRow := λ _ _ _, torn_row |}.

End Samples.

(** ** Properties *)

(** Unfolding the command monad. *)
Ltac run := unfold mbind, M_bind, mret, M_ret, lift, panic, emit in *; simpl in *.

Lemma set_list_ok (columns placeholders : list string) :
  (length columns ≤ length placeholders)%nat →
  ∃ p, set_list columns placeholders = Ok p ∧ length p = length columns.
Proof.
  revert placeholders. induction columns as [|c cs IH]; intros phs Hlen.
  - exists []. done.
  - destruct phs as [|ph phs]; simpl in *; [lia|].
    destruct (IH phs) as (p & -> & Hp); [lia|].
    eexists. split; [reflexivity|]. simpl. by rewrite Hp.
Qed.

Lemma index_ok {A : Type} (l : list A) (i : nat) :
  (i < length l)%nat → ∃ x, l !! i = Some x ∧ index l i = Ok x.
Proof.
  intros Hi. destruct (lookup_lt_is_Some_2 l i Hi) as [x Hx].
  exists x. unfold index. by rewrite Hx.
Qed.

Lemma elem_of_requested_set (toCol : string → string) (columnsIn : list string)
    (c : string) :
  c ∈ requested_set toCol columnsIn
  ↔ ∃ x, x ∈ columnsIn ∧ c = toCol (TrimLeft x "$"%char).
Proof.
  unfold requested_set.
  assert (Hgen : ∀ (acc : gset string),
    c ∈ foldl (λ (set : gset string) x, {[ toCol (TrimLeft x "$"%char) ]} ∪ set)
          acc columnsIn
    ↔ c ∈ acc ∨ ∃ x, x ∈ columnsIn ∧ c = toCol (TrimLeft x "$"%char)).
  { induction columnsIn as [|x l IH]; intros acc; simpl.
    - split; [by left|]. intros [?|(x & Hx & _)]; [done|]. by apply elem_of_nil in Hx.
    - rewrite IH. rewrite elem_of_union, elem_of_singleton. split.
      + intros [[->|?]|(y & Hy & ->)].
        * right. exists x. split; [left|done].
        * by left.
        * right. exists y. split; [by right|done].
      + intros [?|(y & Hy & ->)]; [left; by right|].
        apply elem_of_cons in Hy as [->|Hy]; [left; by left|].
        right. by exists y. }
  rewrite Hgen. split; [|by right]. intros [H|H]; [|done].
  by apply elem_of_empty in H.
Qed.

(** The pass over the columns: what it selects, what it leaves in the set,
    and when it stops at the primary key. *)
Lemma filter_pass_spec (isUpdate : bool) (pk : nat) (allValues : list value)
    (allColumns : list string) :
  ∀ (rest pre : list string) (set : gset string) (cols : list string)
    (vals : list value) set' cols' vals' err,
  allColumns = pre ++ rest →
  filter_pass isUpdate pk allValues (length pre) rest set cols vals
  = Ok (set', cols', vals', err) →
  ∃ idx cs vs,
    cols' = cols ++ cs ∧ vals' = vals ++ vs
    ∧ selected_at idx allColumns allValues cs vs
    ∧ Forall (λ i, length pre ≤ i)%nat idx
    ∧ NoDup cs
    ∧ (∀ c, c ∈ cs → c ∈ set)
    ∧ (err = None →
       set' = set ∖ list_to_set rest ∧ ∀ c, c ∈ cs ↔ c ∈ set ∧ c ∈ rest)
    ∧ (∀ e, err = Some e →
       isUpdate = true
       ∧ ∃ c, allColumns !! pk = Some c ∧ c ∈ set
              ∧ e = Errorf ("reform: will not update PK column: " +:+ c)).
Proof.
  induction rest as [|c rest IH]; intros pre set cols vals set' cols' vals' err Hall Hrun.
  - simpl in Hrun. injection Hrun as <- <- <- <-.
    exists [], [], []. rewrite !app_nil_r.
    split; [done|]. split; [done|]. split; [by repeat constructor|].
    split; [constructor|]. split; [constructor|].
    split; [intros c Hc; by apply elem_of_nil in Hc|].
    split; [|done]. intros _. split; [set_solver|].
    intros c. rewrite elem_of_nil. tauto.
  - assert (Hc : allColumns !! length pre = Some c).
    { rewrite Hall. by rewrite list_lookup_middle. }
    assert (Hall' : allColumns = (pre ++ [c]) ++ rest) by by rewrite <- app_assoc.
    assert (Hlen' : length (pre ++ [c]) = S (length pre))
      by (rewrite length_app; simpl; lia).
    simpl in Hrun. destruct (bool_decide (c ∈ set)) eqn:Hin.
    + apply bool_decide_eq_true in Hin.
      destruct (isUpdate && bool_decide (length pre = pk)) eqn:Hpk.
      * injection Hrun as <- <- <- <-.
        apply andb_true_iff in Hpk as [-> Hpk]. apply bool_decide_eq_true in Hpk.
        exists [], [], []. rewrite !app_nil_r.
        split; [done|]. split; [done|]. split; [by repeat constructor|].
        split; [constructor|]. split; [constructor|].
        split; [intros c' Hc'; by apply elem_of_nil in Hc'|].
        split; [done|].
        intros e [= <-]. split; [done|]. exists c. by rewrite <- Hpk.
      * destruct (allValues !! length pre) as [v|] eqn:Hv; [|done].
        rewrite <- Hlen' in Hrun.
        destruct (IH _ _ _ _ _ _ _ _ Hall' Hrun)
          as (idx & cs & vs & -> & -> & (Hsort & Hcs & Hvs) & Hge & Hnd & Hsub & Hnone & Hsome).
        exists (length pre :: idx), (c :: cs), (v :: vs).
        rewrite <- !app_assoc. simpl.
        split; [done|]. split; [done|]. split; [|split; [|split; [|split; [|split]]]].
        -- split; [|split]; [|by constructor|by constructor].
           constructor; [done|]. eapply Forall_impl; [exact Hge|].
           intros i Hi. simpl in Hi. lia.
        -- constructor; [done|]. eapply Forall_impl; [exact Hge|].
           intros i Hi. simpl in Hi. lia.
        -- constructor; [|done]. intros Hc'. apply Hsub in Hc'. set_solver.
        -- intros c' Hc'. apply elem_of_cons in Hc' as [->|Hc']; [done|].
           apply Hsub in Hc'. set_solver.
        -- intros Herr. destruct (Hnone Herr) as [-> Hiff]. split; [set_solver|].
           intros c'. rewrite !elem_of_cons, Hiff.
           destruct (decide (c' = c)) as [->|Hne]; [naive_solver|].
           set_solver.
        -- intros e He. destruct (Hsome e He) as (Hup & c' & Hc' & Hin' & ->).
           split; [done|]. exists c'. split; [done|]. split; [set_solver|done].
    + apply bool_decide_eq_false in Hin. rewrite <- Hlen' in Hrun.
      destruct (IH _ _ _ _ _ _ _ _ Hall' Hrun)
        as (idx & cs & vs & -> & -> & Hsel & Hge & Hnd & Hsub & Hnone & Hsome).
      exists idx, cs, vs.
      split; [done|]. split; [done|]. split; [done|]. split; [|split; [done|split; [done|split]]].
      * eapply Forall_impl; [exact Hge|]. intros i Hi. simpl in Hi. lia.
      * intros Herr. destruct (Hnone Herr) as [-> Hiff]. split; [set_solver|].
        intros c'. rewrite Hiff, elem_of_cons. set_solver.
      * done.
Qed.

(** With a value for every column the pass does not panic. *)
Lemma filter_pass_ok (isUpdate : bool) (pk : nat) (allValues : list value) :
  ∀ (rest : list string) (i : nat) (set : gset string) (cols : list string)
    (vals : list value),
  (i + length rest ≤ length allValues)%nat →
  ∃ out, filter_pass isUpdate pk allValues i rest set cols vals = Ok out.
Proof.
  induction rest as [|c rest IH]; intros i set cols vals Hlen; simpl in *.
  - eauto.
  - destruct (bool_decide (c ∈ set)).
    + destruct (isUpdate && bool_decide (i = pk)); [eauto|].
      destruct (lookup_lt_is_Some_2 allValues i) as [v ->]; [lia|].
      apply IH. lia.
    + apply IH. lia.
Qed.

(** *** Slices in memory *)

Section HeapFacts.

Context {A : Type} (zero : A).
Implicit Types (h : list (list A)) (s : Mem.slice).

Lemma contents_length h s : Mem.valid h s → length (Mem.contents h s) = Mem.len s.
Proof.
  intros (a & Ha & Hoff & Hlen). unfold Mem.contents. rewrite Ha. simpl.
  rewrite length_take, length_drop. lia.
Qed.

Lemma get_contents h s i :
  Mem.valid h s →
  Mem.get h s i = index (Mem.contents h s) i.
Proof.
  intros (a & Ha & Hoff & Hlen). unfold Mem.get, index, Mem.contents.
  rewrite Ha. simpl. destruct (decide (i < Mem.len s)%nat) as [Hi|Hi].
  - rewrite lookup_take_lt by done. by rewrite lookup_drop.
  - rewrite lookup_take_ge by lia. done.
Qed.

Lemma preserved_refl n h : Mem.preserved n h h.
Proof. by intros a _. Qed.

Lemma preserved_trans n h1 h2 h3 :
  Mem.preserved n h1 h2 → Mem.preserved n h2 h3 → Mem.preserved n h1 h3.
Proof. intros H12 H23 a Ha. rewrite H23, H12; done. Qed.

Lemma preserved_contents n h h' s :
  Mem.preserved n h h' → (Mem.arr s < n)%nat →
  Mem.contents h' s = Mem.contents h s.
Proof. intros Hp Hs. unfold Mem.contents. by rewrite Hp. Qed.

Lemma preserved_valid n h h' s :
  Mem.preserved n h h' → (Mem.arr s < n)%nat → Mem.valid h s → Mem.valid h' s.
Proof. intros Hp Hs (a & Ha & ?). exists a. by rewrite Hp. Qed.

Lemma make_spec h c :
  let '(h', s) := Mem.make zero h c in
  Mem.valid h' s ∧ Mem.arr s = length h ∧ length h' = S (length h)
  ∧ Mem.contents h' s = [] ∧ Mem.len s = 0%nat
  ∧ Mem.preserved (length h) h h'.
Proof.
  unfold Mem.make. simpl. split; [|split; [done|split; [|split; [|split; [done|]]]]].
  - exists (replicate c zero). simpl. rewrite lookup_app_r, Nat.sub_diag by done.
    split; [done|]. rewrite length_replicate. lia.
  - rewrite length_app. simpl. lia.
  - unfold Mem.contents. simpl. done.
  - intros a Ha. by rewrite lookup_app_l.
Qed.

Lemma append_spec n h s x :
  Mem.valid h s → (n ≤ Mem.arr s)%nat →
  let '(h', s') := Mem.append zero h s x in
  Mem.valid h' s' ∧ (n ≤ Mem.arr s')%nat ∧ (length h ≤ length h')%nat
  ∧ Mem.contents h' s' = Mem.contents h s ++ [x]
  ∧ Mem.preserved n h h'.
Proof.
  intros (a & Ha & Hoff & Hlen) Hn. unfold Mem.append.
  assert (Harr : (Mem.arr s < length h)%nat) by by eapply lookup_lt_Some.
  destruct (decide (Mem.len s < Mem.cap s)%nat) as [Hroom|Hfull].
  - split; [|split; [done|split; [|split]]].
    + exists (<[(Mem.off s + Mem.len s)%nat := x]> a). simpl.
      rewrite list_lookup_alter_eq, Ha. simpl. rewrite length_insert.
      split; [done|]. lia.
    + by rewrite length_alter.
    + unfold Mem.contents. simpl. rewrite list_lookup_alter_eq, Ha. simpl.
      rewrite drop_insert_ge by lia.
      replace (Mem.off s + Mem.len s - Mem.off s)%nat with (Mem.len s) by lia.
      erewrite take_S_r.
      2:{ apply list_lookup_insert_eq. rewrite length_drop. lia. }
      by rewrite take_insert_ge by lia.
    + intros b Hb. rewrite list_lookup_alter_ne by lia. done.
  - assert (Hc : length (Mem.contents h s) = Mem.len s).
    { apply contents_length. by exists a. }
    split; [|split; [|split; [|split]]].
    + eexists. simpl. rewrite lookup_app_r, Nat.sub_diag by done.
      split; [done|]. rewrite length_app, Hc. simpl. rewrite length_replicate. lia.
    + simpl. lia.
    + rewrite length_app. lia.
    + unfold Mem.contents at 1. simpl.
      rewrite lookup_app_r, Nat.sub_diag by done. simpl.
      rewrite drop_0, take_app_ge by lia. rewrite Hc.
      replace (S (Mem.len s) - Mem.len s)%nat with 1%nat by lia. done.
    + intros b Hb. rewrite lookup_app_l by lia. done.
Qed.

End HeapFacts.

Lemma collect_spec (n : nat) (names : list string) :
  ∀ (h : list (list string)) (s : Mem.slice),
  Mem.valid h s → (n ≤ Mem.arr s)%nat →
  Mem.valid (Mem.collect h s names).1 (Mem.collect h s names).2
  ∧ Mem.contents (Mem.collect h s names).1 (Mem.collect h s names).2
    = Mem.contents h s ++ names
  ∧ Mem.preserved n h (Mem.collect h s names).1.
Proof.
  unfold Mem.collect.
  induction names as [|c names IH]; intros h s Hv Hn; simpl.
  - rewrite app_nil_r. split; [done|]. split; [done|]. apply preserved_refl.
  - pose proof (append_spec EmptyString n h s c Hv Hn) as Happ.
    destruct (Mem.append EmptyString h s c) as [h1 s1].
    destruct Happ as (Hv1 & Hn1 & _ & Hc1 & Hp1).
    destruct (IH h1 s1 Hv1 Hn1) as (Hv2 & Hc2 & Hp2).
    split; [done|]. split.
    + rewrite Hc2, Hc1. by rewrite <- app_assoc.
    + by eapply preserved_trans.
Qed.

Lemma valid_lt {A : Type} (h : list (list A)) (s : Mem.slice) :
  Mem.valid h s → (Mem.arr s < length h)%nat.
Proof. intros (a & Ha & _). by eapply lookup_lt_Some. Qed.

Lemma pass_refines (isUpdate : bool) (pk : nat) (m0 : Mem.mem)
    (allColumns allValues : Mem.slice) :
  Mem.valid (Mem.strs m0) allColumns →
  Mem.valid (Mem.vals m0) allValues →
  ∀ (rest : list string) (i : nat) (m : Mem.mem) (set : gset string)
    (columns values : Mem.slice) (cols : list string) (vals : list value),
  drop i (Mem.contents (Mem.strs m0) allColumns) = rest →
  pass_inv m0 m columns values cols vals →
  match filter_pass isUpdate pk (Mem.contents (Mem.vals m0) allValues)
          i rest set cols vals with
  | Panic msg =>
      Mem.pass isUpdate pk allColumns allValues (seq i (length rest))
        m set columns values = Panic msg
  | Ok (set', cols', vals', err) =>
      ∃ m' columns' values',
        Mem.pass isUpdate pk allColumns allValues (seq i (length rest))
          m set columns values = Ok (m', set', columns', values', err)
        ∧ pass_inv m0 m' columns' values' cols' vals'
  end.
Proof.
  intros HvC HvV.
  induction rest as [|c rest IH]; intros i m set columns values cols vals Hrest Hinv.
  - simpl. by exists m, columns, values.
  - destruct Hinv as (Hps & Hpv & Hvc & Hnc & Hcc & Hvv & Hnv & Hcv).
    assert (Hlk : Mem.contents (Mem.strs m0) allColumns !! i = Some c).
    { replace i with (i + 0)%nat by lia. by rewrite <- lookup_drop, Hrest. }
    assert (Hc : Mem.get (Mem.strs m) allColumns i = Ok c).
    { rewrite get_contents by (eapply preserved_valid; eauto using valid_lt).
      rewrite (preserved_contents _ _ _ _ Hps) by by apply valid_lt.
      unfold index. by rewrite Hlk. }
    assert (Hv : Mem.get (Mem.vals m) allValues i
                 = index (Mem.contents (Mem.vals m0) allValues) i).
    { rewrite get_contents by (eapply preserved_valid; eauto using valid_lt).
      by rewrite (preserved_contents _ _ _ _ Hpv) by by apply valid_lt. }
    assert (Hrest' : drop (S i) (Mem.contents (Mem.strs m0) allColumns) = rest).
    { pose proof (drop_S _ _ _ Hlk) as Hd. rewrite Hrest in Hd. by injection Hd. }
    simpl. rewrite Hc.
    destruct (bool_decide (c ∈ set)); [|by apply IH].
    destruct (isUpdate && bool_decide (i = pk)).
    { by exists m, columns, values. }
    pose proof (append_spec EmptyString _ _ _ c Hvc Hnc) as Happ.
    destruct (Mem.append EmptyString (Mem.strs m) columns c) as [hs columns'].
    destruct Happ as (Hvc' & Hnc' & _ & Hcc' & Hps').
    rewrite Hv. unfold index.
    destruct (Mem.contents (Mem.vals m0) allValues !! i) as [v|]; [|done].
    pose proof (append_spec VNil _ _ _ v Hvv Hnv) as Happ.
    destruct (Mem.append VNil (Mem.vals m) values v) as [hv values'].
    destruct Happ as (Hvv' & Hnv' & _ & Hcv' & Hpv').
    apply IH; [done|].
    split; [by eapply preserved_trans|]. split; [by eapply preserved_trans|].
    simpl. rewrite Hcc', Hcv', Hcc, Hcv. done.
Qed.

Section Properties.

Variable range_order : gset string → list string.
Variable Expand : string → (string → string) → string.
Variable q : Querier.

(** What [update] does once the statement was executed and the driver
    reported [ra] affected rows. *)
Lemma update_run (record : Struct) (columns : list string) (values : list value)
    (tr : trace) (r : sql_Result) (ra : Z) :
  wf_dialect q → wf_record record →
  (∀ query args, Exec q tr query args = inr r) →
  resRowsAffected r = inr ra →
  ∃ query,
    update Expand q record columns values tr
    = rows_affected_outcome "UPDATE" ra
        (tr ++ [EvExec query (values ++ [PKValue record])]).
Proof.
  intros Hd (pk & Hpk & Hlt & _) Hexec Hra. unfold update.
  destruct (set_list_ok (map (QuoteIdentifier q) columns)
              (Placeholders q 1 (length (map (QuoteIdentifier q) columns))))
    as (p & Hp & _); [by rewrite Hd|].
  destruct (index_ok _ _ Hlt) as (c & _ & Hc).
  run. rewrite Hp. simpl. rewrite Hpk. rewrite Hc. simpl.
  unfold qExec. rewrite Hexec, Hra. eauto.
Qed.

Lemma Delete_run (record : Struct) (tr : trace) (r : sql_Result) (ra : Z) :
  wf_record record → HasPK record = true →
  (∀ query args, Exec q tr query args = inr r) →
  resRowsAffected r = inr ra →
  ∃ query,
    Delete Expand q record tr
    = rows_affected_outcome "DELETE" ra (tr ++ [EvExec query [PKValue record]]).
Proof.
  intros (pk & Hpk & Hlt & _) Hhas Hexec Hra. unfold Delete.
  rewrite Hhas. simpl. rewrite Hpk.
  destruct (index_ok _ _ Hlt) as (c & _ & Hc).
  run. rewrite Hc. simpl.
  unfold qExec. rewrite Hexec, Hra. eauto.
Qed.

(** C4: when an update or a delete by primary key was executed and the
    driver reports [ra] affected rows, zero rows is reported as [ErrNoRows],
    exactly one row is success, and more than one row is a panic. *)
Theorem rows_affected_postcondition (record : Struct) (columns : list string)
    (values : list value) (tr : trace) (r : sql_Result) (ra : Z) :
  wf_dialect q → wf_record record → HasPK record = true →
  (∀ query args, Exec q tr query args = inr r) →
  resRowsAffected r = inr ra →
  (ra = 0%Z →
     (update Expand q record columns values tr).1 = Ok (Some ErrNoRows)
     ∧ (Delete Expand q record tr).1 = Ok (Some ErrNoRows))
  ∧ (ra = 1%Z →
     (update Expand q record columns values tr).1 = Ok None
     ∧ (Delete Expand q record tr).1 = Ok None)
  ∧ ((1 < ra)%Z →
     (∃ msg, (update Expand q record columns values tr).1 = Panic msg)
     ∧ (∃ msg, (Delete Expand q record tr).1 = Panic msg)).
Proof.
  intros Hd Hwf Hhas Hexec Hra.
  destruct (update_run record columns values tr r ra Hd Hwf Hexec Hra) as [qu ->].
  destruct (Delete_run record tr r ra Hwf Hhas Hexec Hra) as [qd ->].
  unfold rows_affected_outcome.
  split; [|split]; intros Hcase.
  - subst ra. done.
  - subst ra. done.
  - destruct (decide (ra = 0%Z)); [lia|].
    destruct (decide (ra > 1)%Z); [|lia].
    split; eexists; reflexivity.
Qed.

(** The three commands that check the primary key report [ErrNoPK] and do
    nothing else. *)
Lemma Update_no_pk (record : Struct) (tr : trace) :
  HasPK record = false →
  Update Expand q record tr = (Ok (Some ErrNoPK, record), tr).
Proof. intros H. unfold Update, beforeUpdate. rewrite H. done. Qed.

Lemma UpdateColumns_no_pk (record : Struct) (columns : list string) (tr : trace) :
  HasPK record = false →
  UpdateColumns range_order Expand q record columns tr
  = (Ok (Some ErrNoPK, record), tr).
Proof. intros H. unfold UpdateColumns, beforeUpdate. rewrite H. done. Qed.

Lemma Delete_no_pk (record : Struct) (tr : trace) :
  HasPK record = false →
  Delete Expand q record tr = (Ok (Some ErrNoPK), tr).
Proof. intros H. unfold Delete. rewrite H. done. Qed.

(** The trace of a single-row select starts with its query. *)
Lemma SelectOneTo_trace (str : Struct) (tail : string) (args : list value) (tr : trace) :
  ∃ rest,
    (SelectOneTo Expand q str tail args tr).2
    = tr ++ EvQueryRow (Expand (selectQuery q (sview str) tail true)
                          (ToCol (vbase (sview str)))) args :: rest.
Proof.
  unfold SelectOneTo, qQueryRow. run.
  destruct (Scan_Pointers _ str) as [[e|] str'] eqn:Hscan; simpl.
  - exists []. done.
  - unfold afterFind. destruct (vAfterFind (sview str')) as [af|]; simpl.
    + unfold call_hook. run. destruct (af (sfields str')) as [fs err]. simpl.
      eexists. rewrite <- app_assoc. reflexivity.
    + exists []. done.
Qed.

Lemma Reload_trace (record : Struct) (tr : trace) :
  wf_record record →
  ∃ query args rest,
    (Reload Expand q record tr).2 = tr ++ EvQueryRow query args :: rest.
Proof.
  intros (pk & Hpk & Hlt & _). unfold Reload, FindByPrimaryKeyTo.
  rewrite Hpk. destruct (index_ok _ _ Hlt) as (c & _ & Hc).
  run. rewrite Hc. simpl. unfold FindOneTo.
  destruct (findTail q (Name (sview record)) c (PKValue record) true) as [tail needArg].
  destruct needArg.
  - destruct (SelectOneTo_trace record tail [PKValue record] tr) as [rest ->]. eauto.
  - destruct (SelectOneTo_trace record tail [] tr) as [rest ->]. eauto.
Qed.

(** C3, as amended: on a record whose primary key is unset, [Update],
    [UpdateColumns] and [Delete] return [ErrNoPK] and leave the trace (no
    hook, no SQL) and the record as they were; [Reload] makes no such check
    and sends its SELECT to the connection. *)
Theorem missing_key_checked_before_sql (record : Struct) (columns : list string)
    (tr : trace) :
  HasPK record = false →
  Update Expand q record tr = (Ok (Some ErrNoPK, record), tr)
  ∧ UpdateColumns range_order Expand q record columns tr
    = (Ok (Some ErrNoPK, record), tr)
  ∧ Delete Expand q record tr = (Ok (Some ErrNoPK), tr)
  ∧ (wf_record record →
     ∃ query args rest,
       (Reload Expand q record tr).2 = tr ++ EvQueryRow query args :: rest).
Proof.
  intros H. split; [|split; [|split]].
  - by apply Update_no_pk.
  - by apply UpdateColumns_no_pk.
  - by apply Delete_no_pk.
  - apply Reload_trace.
Qed.

(** C5: [Save] is [Update] followed, when and only when [Update] returns
    [ErrNoRows], by [Insert]; without a primary key it is [Insert]. *)
Theorem Save_composition (record : Struct) (tr : trace) :
  Save Expand q record tr =
    if HasPK record then
      match Update Expand q record tr with
      | (Ok (Some ErrNoRows, record'), tr') => Insert Expand q record' tr'
      | other => other
      end
    else Insert Expand q record tr.
Proof.
  unfold Save. destruct (HasPK record); [|done].
  run. destruct (Update Expand q record tr) as [[[err record']|msg] tr']; [|done].
  destruct err as [[]|]; done.
Qed.

(** *** Finds *)

Lemma append_empty_r (s : string) : s +:+ EmptyString = s.
Proof.
  induction s as [|a s IH]; [done|].
  change (String a (s +:+ EmptyString) = String a s). by rewrite IH.
Qed.

Lemma selectQuery_text (view : View) (tail : string) (limit1 : bool) :
  selectQuery q view tail limit1 = select_text q view tail limit1.
Proof.
  unfold selectQuery, select_text.
  by destruct (limit1 && bool_decide (selectLimitMethod q = SelectTop)).
Qed.

Lemma findTail_spec (view column : string) (arg : value) (limit1 : bool) :
  findTail q view column arg limit1
  = (find_predicate q view column arg +:+ limit_suffix q limit1,
     negb (bool_decide (arg = VNil))).
Proof.
  unfold findTail, find_predicate, limit_suffix.
  destruct (decide (arg = VNil)) as [Hnil|Hnil].
  - rewrite (bool_decide_eq_true_2 _ Hnil).
    destruct (limit1 && _); [done|]. by rewrite append_empty_r.
  - rewrite (bool_decide_eq_false_2 _ Hnil).
    destruct (limit1 && _); [done|]. by rewrite append_empty_r.
Qed.

Lemma SelectOneFrom_trace (view : View) (tail : string) (args : list value) (tr : trace) :
  ∃ rest,
    (SelectOneFrom Expand q view tail args tr).2
    = tr ++ EvQueryRow (Expand (selectQuery q view tail true)
                          (ToCol (vbase view))) args :: rest.
Proof.
  unfold SelectOneFrom. run.
  destruct (SelectOneTo_trace (NewStruct view) tail args tr) as [rest Hrest].
  destruct (SelectOneTo Expand q (NewStruct view) tail args tr)
    as [[[err str]|msg] tr'] eqn:Hsel; simpl in *; subst tr'.
  - exists rest. by destruct err.
  - by exists rest.
Qed.

Lemma SelectRows_trace (view : View) (tail : string) (args : list value) (tr : trace) :
  (SelectRows Expand q view tail args tr).2
  = tr ++ [EvQuery (Expand (selectQuery q view tail false) (ToCol (vbase view))) args].
Proof. done. Qed.

(** What the finds synthesize and hand to [Expand]: for a nil argument the
    predicate [WHERE <view>.<column> IS NULL], without a placeholder, and
    no argument; for any other argument
    [WHERE <view>.<column> = <Placeholder(1)>] and exactly that argument.
    [FindOneTo] and [FindOneFrom] put the predicate in a single-row SELECT,
    [FindRows] in a SELECT; what they send is [Expand] of that text. *)
Lemma finds_send (str : Struct) (view : View) (column : string)
    (arg : value) (tr : trace) :
  let qi := λ name, QuoteIdentifier q name +:+ "." +:+ QuoteIdentifier q column in
  let predicate := λ name,
    if decide (arg = VNil) then "WHERE " +:+ qi name +:+ " IS NULL"
    else "WHERE " +:+ qi name +:+ " = " +:+ Placeholder q 1 in
  let bound := if decide (arg = VNil) then [] else [arg] in
  let text := λ (v : View) limit1,
    select_text q v (predicate (Name v) +:+ limit_suffix q limit1) limit1 in
  (∀ name limit1,
     findTail q name column arg limit1
     = (predicate name +:+ limit_suffix q limit1, negb (bool_decide (arg = VNil))))
  ∧ (∃ rest,
       (FindOneTo Expand q str column arg tr).2
       = tr ++ EvQueryRow (Expand (text (sview str) true) (ToCol (vbase (sview str))))
                 bound :: rest)
  ∧ (∃ rest,
       (FindOneFrom Expand q view column arg tr).2
       = tr ++ EvQueryRow (Expand (text view true) (ToCol (vbase view))) bound :: rest)
  ∧ (FindRows Expand q view column arg tr).2
    = tr ++ [EvQuery (Expand (text view false) (ToCol (vbase view))) bound].
Proof.
  intros qi predicate bound text.
  assert (Hspec : ∀ name limit1,
            findTail q name column arg limit1
            = (predicate name +:+ limit_suffix q limit1,
               negb (bool_decide (arg = VNil)))).
  { intros name limit1. rewrite findTail_spec. done. }
  split; [exact Hspec|].
  subst text. cbv beta. rewrite <- !selectQuery_text.
  unfold FindOneTo, FindOneFrom, FindRows. rewrite !Hspec.
  subst bound. destruct (decide (arg = VNil)) as [Hnil|Hnil].
  - rewrite (bool_decide_eq_true_2 _ Hnil). simpl negb. cbv iota.
    split; [apply SelectOneTo_trace|]. split; [apply SelectOneFrom_trace|].
    apply SelectRows_trace.
  - rewrite (bool_decide_eq_false_2 _ Hnil). simpl negb. cbv iota.
    split; [apply SelectOneTo_trace|]. split; [apply SelectOneFrom_trace|].
    apply SelectRows_trace.
Qed.

(** *** Row materializer *)

Lemma NextRow_no_row (str : Struct) (rows : sql_Rows) (tr : trace) :
  rows_pending rows = [] →
  NextRow str rows tr
  = (Ok (Some (default ErrNoRows (rows_err rows)), str, advance rows), tr).
Proof.
  intros Hp. unfold NextRow, advance, rows_Next. rewrite Hp. simpl.
  unfold rows_Err. simpl. by destruct (rows_err rows).
Qed.

Lemma assign_cells_plain (vs : list value) : assign_cells (map inr vs) = inr vs.
Proof. induction vs as [|v vs IH]; [done|]. simpl. by rewrite IH. Qed.

Lemma assign_cells_fail (assigned : list value) (e : error) (later : list sql_cell) :
  assign_cells (map inr assigned ++ inl e :: later) = inl (e, assigned).
Proof. induction assigned as [|v vs IH]; [done|]. simpl. by rewrite IH. Qed.

Lemma assign_cells_inr (cells : list sql_cell) (vs : list value) :
  assign_cells cells = inr vs → cells = map inr vs.
Proof.
  revert vs. induction cells as [|[e|v] cells IH]; intros vs; simpl.
  - by intros [= <-].
  - done.
  - destruct (assign_cells cells) as [[e a]|vs']; [done|].
    intros [= <-]. simpl. by rewrite (IH vs').
Qed.

Lemma assign_cells_inl (cells : list sql_cell) (e : error) (assigned : list value) :
  assign_cells cells = inl (e, assigned) →
  ∃ later, cells = map inr assigned ++ inl e :: later.
Proof.
  revert assigned. induction cells as [|[e'|v] cells IH]; intros assigned; simpl.
  - done.
  - intros [= <- <-]. by exists cells.
  - destruct (assign_cells cells) as [[e' a]|vs']; [|done].
    intros [= <- <-]. destruct (IH a eq_refl) as [later ->]. by exists later.
Qed.

Lemma scan_row_inr (row : sql_row) (n : nat) (vs : list value) :
  scan_row row n = inr vs ↔ row = plain_row vs ∧ length vs = n.
Proof.
  unfold scan_row, plain_row. destruct row as [e|cells].
  - split; [done|]. by intros [? _].
  - destruct (decide (length cells = n)) as [Hn|Hn].
    + split.
      * intros H. apply assign_cells_inr in H as ->.
        by rewrite length_map in Hn.
      * intros [[= ->] _]. apply assign_cells_plain.
    + split; [done|]. intros [[= ->] ?]. by rewrite length_map in Hn.
Qed.

Lemma scan_row_plain (vs : list value) : scan_row (plain_row vs) (length vs) = inr vs.
Proof. by apply scan_row_inr. Qed.

(** A failing [Scan] has assigned fewer destinations than it was given. *)
Lemma scan_row_inl (row : sql_row) (n : nat) (e : error) (assigned : list value) :
  scan_row row n = inl (e, assigned) → assigned = [] ∨ (length assigned < n)%nat.
Proof.
  unfold scan_row. destruct row as [e'|cells]; [intros [= _ <-]; by left|].
  destruct (decide (length cells = n)) as [Hn|Hn]; [|intros [= _ <-]; by left].
  intros H. apply assign_cells_inl in H as [later ->]. right.
  rewrite length_app, length_map in Hn. simpl in Hn. lia.
Qed.

Lemma overwrite_nil (str : Struct) :
  {| sview := sview str; sfields := overwrite [] (sfields str) |} = str.
Proof. by destruct str. Qed.

Lemma NextRow_scan_error (str : Struct) (rows : sql_Rows) (tr : trace)
    (row : sql_row) (rest : list sql_row) (e : error) (assigned : list value) :
  rows_pending rows = row :: rest →
  scan_row row (length (sfields str)) = inl (e, assigned) →
  NextRow str rows tr
  = (Ok (Some e, {| sview := sview str; sfields := overwrite assigned (sfields str) |},
         advance rows), tr).
Proof.
  intros Hp Hscan. unfold NextRow, advance, rows_Next. rewrite Hp. simpl.
  unfold rows_Scan, Scan_Pointers. simpl. by rewrite Hscan.
Qed.

Lemma NextRow_row (str : Struct) (rows : sql_Rows) (tr : trace)
    (row : sql_row) (rest : list sql_row) (vs : list value) :
  rows_pending rows = row :: rest →
  scan_row row (length (sfields str)) = inr vs →
  NextRow str rows tr
  = (Ok ((materialize (sview str) vs).2, (materialize (sview str) vs).1,
         advance rows),
     tr ++ afterFind_events (sview str) [vs]).
Proof.
  intros Hp Hscan. unfold NextRow, advance, rows_Next. rewrite Hp. simpl.
  unfold rows_Scan, Scan_Pointers. simpl. rewrite Hscan. simpl.
  unfold afterFind, materialize, afterFind_events. simpl.
  destruct (vAfterFind (sview str)) as [af|]; simpl.
  - unfold call_hook. run. by destruct (af vs).
  - run. by rewrite app_nil_r.
Qed.

(** C9: without a next row [NextRow] returns the error of the cursor, or
    [ErrNoRows] when there is none.  With a next row whose [Scan] succeeds,
    the fields of the struct are the values of the row, in column order;
    then the [AfterFind] hook, if the struct has one, runs on these fields,
    the struct keeps them as the hook left them also when the hook fails,
    and the result of [NextRow] is the result of the hook.  When [Scan]
    fails at a column, its error is returned, no hook runs, and the fields
    before that column hold the values of the row while the others are as
    they were; when [Scan] fails before the first column (the row's own
    error, or a row of another width) the struct is as it was. *)
Theorem NextRow_contract (str : Struct) (rows : sql_Rows) (tr : trace) :
  (rows_pending rows = [] →
     NextRow str rows tr
     = (Ok (match rows_err rows with Some e => Some e | None => Some ErrNoRows end,
            str, advance rows), tr))
  ∧ (∀ vs rest,
       rows_pending rows = plain_row vs :: rest → length vs = length (sfields str) →
       match vAfterFind (sview str) with
       | None =>
           NextRow str rows tr
           = (Ok (None, {| sview := sview str; sfields := vs |}, advance rows), tr)
       | Some af =>
           NextRow str rows tr
           = (Ok ((af vs).2, {| sview := sview str; sfields := (af vs).1 |},
                  advance rows),
              tr ++ [EvAfterFind vs])
       end)
  ∧ (∀ assigned e later rest,
       rows_pending rows = inr (map inr assigned ++ inl e :: later) :: rest →
       length assigned + S (length later) = length (sfields str) →
       NextRow str rows tr
       = (Ok (Some e,
              {| sview := sview str;
                 sfields := assigned ++ drop (length assigned) (sfields str) |},
              advance rows), tr))
  ∧ (∀ e rest,
       rows_pending rows = inl e :: rest →
       NextRow str rows tr = (Ok (Some e, str, advance rows), tr))
  ∧ (∀ cells rest,
       rows_pending rows = inr cells :: rest → length cells ≠ length (sfields str) →
       ∃ e, NextRow str rows tr = (Ok (Some e, str, advance rows), tr)).
Proof.
  split; [|split; [|split; [|split]]].
  - intros Hp. rewrite NextRow_no_row by done. by destruct (rows_err rows).
  - intros vs rest Hp Hlen.
    assert (Hscan : scan_row (plain_row vs) (length (sfields str)) = inr vs)
      by by apply scan_row_inr.
    rewrite (NextRow_row str rows tr _ _ _ Hp Hscan).
    unfold materialize, afterFind_events.
    destruct (vAfterFind (sview str)); [done|]. by rewrite app_nil_r.
  - intros assigned e later rest Hp Hlen.
    apply (NextRow_scan_error str rows tr _ rest e assigned Hp).
    unfold scan_row. rewrite decide_True.
    + apply assign_cells_fail.
    + rewrite length_app, length_map. simpl. lia.
  - intros e rest Hp.
    rewrite (NextRow_scan_error str rows tr _ rest e [] Hp eq_refl).
    by rewrite overwrite_nil.
  - intros cells rest Hp Hlen. eexists.
    erewrite (NextRow_scan_error str rows tr _ rest _ [] Hp).
    + by rewrite overwrite_nil.
    + unfold scan_row. by rewrite decide_False.
Qed.

(** *** Select all *)

Lemma advance_pending (rows : sql_Rows) :
  rows_pending (advance rows) = tail (rows_pending rows).
Proof. unfold advance, rows_Next. by destruct (rows_pending rows). Qed.

Lemma advance_err (rows : sql_Rows) : rows_err (advance rows) = rows_err rows.
Proof. unfold advance, rows_Next. by destruct (rows_pending rows). Qed.

Lemma advance_closeErr (rows : sql_Rows) :
  rows_closeErr (advance rows) = rows_closeErr rows.
Proof. unfold advance, rows_Next. by destruct (rows_pending rows). Qed.

(** [NextRow] always returns; it succeeds only by consuming a row. *)
Lemma NextRow_returns (str : Struct) (rows : sql_Rows) (tr : trace) :
  ∃ err str' tr',
    NextRow str rows tr = (Ok (err, str', advance rows), tr')
    ∧ (err = None → rows_pending rows ≠ []).
Proof.
  destruct (rows_pending rows) as [|row rest] eqn:Hp.
  - rewrite NextRow_no_row by done. do 3 eexists. split; [done|].
    by destruct (rows_err rows).
  - destruct (scan_row row (length (sfields str))) as [[e assigned]|vs] eqn:Hscan.
    + rewrite (NextRow_scan_error _ _ _ _ _ _ _ Hp Hscan).
      do 3 eexists. split; [done|]. done.
    + rewrite (NextRow_row _ _ _ _ _ _ Hp Hscan).
      do 3 eexists. split; [done|]. done.
Qed.

(** The loop returns before its fuel is used up, never with [ErrNoRows],
    and leaves the error of [Close] as it was. *)
Lemma SelectAllFrom_loop_returns (fuel : nat) (view : View) (rows : sql_Rows)
    (structs : list Struct) (tr : trace) :
  (length (rows_pending rows) < fuel)%nat →
  ∃ structs' err rows' tr',
    SelectAllFrom_loop fuel view rows structs tr = (Ok (structs', err, rows'), tr')
    ∧ err ≠ Some ErrNoRows
    ∧ rows_closeErr rows' = rows_closeErr rows.
Proof.
  revert rows structs tr. induction fuel as [|fuel IH]; intros rows structs tr Hlt; [lia|].
  simpl. run.
  destruct (NextRow_returns (NewStruct view) rows tr) as (err & str' & tr' & -> & Hnone).
  destruct err as [e|].
  - do 4 eexists. split; [reflexivity|]. split; [|apply advance_closeErr].
    destruct (decide (e = ErrNoRows)); [done|]. congruence.
  - destruct (IH (advance rows) (structs ++ [str']) tr')
      as (structs' & err & rows' & tr'' & -> & Herr & Hclose).
    { rewrite advance_pending. specialize (Hnone eq_refl).
      destruct (rows_pending rows); simpl in *; [done|lia]. }
    do 4 eexists. split; [reflexivity|]. split; [done|].
    by rewrite Hclose, advance_closeErr.
Qed.

(** The loop over a run of valid rows. *)
Lemma SelectAllFrom_loop_valid (good : list (list value)) :
  ∀ (fuel : nat) (view : View) (rows : sql_Rows) (bad : list sql_row)
    (structs : list Struct) (tr : trace),
  rows_pending rows = map plain_row good ++ bad →
  Forall (valid_row view) good →
  ∃ rows',
    rows_pending rows' = bad
    ∧ rows_err rows' = rows_err rows
    ∧ rows_closeErr rows' = rows_closeErr rows
    ∧ SelectAllFrom_loop (length good + fuel) view rows structs tr
      = SelectAllFrom_loop fuel view rows'
          (structs ++ map (λ vs, (materialize view vs).1) good)
          (tr ++ afterFind_events view good).
Proof.
  induction good as [|vs good IH]; intros fuel view rows bad structs tr Hp Hvalid.
  - exists rows. simpl. rewrite app_nil_r.
    unfold afterFind_events. destruct (vAfterFind view); simpl; by rewrite app_nil_r.
  - apply Forall_cons in Hvalid as [[Hlen Hmat] Hvalid]. simpl in Hp.
    assert (Hscan : scan_row (plain_row vs) (length (sfields (NewStruct view))) = inr vs)
      by by apply scan_row_inr.
    destruct (IH fuel view (advance rows) bad
                (structs ++ [(materialize view vs).1])
                (tr ++ afterFind_events view [vs]))
      as (rows' & Hp' & Herr' & Hclose' & Hloop); [|done|].
    { by rewrite advance_pending, Hp. }
    exists rows'. rewrite Herr', Hclose', advance_err, advance_closeErr.
    split; [done|]. split; [done|]. split; [done|].
    change (length (vs :: good) + fuel)%nat with (S (length good + fuel)).
    pose proof (NextRow_row (NewStruct view) rows tr _ _ _ Hp Hscan) as Hnext.
    simpl SelectAllFrom_loop. unfold mbind, M_bind. rewrite Hnext.
    change (sview (NewStruct view)) with view. rewrite Hmat, Hloop.
    rewrite <- !app_assoc. f_equal.
    unfold afterFind_events. by destruct (vAfterFind view).
Qed.

Lemma SelectAllFrom_unfold (view : View) (tail : string) (args : list value) (tr : trace) :
  SelectAllFrom Expand q view tail args tr =
    let query := Expand (selectQuery q view tail false) (ToCol (vbase view)) in
    let tr1 := tr ++ [EvQuery query args] in
    match Query q tr query args with
    | inl err => (Ok ([], Some err), tr1)
    | inr rows =>
        match SelectAllFrom_loop (S (length (rows_pending rows))) view rows [] tr1 with
        | (Ok (structs, err, rows'), tr2) =>
            (Ok (structs, match err with
                          | None => rows_Close rows'
                          | Some _ => err
                          end), tr2)
        | (Panic msg, tr2) => (Panic msg, tr2)
        end
    end.
Proof.
  unfold SelectAllFrom, SelectRows, qQuery. unfold mbind, M_bind, mret, M_ret.
  destruct (Query q tr _ args) as [err|rows]; [done|].
  destruct (SelectAllFrom_loop _ view rows [] _) as [[[[structs err] rows']|msg] tr2]; done.
Qed.

(** C8: when the cursor yields the valid rows [good] and then fails with
    [e], either at [Next] or at [Scan] (before the first column or at a
    later one), [SelectAllFrom] returns exactly the structs materialized
    from [good], in order, together with [e].  It
    always returns, and never with [ErrNoRows], as long as neither [Query]
    nor [Close] reports that sentinel; an empty result is returned with a
    nil error. *)
Theorem SelectAllFrom_partial_result (view : View) (tail : string)
    (args : list value) (tr : trace) :
  (∀ rows good bad e,
     (∀ query, Query q tr query args = inr rows) →
     rows_pending rows = map plain_row good ++ bad →
     Forall (valid_row view) good →
     (bad = [] ∧ rows_err rows = Some e)
     ∨ (∃ row rest assigned,
          bad = row :: rest ∧ scan_row row (length (vzero view)) = inl (e, assigned)) →
     e ≠ ErrNoRows →
     (SelectAllFrom Expand q view tail args tr).1
     = Ok (map (λ vs, (materialize view vs).1) good, Some e))
  ∧ ((∀ query, Query q tr query args ≠ inl ErrNoRows) →
     (∀ query rows, Query q tr query args = inr rows →
                    rows_closeErr rows ≠ Some ErrNoRows) →
     ∃ structs err,
       (SelectAllFrom Expand q view tail args tr).1 = Ok (structs, err)
       ∧ err ≠ Some ErrNoRows)
  ∧ (∀ rows,
       (∀ query, Query q tr query args = inr rows) →
       rows_pending rows = [] → rows_err rows = None → rows_closeErr rows = None →
       (SelectAllFrom Expand q view tail args tr).1 = Ok ([], None)).
Proof.
  split; [|split].
  - intros rows good bad e Hq Hp Hvalid Hfail He.
    rewrite SelectAllFrom_unfold. cbv zeta. rewrite Hq.
    destruct (SelectAllFrom_loop_valid good (S (length bad)) view rows bad []
                (tr ++ [EvQuery (Expand (selectQuery q view tail false)
                                   (ToCol (vbase view))) args]) Hp Hvalid)
      as (rows' & Hp' & Herr' & _ & Hloop).
    replace (S (length (rows_pending rows))) with (length good + S (length bad))%nat
      by (rewrite Hp, length_app, length_map; lia).
    rewrite Hloop. simpl SelectAllFrom_loop. unfold mbind, M_bind.
    destruct Hfail as [[-> Herr]|(row & rest & assigned & -> & Hscan)].
    + rewrite NextRow_no_row by done. rewrite Herr', Herr. simpl.
      unfold mret, M_ret. by destruct (decide (e = ErrNoRows)).
    + rewrite (NextRow_scan_error _ _ _ row rest e assigned) by done. simpl.
      unfold mret, M_ret. by destruct (decide (e = ErrNoRows)).
  - intros Hq Hclose. rewrite SelectAllFrom_unfold. cbv zeta.
    destruct (Query q tr _ args) as [err|rows] eqn:HQ.
    + do 2 eexists. split; [reflexivity|]. intros [= ->]. by eapply Hq.
    + destruct (SelectAllFrom_loop_returns (S (length (rows_pending rows))) view rows []
                  (tr ++ [EvQuery (Expand (selectQuery q view tail false)
                                     (ToCol (vbase view))) args]))
        as (structs & err & rows' & tr' & -> & Herr & Hc); [lia|].
      do 2 eexists. split; [reflexivity|].
      destruct err; [done|]. unfold rows_Close. rewrite Hc. by eapply Hclose.
  - intros rows Hq Hp Herr Hclose.
    rewrite SelectAllFrom_unfold. cbv zeta. rewrite Hq, Hp.
    simpl SelectAllFrom_loop. unfold mbind, M_bind.
    rewrite NextRow_no_row by done. rewrite Herr. simpl.
    unfold rows_Close. by rewrite advance_closeErr, Hclose.
Qed.

(** *** Column/value filter *)

(** The filter on a well-formed record: the outcome of its pass. *)
Lemma filter_cases (record : Struct) (columnsIn : list string) (isUpdate : bool) :
  wf_record record →
  ∃ idx columns values err,
    selected_at idx (Columns (sview record)) (Values record) columns values
    ∧ NoDup columns
    ∧ (∀ c, c ∈ columns → c ∈ requested_set (ToCol (vbase (sview record))) columnsIn)
    ∧ match err with
      | Some e =>
          isUpdate = true ∧ pk_requested record columnsIn
          ∧ filteredColumnsAndValues range_order record columnsIn isUpdate
            = Ok (columns, values, Some e)
      | None =>
          (∀ c, c ∈ columns
                ↔ c ∈ requested_set (ToCol (vbase (sview record))) columnsIn
                  ∧ c ∈ Columns (sview record))
          ∧ filteredColumnsAndValues range_order record columnsIn isUpdate
            = if decide (unmatched record columnsIn = ∅)
              then Ok (columns, values, None)
              else Ok (range_order (unmatched record columnsIn), values,
                       Some (Errorf ("reform: unexpected columns: "
                                     +:+ fmt_v (range_order (unmatched record columnsIn)))))
      end.
Proof.
  intros (pk & Hpk & Hlt & Hlen).
  unfold filteredColumnsAndValues. rewrite Hpk.
  set (set := requested_set (ToCol (vbase (sview record))) columnsIn).
  destruct (filter_pass_ok isUpdate pk (Values record) (Columns (sview record))
              0 set [] []) as [[[[set' columns] values] err] Hrun].
  { unfold Values. simpl. lia. }
  rewrite Hrun.
  destruct (filter_pass_spec isUpdate pk (Values record) (Columns (sview record))
              (Columns (sview record)) [] set [] [] set' columns values err eq_refl Hrun)
    as (idx & cs & vs & Hcs & Hvs & Hsel & _ & Hnd & Hsub & Hnone & Hsome).
  simpl in Hcs, Hvs. subst cs vs.
  exists idx, columns, values, err.
  split; [done|]. split; [done|]. split; [done|].
  destruct err as [e|].
  - destruct (Hsome e eq_refl) as (Hup & c & Hc & Hin & ->).
    split; [done|]. split; [|done]. by exists pk, c.
  - destruct (Hnone eq_refl) as [-> Hiff]. split; [done|].
    change (set ∖ list_to_set (Columns (sview record)))
      with (unmatched record columnsIn).
    destruct (decide (unmatched record columnsIn = ∅)) as [Hempty|Hne].
    + rewrite Hempty. rewrite size_empty.
      destruct (decide (0 < 0)%nat); [lia|done].
    + destruct (decide (0 < size (unmatched record columnsIn))%nat) as [|Hsz]; [done|].
      exfalso. apply Hne. apply leibniz_equiv, size_empty_iff. lia.
Qed.

(** *** Hooks *)

Lemma call_hook_run (h : hook) (ev : list value → event) (str : Struct) (tr : trace) :
  call_hook h ev str tr
  = (Ok ((h (sfields str)).2, {| sview := sview str; sfields := (h (sfields str)).1 |}),
     tr ++ [ev (sfields str)]).
Proof. unfold call_hook. run. by destruct (h (sfields str)). Qed.

Lemma no_sql_since_refl (tr : trace) : no_sql_since tr tr.
Proof. exists []. by rewrite app_nil_r. Qed.

Lemma no_sql_since_hook (tr : trace) (e : event) :
  is_sql e = false → no_sql_since tr (tr ++ [e]).
Proof. intros He. exists [e]. split; [done|]. by repeat constructor. Qed.

Lemma wf_record_fields (record : Struct) (fs : list value) :
  wf_record record → length fs = length (sfields record) →
  wf_record {| sview := sview record; sfields := fs |}.
Proof.
  intros (pk & Hpk & Hlt & Hlen) Hfs. exists pk. simpl. by rewrite Hfs.
Qed.

Lemma beforeInsert_cases (record : Struct) (tr : trace) :
  ∃ err record1 tr1,
    beforeInsert record tr = (Ok (err, record1), tr1)
    ∧ sview record1 = sview record
    ∧ no_sql_since tr tr1
    ∧ (wf_hooks (sview record) → wf_record record → wf_record record1).
Proof.
  unfold beforeInsert. destruct (vBeforeInsert (sview record)) as [bi|] eqn:Hbi.
  - rewrite call_hook_run. do 3 eexists. split; [reflexivity|].
    split; [done|]. split; [by apply no_sql_since_hook|].
    intros Hh Hwf. apply wf_record_fields; [done|]. apply Hh. by left.
  - do 3 eexists. split; [reflexivity|]. split; [done|].
    split; [apply no_sql_since_refl|done].
Qed.

Lemma beforeUpdate_cases (record : Struct) (tr : trace) :
  ∃ err record1 tr1,
    beforeUpdate record tr = (Ok (err, record1), tr1)
    ∧ sview record1 = sview record
    ∧ no_sql_since tr tr1
    ∧ (wf_hooks (sview record) → wf_record record → wf_record record1).
Proof.
  unfold beforeUpdate. destruct (negb (HasPK record)).
  { do 3 eexists. split; [reflexivity|]. split; [done|].
    split; [apply no_sql_since_refl|done]. }
  destruct (vBeforeUpdate (sview record)) as [bu|] eqn:Hbu.
  - rewrite call_hook_run. do 3 eexists. split; [reflexivity|].
    split; [done|]. split; [by apply no_sql_since_hook|].
    intros Hh Hwf. apply wf_record_fields; [done|]. apply Hh. right. by left.
  - do 3 eexists. split; [reflexivity|]. split; [done|].
    split; [apply no_sql_since_refl|done].
Qed.

Lemma unmatched_view (record record1 : Struct) (columnsIn : list string) :
  sview record1 = sview record →
  unmatched record1 columnsIn = unmatched record columnsIn.
Proof. intros Hv. unfold unmatched. by rewrite Hv. Qed.

Lemma pk_requested_view (record record1 : Struct) (columnsIn : list string) :
  sview record1 = sview record →
  pk_requested record1 columnsIn → pk_requested record columnsIn.
Proof. intros Hv. unfold pk_requested. by rewrite Hv. Qed.

(** The filter fails whenever a requested name is unmatched, and names
    the unmatched columns unless it stopped at the primary key. *)
Lemma filter_unmatched (record : Struct) (columnsIn : list string) (isUpdate : bool) :
  wf_record record →
  unmatched record columnsIn ≠ ∅ →
  ∃ columns values e,
    filteredColumnsAndValues range_order record columnsIn isUpdate
    = Ok (columns, values, Some e)
    ∧ ((isUpdate = false ∨ ¬ pk_requested record columnsIn) →
       columns = range_order (unmatched record columnsIn)
       ∧ e = Errorf ("reform: unexpected columns: " +:+ fmt_v columns)).
Proof.
  intros Hwf Hne.
  destruct (filter_cases record columnsIn isUpdate Hwf)
    as (idx & columns & values & err & _ & _ & _ & Herr).
  destruct err as [e|].
  - destruct Herr as (Hup & Hpk & ->). do 3 eexists. split; [reflexivity|].
    intros [Hf|Hnpk]; [congruence|done].
  - destruct Herr as (_ & ->).
    destruct (decide (unmatched record columnsIn = ∅)); [done|].
    do 3 eexists. split; [reflexivity|]. done.
Qed.

(** C7, as amended: when some requested name matches no column, the filter
    fails; in insert mode, and in update mode when the primary-key column is
    not requested, its error names every unmatched column, each once (in
    update mode a requested primary-key column is reported instead).
    [InsertColumns] and [UpdateColumns] then fail without any call on the
    connection, and with that error once their own checks before the filter
    (primary key set, pre-hook) have passed. *)
Theorem unexpected_columns_rejected (record : Struct) (columnsIn : list string)
    (tr : trace) :
  (∀ s, range_order s ≡ₚ elements s) →
  wf_record record → wf_hooks (sview record) →
  unmatched record columnsIn ≠ ∅ →
  (∀ isUpdate, ∃ columns values e,
     filteredColumnsAndValues range_order record columnsIn isUpdate
     = Ok (columns, values, Some e)
     ∧ ((isUpdate = false ∨ ¬ pk_requested record columnsIn) →
        names_columns (Some e) (unmatched record columnsIn)))
  ∧ (∃ e record1 tr1,
       InsertColumns range_order Expand q record columnsIn tr
       = (Ok (Some e, record1), tr1)
       ∧ no_sql_since tr tr1
       ∧ ((beforeInsert record tr).1 = Ok (None, record1) →
          names_columns (Some e) (unmatched record columnsIn)))
  ∧ (∃ e record1 tr1,
       UpdateColumns range_order Expand q record columnsIn tr
       = (Ok (Some e, record1), tr1)
       ∧ no_sql_since tr tr1
       ∧ ((beforeUpdate record tr).1 = Ok (None, record1) →
          ¬ pk_requested record columnsIn →
          names_columns (Some e) (unmatched record columnsIn))).
Proof.
  intros Hperm Hwf Hhooks Hne.
  assert (Hfilter : ∀ record1 isUpdate,
    sview record1 = sview record → wf_record record1 →
    ∃ columns values e,
      filteredColumnsAndValues range_order record1 columnsIn isUpdate
      = Ok (columns, values, Some e)
      ∧ ((isUpdate = false ∨ ¬ pk_requested record columnsIn) →
         names_columns (Some e) (unmatched record columnsIn))).
  { intros record1 isUpdate Hv Hwf1.
    destruct (filter_unmatched record1 columnsIn isUpdate Hwf1)
      as (columns & values & e & Hrun & Hnames).
    { by rewrite (unmatched_view _ _ _ Hv). }
    exists columns, values, e. split; [done|]. intros Hcase.
    destruct Hnames as [-> ->].
    { destruct Hcase as [?|Hn]; [by left|right].
      intros Hp. apply Hn. by eapply pk_requested_view. }
    rewrite (unmatched_view _ _ _ Hv). eexists. split; [reflexivity|]. apply Hperm. }
  split; [|split].
  - intros isUpdate. by apply Hfilter.
  - unfold InsertColumns. destruct Hwf as (pk & Hpk & Hlt & Hlen). rewrite Hpk.
    destruct (beforeInsert_cases record tr)
      as (err & record1 & tr1 & Hbi & Hv & Hsql & Hwf1).
    unfold mbind, M_bind. rewrite Hbi. destruct err as [e0|].
    + exists e0, record1, tr1. split; [done|]. split; [done|]. done.
    + destruct (Hfilter record1 false Hv) as (columns & values & e & Hrun & Hnames).
      { apply Hwf1; [done|]. by exists pk. }
      unfold lift. rewrite Hrun. exists e, record1, tr1.
      split; [done|]. split; [done|]. intros _. apply Hnames. by left.
  - unfold UpdateColumns.
    destruct (beforeUpdate_cases record tr)
      as (err & record1 & tr1 & Hbu & Hv & Hsql & Hwf1).
    unfold mbind, M_bind. rewrite Hbu. destruct err as [e0|].
    + exists e0, record1, tr1. split; [done|]. split; [done|]. done.
    + destruct (Hfilter record1 true Hv) as (columns & values & e & Hrun & Hnames).
      { by apply Hwf1. }
      unfold lift. rewrite Hrun. exists e, record1, tr1.
      split; [done|]. split; [done|]. intros _ Hnpk. apply Hnames. by right.
Qed.

(** *** Insert *)

(** With one destination a failing [Scan] has assigned nothing. *)
Lemma Scan_PKPointer_spec (row : sql_row) (record : Struct) :
  Scan_PKPointer row record
  = match scan_row row 1 with
    | inl (e, _) => (Some e, record)
    | inr vs => (None, SetPK record (default VNil (head vs)))
    end.
Proof.
  unfold Scan_PKPointer.
  destruct (scan_row row 1) as [[e assigned]|vs] eqn:Hscan; [|done].
  apply scan_row_inl in Hscan as [->|Hlt]; [done|].
  destruct assigned; [done|simpl in Hlt; lia].
Qed.

(** [insert] on a record: one statement, and the reported key, if any,
    written to the primary-key field. *)
Lemma insert_record (record : Struct) (columns : list string)
    (values : list value) (tr : trace) :
  wf_record record →
  ∃ query,
    insert Expand q record columns values tr
    = (Ok (match reported_key q tr query values with
           | inl e => (Some e, record)
           | inr v => (None, SetPK record v)
           end),
       tr ++ [insert_event q query values]).
Proof.
  intros (pk & Hpk & Hlt & _). destruct (index_ok _ _ Hlt) as (c & _ & Hc).
  unfold insert, reported_key, insert_event. rewrite Hpk.
  destruct (lastInsertIdMethod q); run; rewrite ?Hc; simpl.
  - unfold qExec.
    match goal with |- context [Exec _ tr ?Q values] => exists Q end.
    destruct (Exec q tr _ values) as [e|r]; [reflexivity|].
    destruct (resLastInsertId r); reflexivity.
  - unfold qQueryRow. rewrite Scan_PKPointer_spec.
    match goal with |- context [QueryRow _ tr ?Q values] => exists Q end.
    by destruct (scan_row _ 1) as [[e assigned]|vs].
  - unfold qQueryRow. rewrite Scan_PKPointer_spec.
    match goal with |- context [QueryRow _ tr ?Q values] => exists Q end.
    by destruct (scan_row _ 1) as [[e assigned]|vs].
Qed.





(** *** InsertMulti *)

Lemma run_hooks_run (structs : list Struct) :
  ∀ (err : option error) (tr : trace),
  run_hooks structs err tr
  = (Ok (first_error err (map (λ s, (after_BeforeInsert s).2) structs),
         map (λ s, (after_BeforeInsert s).1) structs),
     tr ++ BeforeInsert_events structs).
Proof.
  induction structs as [|str rest IH]; intros err tr.
  - simpl. unfold mret, M_ret. by rewrite app_nil_r.
  - simpl. unfold after_BeforeInsert at 1 3, BeforeInsert_events. simpl.
    destruct (vBeforeInsert (sview str)) as [bi|]; unfold mbind, M_bind.
    + rewrite call_hook_run. simpl. rewrite IH. unfold mret, M_ret.
      rewrite <- app_assoc. done.
    + rewrite IH. unfold mret, M_ret. simpl. by destruct err.
Qed.

Lemma first_error_None (es : list (option error)) :
  Forall (λ e, e = None) es → first_error None es = None.
Proof.
  induction 1 as [|e es -> _ IH]; [done|]. exact IH.
Qed.

Lemma same_view_data (a b : View) : same_view a b = true → vinfo a = vinfo b.
Proof.
  unfold same_view. intros H. apply andb_true_iff in H as [_ H].
  by apply bool_decide_eq_true in H.
Qed.

Lemma same_view_refl (view : View) : same_view view view = true.
Proof. unfold same_view. by rewrite !bool_decide_eq_true_2. Qed.

(** Structs that share the view object pass the first loop. *)
Lemma check_views_same (view : View) (structs : list Struct) :
  Forall (λ s, sview s = view) structs → check_views view structs = None.
Proof.
  induction 1 as [|str rest Hstr _ IH]; [done|].
  simpl. by rewrite Hstr, same_view_refl.
Qed.

Lemma check_views_None (view : View) (structs : list Struct) :
  check_views view structs = None →
  Forall (λ s, vinfo (sview s) = vinfo view) structs.
Proof.
  induction structs as [|str rest IH]; simpl; [by constructor|].
  destruct (same_view (sview str) view) eqn:Hsame; [|done].
  intros H. constructor; [by apply same_view_data|by apply IH].
Qed.

Lemma check_pks_mixed (record : Struct) (structs : list Struct) :
  Forall (λ s, isRecord s = true) structs →
  Exists (λ s, HasPK s ≠ HasPK record) structs →
  ∃ msg, check_pks record structs = Ok (Some (Errorf msg)).
Proof.
  intros Hrec Hmixed. induction structs as [|rec rest IH]; [by inversion Hmixed|].
  apply Forall_cons in Hrec as [Hrec Hrest]. simpl.
  unfold isRecord in Hrec. destruct (PKColumnIndex (sview rec)); [|done].
  destruct (decide (HasPK record = HasPK rec)) as [Heq|Hne].
  - rewrite bool_decide_eq_true_2 by done. apply IH; [done|].
    apply Exists_cons in Hmixed as [Hm|Hm]; [congruence|done].
  - rewrite bool_decide_eq_false_2 by done. eauto.
Qed.

(** C2, as amended: for a non-empty batch of records that share one view
    object, [InsertMulti] first runs the [BeforeInsert] hook of every
    record, in input order; when all hooks succeed and, after them, some
    record differs from the first one in having its primary key set, it
    fails with a validation error before any call on the connection. *)
Theorem InsertMulti_mixed_keys (first : Struct) (rest : list Struct) (tr : trace) :
  let structs := first :: rest in
  let structs' := map (λ s, (after_BeforeInsert s).1) structs in
  Forall (λ s, sview s = sview first) rest →
  isRecord first = true →
  Forall (λ s, (after_BeforeInsert s).2 = None) structs →
  Exists (λ s, HasPK s ≠ HasPK (after_BeforeInsert first).1) structs' →
  ∃ msg,
    InsertMulti Expand q structs tr
    = (Ok (Some (Errorf msg), structs'), tr ++ BeforeInsert_events structs).
Proof.
  intros structs structs' Hsame Hrec Hhooks Hmixed.
  assert (Hviews : check_views (sview first) structs = None)
    by (apply check_views_same; by constructor).
  subst structs' structs. unfold InsertMulti. rewrite Hviews.
  unfold mbind at 1, M_bind at 1. rewrite run_hooks_run.
  rewrite first_error_None by by apply Forall_fmap.
  set (structs := first :: rest) in *.
  set (structs' := map (λ s, (after_BeforeInsert s).1) structs) in *.
  assert (Hrecs : Forall (λ s, isRecord s = true) structs').
  { apply Forall_fmap. apply check_views_None in Hviews.
    eapply Forall_impl; [exact Hviews|]. intros s Hs. simpl.
    unfold isRecord in *. unfold after_BeforeInsert.
    destruct (vBeforeInsert (sview s)); simpl; by rewrite Hs. }
  unfold isRecord in Hrec.
  destruct (PKColumnIndex (sview first)) as [pk|] eqn:Hpk; [|done].
  change (head structs') with (Some (after_BeforeInsert first).1).
  destruct (check_pks_mixed _ _ Hrecs Hmixed) as [msg Hmsg].
  exists msg. unfold mbind, M_bind, lift. by rewrite Hmsg.
Qed.



(** *** The filter in memory *)

Lemma filter_refines (record : Struct) (pk : nat) (m : Mem.mem)
    (allColumns allValues columnsIn : Mem.slice) (isUpdate : bool) :
  PKColumnIndex (sview record) = Some pk →
  Mem.valid (Mem.strs m) allColumns →
  Mem.contents (Mem.strs m) allColumns = Columns (sview record) →
  Mem.valid (Mem.vals m) allValues →
  Mem.contents (Mem.vals m) allValues = Values record →
  match filteredColumnsAndValues range_order record
          (Mem.contents (Mem.strs m) columnsIn) isUpdate with
  | Panic msg =>
      Mem.filteredColumnsAndValues range_order (ToCol (vbase (sview record))) pk
        allColumns allValues columnsIn isUpdate m = Panic msg
  | Ok (cols, vals, err) =>
      ∃ columns values m',
        Mem.filteredColumnsAndValues range_order (ToCol (vbase (sview record))) pk
          allColumns allValues columnsIn isUpdate m = Ok (columns, values, err, m')
        ∧ Mem.preserved (length (Mem.strs m)) (Mem.strs m) (Mem.strs m')
        ∧ Mem.preserved (length (Mem.vals m)) (Mem.vals m) (Mem.vals m')
        ∧ Mem.contents (Mem.strs m') columns = cols
        ∧ Mem.contents (Mem.vals m') values = vals
  end.
Proof.
  intros Hpk HvC HcC HvV HcV.
  unfold filteredColumnsAndValues, Mem.filteredColumnsAndValues. rewrite Hpk.
  set (set := requested_set (ToCol (vbase (sview record)))
                (Mem.contents (Mem.strs m) columnsIn)).
  pose proof (make_spec EmptyString (Mem.strs m) (size set)) as Hmk.
  destruct (Mem.make EmptyString (Mem.strs m) (size set)) as [hs columns0].
  destruct Hmk as (Hv1 & Ha1 & _ & Hc1 & Hl1 & Hp1).
  pose proof (make_spec VNil (Mem.vals m) (Mem.len columns0)) as Hmk.
  destruct (Mem.make VNil (Mem.vals m) (Mem.len columns0)) as [hv values0].
  destruct Hmk as (Hv2 & Ha2 & _ & Hc2 & _ & Hp2).
  pose proof (pass_refines isUpdate pk m allColumns allValues HvC HvV
                (Columns (sview record)) 0 {| Mem.strs := hs; Mem.vals := hv |}
                set columns0 values0 [] []) as Hpass.
  rewrite HcV in Hpass. rewrite <- (contents_length _ _ HvC), HcC.
  specialize (Hpass ltac:(by rewrite HcC)).
  specialize (Hpass ltac:(by repeat split; simpl; try done; lia)).
  destruct (filter_pass isUpdate pk (Values record) 0 (Columns (sview record))
              set [] []) as [[[[set' cols] vals] err]|msg]; [|by rewrite Hpass].
  destruct Hpass as (m' & columns & values & -> & Hps & Hpv & Hvc & Hnc & Hcc & Hvv & Hnv & Hcv).
  destruct err as [e|].
  { by exists columns, values, m'. }
  destruct (decide (0 < size set')%nat); [|by exists columns, values, m'].
  pose proof (make_spec EmptyString (Mem.strs m') (size set')) as Hmk.
  destruct (Mem.make EmptyString (Mem.strs m') (size set')) as [hs1 columns1].
  destruct Hmk as (Hv3 & Ha3 & _ & Hc3 & _ & Hp3).
  assert (Hlen : (length (Mem.strs m) ≤ length (Mem.strs m'))%nat).
  { apply valid_lt in Hvc. lia. }
  destruct (collect_spec (length (Mem.strs m)) (range_order set') hs1 columns1 Hv3)
    as (Hv4 & Hc4 & Hp4); [lia|].
  destruct (Mem.collect hs1 columns1 (range_order set')) as [hs2 columns2].
  simpl in *. rewrite Hc3 in Hc4. simpl in Hc4.
  exists columns2, values, {| Mem.strs := hs2; Mem.vals := Mem.vals m' |}.
  rewrite Hc4. split; [done|]. split; [|done].
  eapply preserved_trans; [exact Hps|]. eapply preserved_trans; [|exact Hp4].
  intros a Ha. apply Hp3. lia.
Qed.


(** C6: the columns and values that the filter returns as its result are
    taken at the same, strictly increasing, positions of the table's columns
    and of the record's values, so they are aligned and in table order
    whatever the order of the request; no column is returned twice, and the
    columns returned are exactly the requested names that are columns of the
    table.  Run on slices in memory, the filter returns its columns and
    values in arrays of its own and leaves every array that existed before
    the call as it was: those of the record's columns and values and that
    of the request. *)
Theorem filter_selects_without_mutation (record : Struct) (pk : nat) (m : Mem.mem)
    (allColumns allValues columnsIn : Mem.slice) (isUpdate : bool) :
  wf_record record → PKColumnIndex (sview record) = Some pk →
  Mem.valid (Mem.strs m) allColumns →
  Mem.contents (Mem.strs m) allColumns = Columns (sview record) →
  Mem.valid (Mem.vals m) allValues →
  Mem.contents (Mem.vals m) allValues = Values record →
  ∃ columns values err m',
    Mem.filteredColumnsAndValues range_order (ToCol (vbase (sview record))) pk
      allColumns allValues columnsIn isUpdate m = Ok (columns, values, err, m')
    ∧ filteredColumnsAndValues range_order record
        (Mem.contents (Mem.strs m) columnsIn) isUpdate
      = Ok (Mem.contents (Mem.strs m') columns, Mem.contents (Mem.vals m') values, err)
    ∧ Mem.preserved (length (Mem.strs m)) (Mem.strs m) (Mem.strs m')
    ∧ Mem.preserved (length (Mem.vals m)) (Mem.vals m) (Mem.vals m')
    ∧ (err = None →
       ∃ idx,
         selected_at idx (Columns (sview record)) (Values record)
           (Mem.contents (Mem.strs m') columns) (Mem.contents (Mem.vals m') values)
         ∧ NoDup (Mem.contents (Mem.strs m') columns)
         ∧ ∀ c, c ∈ Mem.contents (Mem.strs m') columns
                ↔ c ∈ requested_set (ToCol (vbase (sview record)))
                        (Mem.contents (Mem.strs m) columnsIn)
                  ∧ c ∈ Columns (sview record)).
Proof.
  intros Hwf Hpk HvC HcC HvV HcV.
  pose proof (filter_refines record pk m allColumns allValues columnsIn isUpdate
                Hpk HvC HcC HvV HcV) as Href.
  destruct (filter_cases record (Mem.contents (Mem.strs m) columnsIn) isUpdate Hwf)
    as (idx & cols & vals & err & Hsel & Hnd & _ & Herr).
  destruct err as [e|].
  - destruct Herr as (_ & _ & Hrun). rewrite Hrun in Href.
    destruct Href as (columns & values & m' & Hmem & Hps & Hpv & Hcc & Hcv).
    exists columns, values, (Some e), m'. rewrite Hcc, Hcv. done.
  - destruct Herr as (Hiff & Hrun). rewrite Hrun in Href.
    destruct (decide (unmatched record (Mem.contents (Mem.strs m) columnsIn) = ∅)).
    + destruct Href as (columns & values & m' & Hmem & Hps & Hpv & Hcc & Hcv).
      exists columns, values, None, m'. rewrite Hcc, Hcv, Hrun.
      split; [done|]. split; [done|]. split; [done|]. split; [done|].
      intros _. by exists idx.
    + destruct Href as (columns & values & m' & Hmem & Hps & Hpv & Hcc & Hcv).
      eexists columns, values, _, m'. rewrite Hcc, Hcv, Hrun.
      split; [done|]. split; [done|]. split; [done|]. split; [done|]. done.
Qed.

End Properties.

(** ** The statements on the sample table *)

Import Fixture.

Lemma wf_dialect_mssql : wf_dialect mssql.Dialect.
Proof. intros start count. apply length_replicate. Qed.

Lemma wf_dialect_postgresql : wf_dialect postgresql.Dialect.
Proof.
  intros start count. simpl. unfold postgresql.Placeholders.
  by rewrite length_map, length_seq.
Qed.

Lemma wf_dialect_lastid : wf_dialect lastid_dialect.
Proof. intros start count. apply length_replicate. Qed.

Lemma wf_record_person (view : View) (id : Z) (name : string) (age : Z) :
  vinfo view = person_info → wf_record (person view id name age).
Proof. intros Hv. exists 0%nat. simpl. rewrite Hv. simpl. repeat split; lia. Qed.

Lemma wf_hooks_PersonTable : wf_hooks PersonTable.
Proof. intros h [H|[H|H]]; discriminate H. Qed.



(** A batch of Ann, stored, and Bob, not stored, both with a hook. *)
Lemma InsertMulti_mixed_keys_witness :
  ∃ msg,
    InsertMulti expand_plain (querier mssql.Dialect (stub_db 1 7))
      [ann_hooked; bob_hooked] []
    = (Ok (Some (Errorf msg), [ann_hooked; bob_hooked]),
       [EvBeforeInsert (sfields ann_hooked); EvBeforeInsert (sfields bob_hooked)]).
Proof.
  apply (InsertMulti_mixed_keys expand_plain (querier mssql.Dialect (stub_db 1 7))
           ann_hooked [bob_hooked] []).
  - repeat constructor.
  - reflexivity.
  - repeat constructor.
  - apply Exists_cons_tl, Exists_cons_hd. vm_compute. discriminate.
Defined.

(** C2 as first stated fails: the hooks of both records have run when the
    batch is rejected. *)
Lemma rejected_before_hooks_counterexample :
  HasPK ann_hooked = true ∧ HasPK bob_hooked = false
  ∧ ¬ rejected_before_hooks expand_plain (querier mssql.Dialect (stub_db 1 7))
        [ann_hooked; bob_hooked].
Proof.
  split; [reflexivity|]. split; [reflexivity|].
  intros H. destruct (H []) as [msg Hmsg].
  vm_compute in Hmsg. discriminate Hmsg.
Qed.

(** Bob, who has no key, is updated, deleted and reloaded. *)
Lemma missing_key_checked_before_sql_witness :
  HasPK bob = false
  ∧ Update expand_plain (querier mssql.Dialect empty_db) bob []
    = (Ok (Some ErrNoPK, bob), [])
  ∧ UpdateColumns range_sorted expand_plain (querier mssql.Dialect empty_db) bob ["name"] []
    = (Ok (Some ErrNoPK, bob), [])
  ∧ Delete expand_plain (querier mssql.Dialect empty_db) bob [] = (Ok (Some ErrNoPK), [])
  ∧ (wf_record bob →
     ∃ query args rest,
       (Reload expand_plain (querier mssql.Dialect empty_db) bob []).2
       = [] ++ EvQueryRow query args :: rest).
Proof.
  split; [reflexivity|].
  apply (missing_key_checked_before_sql range_sorted expand_plain
           (querier mssql.Dialect empty_db) bob ["name"] []).
  reflexivity.
Defined.

(** C3 as first stated fails for [Reload]: for Bob it sends a SELECT by
    the zero key and returns what the connection answers. *)
Lemma reports_missing_key_counterexample :
  ¬ reports_missing_key (Reload expand_plain (querier mssql.Dialect empty_db)) bob.
Proof.
  intros H. specialize (H eq_refl []). vm_compute in H. discriminate H.
Qed.

(** Ann is updated and deleted on an empty table. *)
Lemma rows_affected_postcondition_witness :
  (update expand_plain (querier mssql.Dialect (stub_db 0 7)) ann
     ["name"; "age"] [VStr "ann"; VInt 30] []).1 = Ok (Some ErrNoRows)
  ∧ (Delete expand_plain (querier mssql.Dialect (stub_db 0 7)) ann []).1
    = Ok (Some ErrNoRows).
Proof.
  destruct (rows_affected_postcondition expand_plain
              (querier mssql.Dialect (stub_db 0 7)) ann
              ["name"; "age"] [VStr "ann"; VInt 30] []
              {| resLastInsertId := inr 7%Z; resRowsAffected := inr 0%Z |} 0%Z)
    as (Hzero & _).
  - exact wf_dialect_mssql.
  - by apply wf_record_person.
  - reflexivity.
  - intros query args. reflexivity.
  - reflexivity.
  - apply Hzero. reflexivity.
Defined.

(** The filter on Ann's columns and values in memory, for the request
    [$Name], [age], [name]. *)
Lemma filter_selects_without_mutation_witness :
  ∃ columns values err m',
    Mem.filteredColumnsAndValues range_sorted (ToCol (vbase (sview ann))) 0
      (whole 0) (whole 0) (whole 1) false memory = Ok (columns, values, err, m')
    ∧ filteredColumnsAndValues range_sorted ann
        (Mem.contents (Mem.strs memory) (whole 1)) false
      = Ok (Mem.contents (Mem.strs m') columns, Mem.contents (Mem.vals m') values, err)
    ∧ Mem.preserved (length (Mem.strs memory)) (Mem.strs memory) (Mem.strs m')
    ∧ Mem.preserved (length (Mem.vals memory)) (Mem.vals memory) (Mem.vals m')
    ∧ (err = None →
       ∃ idx,
         selected_at idx (Columns (sview ann)) (Values ann)
           (Mem.contents (Mem.strs m') columns) (Mem.contents (Mem.vals m') values)
         ∧ NoDup (Mem.contents (Mem.strs m') columns)
         ∧ ∀ c, c ∈ Mem.contents (Mem.strs m') columns
                ↔ c ∈ requested_set (ToCol (vbase (sview ann)))
                        (Mem.contents (Mem.strs memory) (whole 1))
                  ∧ c ∈ Columns (sview ann)).
Proof.
  apply (filter_selects_without_mutation range_sorted ann 0 memory
           (whole 0) (whole 0) (whole 1) false).
  - by apply wf_record_person.
  - reflexivity.
  - exists ["id"; "name"; "age"]. simpl. repeat split; lia.
  - reflexivity.
  - exists [VInt 5; VStr "ann"; VInt 30]. simpl. repeat split; lia.
  - reflexivity.
Defined.

Lemma unmatched_bogus (record : Struct) :
  sview record = PersonTable →
  unmatched record ["id"; "bogus"] ≠ ∅.
Proof.
  intros Hv Hempty.
  assert (Hsize : size (unmatched record ["id"; "bogus"]) = 0%nat)
    by (rewrite Hempty; apply size_empty).
  unfold unmatched in Hsize. rewrite Hv in Hsize. vm_compute in Hsize. discriminate Hsize.
Qed.

(** Ann is inserted and updated with a request for the unknown column
    [bogus]. *)
Lemma unexpected_columns_rejected_witness :
  ∃ e record1 tr1,
    InsertColumns range_sorted expand_plain (querier mssql.Dialect (stub_db 1 7))
      ann ["id"; "bogus"] [] = (Ok (Some e, record1), tr1)
    ∧ no_sql_since [] tr1
    ∧ ((beforeInsert ann []).1 = Ok (None, record1) →
       names_columns (Some e) (unmatched ann ["id"; "bogus"])).
Proof.
  destruct (unexpected_columns_rejected range_sorted expand_plain
              (querier mssql.Dialect (stub_db 1 7)) ann ["id"; "bogus"] [])
    as (_ & Hinsert & _).
  - intros s. reflexivity.
  - by apply wf_record_person.
  - exact wf_hooks_PersonTable.
  - by apply unmatched_bogus.
  - exact Hinsert.
Defined.

(** C7 as first stated fails in update mode: with the primary key among
    the requested names the error is about the primary key and does not
    name [bogus]. *)
Lemma rejects_naming_unmatched_counterexample :
  ¬ rejects_naming_unmatched range_sorted ann ["id"; "bogus"] true.
Proof.
  intros H. destruct H as (columns & values & err & Hrun & names & Herr & _).
  { by apply unmatched_bogus. }
  vm_compute in Hrun. injection Hrun as _ _ <-.
  vm_compute in Herr. congruence.
Qed.

(** All persons are selected through a connection that yields two rows and
    then fails. *)
Lemma SelectAllFrom_partial_result_witness :
  (SelectAllFrom expand_plain (querier mssql.Dialect broken_db) PersonTable
     "ORDER BY id" [] []).1
  = Ok ([person PersonTable 1 "ann" 30; person PersonTable 2 "bob" 31],
        Some (ErrForeign "connection lost")).
Proof.
  destruct (SelectAllFrom_partial_result expand_plain
              (querier mssql.Dialect broken_db) PersonTable "ORDER BY id" [] [])
    as (Hpartial & _).
  apply (Hpartial broken_cursor
           [[VInt 1; VStr "ann"; VInt 30]; [VInt 2; VStr "bob"; VInt 31]] []
           (ErrForeign "connection lost")).
  - intros query. reflexivity.
  - reflexivity.
  - repeat constructor.
  - left. split; reflexivity.
  - discriminate.
Defined.

(** The first row of that cursor is scanned into a new person; a row whose
    age does not convert leaves a person with the key and the name of the
    row and the age it had. *)
Lemma NextRow_contract_witness :
  NextRow (NewStruct PersonTable) broken_cursor []
  = (Ok (None, person PersonTable 1 "ann" 30, advance broken_cursor), [])
  ∧ NextRow bob Samples.torn_cursor []
    = (Ok (Some (ErrForeign "converting to int"), person PersonTable 7 "zed" 31,
           advance Samples.torn_cursor), []).
Proof.
  split.
  - destruct (NextRow_contract (NewStruct PersonTable) broken_cursor [])
      as (_ & Hrow & _).
    apply (Hrow [VInt 1; VStr "ann"; VInt 30] [plain_row [VInt 2; VStr "bob"; VInt 31]]).
    + reflexivity.
    + reflexivity.
  - destruct (NextRow_contract bob Samples.torn_cursor []) as (_ & _ & Htorn & _).
    apply (Htorn [VInt 7; VStr "zed"] (ErrForeign "converting to int") [] []).
    + reflexivity.
    + reflexivity.
Defined.

(** A text without a dollar sign is sent as it is. *)
Lemma Expand_without_dollar (s : string) (mapping : string → string) :
  forallb (λ c, negb (Ascii.eqb c "$")) (String.list_ascii_of_string s) = true →
  os.Expand s mapping = s.
Proof.
  unfold os.Expand. induction s as [|c s IH]; [done|].
  simpl. intros H. apply andb_true_iff in H as [Hc Hs].
  destruct s as [|c' s']; [done|].
  apply negb_true_iff in Hc. rewrite Hc. by rewrite (IH Hs).
Qed.

(** C10, at the failing input: under the PostgreSQL dialect the finds
    synthesize the predicate with the placeholder [$1], but the statement
    that they send has passed [os.Expand], which reads [$1] as the variable
    [1] and puts [ToCol "1"], that is [1], in its place: the predicate that
    reaches the connection compares the column with the number 1, and the
    argument is bound to nothing.  Under the MSSQL dialect, whose
    placeholder is [?], the statement is sent as synthesized. *)
Theorem finds_lose_postgresql_placeholder :
  let pg := querier postgresql.Dialect empty_db in
  let qi := postgresql.QuoteIdentifier in
  let column := λ c, qi "people" +:+ "." +:+ qi c in
  let select :=
    "SELECT " +:+ column "id" +:+ ", " +:+ column "name" +:+ ", " +:+ column "age"
    +:+ " FROM " +:+ qi "people" +:+ " WHERE " +:+ column "name" in
  findTail pg "people" "name" (VStr "ann") true
  = ("WHERE " +:+ column "name" +:+ " = $1 LIMIT 1", true)
  ∧ (FindOneTo os.Expand pg bob "name" (VStr "ann") []).2
    = [EvQueryRow (select +:+ " = 1 LIMIT 1") [VStr "ann"]]
  ∧ (FindOneFrom os.Expand pg PersonTable "name" (VStr "ann") []).2
    = [EvQueryRow (select +:+ " = 1 LIMIT 1") [VStr "ann"]]
  ∧ (FindRows os.Expand pg PersonTable "name" (VStr "ann") []).2
    = [EvQuery (select +:+ " = 1") [VStr "ann"]]
  ∧ (FindOneTo os.Expand (querier mssql.Dialect empty_db) bob "name" (VStr "ann") []).2
    = [EvQueryRow
         ("SELECT TOP 1 [people].[id], [people].[name], [people].[age] "
          +:+ "FROM [people] WHERE [people].[name] = ?") [VStr "ann"]].
Proof. repeat split; vm_compute; reflexivity. Qed.

(** Ann is saved to an empty table: the UPDATE finds no row, and the INSERT
    follows. *)
Example Save_falls_through_to_Insert :
  (Save expand_plain (querier lastid_dialect empty_db) ann []).2
  = [EvExec "UPDATE `people` SET `name` = ?, `age` = ? WHERE `id` = ?"
       [VStr "ann"; VInt 30; VInt 5];
     EvExec "INSERT INTO `people` (`id`, `name`, `age`) VALUES (?, ?, ?)"
       [VInt 5; VStr "ann"; VInt 30]].
Proof. vm_compute. reflexivity. Qed.

(** Finding by a nil name binds nothing; finding by a name binds it. *)
Example FindOneTo_nil_and_value :
  (FindOneTo expand_plain (querier lastid_dialect empty_db) bob "name" VNil []).2
  = [EvQueryRow
       ("SELECT `people`.`id`, `people`.`name`, `people`.`age` FROM `people` "
        +:+ "WHERE `people`.`name` IS NULL LIMIT 1") []]
  ∧ (FindOneTo expand_plain (querier lastid_dialect empty_db) bob "name" (VStr "ann") []).2
    = [EvQueryRow
         ("SELECT `people`.`id`, `people`.`name`, `people`.`age` FROM `people` "
          +:+ "WHERE `people`.`name` = ? LIMIT 1") [VStr "ann"]].
Proof. split; vm_compute; reflexivity. Qed.

(** The request order does not matter, and a column requested twice, by
    field name and by column name, is returned once. *)
Example filter_in_table_order :
  filteredColumnsAndValues range_sorted ann ["age"; "$Name"; "name"] false
  = Ok (["name"; "age"], [VStr "ann"; VInt 30], None).
Proof. vm_compute. reflexivity. Qed.

(** ** Further properties: metadata and dialects *)

Lemma NewViewBase_snoc (s : list FieldInfo) (info : FieldInfo) :
  NewViewBase (s ++ [info]) = NewViewBase_step (NewViewBase s) info.
Proof. unfold NewViewBase. by rewrite foldl_app. Qed.

(** X1: [NewViewBase] keeps the field names and the column names in the
    order of the input, so that the two sequences are aligned, and [PK] is
    the column of the last field that has a primary-key type. *)
Theorem NewViewBase_sequences (s : list FieldInfo) :
  fields (NewViewBase s) = map fiName s
  ∧ icols (NewViewBase s) = map fiColumn s
  ∧ pk (NewViewBase s)
    = default EmptyString
        (last (map fiColumn (filter (λ info, fiPKType info ≠ EmptyString) s))).
Proof.
  induction s as [|info s IH] using rev_ind; [done|].
  destruct IH as (Hf & Hc & Hpk). rewrite NewViewBase_snoc. simpl.
  rewrite Hf, Hc, !map_app. split; [done|]. split; [done|].
  rewrite filter_app.
  destruct (decide (fiPKType info = EmptyString)) as [Heq|Hne].
  - rewrite bool_decide_eq_true_2 by done.
    rewrite filter_cons_False by (by intros H; apply H).
    by rewrite filter_nil, app_nil_r.
  - rewrite bool_decide_eq_false_2 by done.
    rewrite filter_cons_True by done.
    rewrite filter_nil, map_app. simpl. by rewrite last_snoc.
Qed.

(** X2: the names that [HasCol] knows are exactly the field names and the
    column names of the input. *)
Theorem HasCol_known_names (s : list FieldInfo) (field : string) :
  is_Some (HasCol (NewViewBase s) field)
  ↔ field ∈ map fiName s ∨ field ∈ map fiColumn s.
Proof.
  unfold HasCol. induction s as [|info s IH] using rev_ind.
  - simpl. rewrite lookup_empty, elem_of_nil. split; [by intros [? ?]|tauto].
  - rewrite NewViewBase_snoc. simpl. rewrite !map_app, !elem_of_app. simpl.
    rewrite !list_elem_of_singleton.
    destruct (decide (fiColumn info = field)) as [->|Hc].
    { rewrite lookup_insert_eq. split; [tauto|eauto]. }
    rewrite lookup_insert_ne by done.
    destruct (decide (fiName info = field)) as [->|Hn].
    { rewrite lookup_insert_eq. split; [tauto|eauto]. }
    rewrite lookup_insert_ne by done. rewrite IH. naive_solver.
Qed.

Lemma NewViewBase_values (s : list FieldInfo) (field col : string) :
  m (NewViewBase s) !! field = Some col → col ∈ map fiColumn s.
Proof.
  revert col. induction s as [|info s IH] using rev_ind; intros col.
  - simpl. by rewrite lookup_empty.
  - rewrite NewViewBase_snoc. simpl. rewrite map_app, elem_of_app. simpl.
    rewrite list_elem_of_singleton.
    destruct (decide (fiColumn info = field)) as [->|Hc].
    { rewrite lookup_insert_eq. intros [= <-]. by right. }
    rewrite lookup_insert_ne by done.
    destruct (decide (fiName info = field)) as [->|Hn].
    { rewrite lookup_insert_eq. intros [= <-]. by right. }
    rewrite lookup_insert_ne by done. intros H. left. by apply IH.
Qed.

(** X3: [ToCol] maps a name that [HasCol] knows to a column of the input,
    and leaves every other name as it is. *)
Theorem ToCol_column_or_unchanged (s : list FieldInfo) (field : string) :
  match HasCol (NewViewBase s) field with
  | Some col => ToCol (NewViewBase s) field = col ∧ col ∈ map fiColumn s
  | None => ToCol (NewViewBase s) field = field
  end.
Proof.
  unfold HasCol, ToCol.
  destruct (m (NewViewBase s) !! field) as [col|] eqn:Hm; [|done].
  split; [done|]. by eapply NewViewBase_values.
Qed.

Lemma NewViewBase_column_fixed (C : string → Prop) (s : list FieldInfo) :
  Forall (λ info, C (fiName info) → fiColumn info = fiName info) s →
  ∀ c, c ∈ map fiColumn s → C c → m (NewViewBase s) !! c = Some c.
Proof.
  induction s as [|info s IH] using rev_ind; intros Hs c Hc HC.
  - by apply elem_of_nil in Hc.
  - apply Forall_app in Hs as [Hs Hinfo]. apply Forall_cons in Hinfo as [Hinfo _].
    rewrite NewViewBase_snoc. simpl.
    destruct (decide (fiColumn info = c)) as [->|Hne].
    { by rewrite lookup_insert_eq. }
    rewrite lookup_insert_ne by done.
    destruct (decide (fiName info = c)) as [<-|Hn].
    { by specialize (Hinfo HC). }
    rewrite lookup_insert_ne by done. apply IH; [done| |done].
    rewrite map_app, elem_of_app in Hc. destruct Hc as [?|Hc]; [done|].
    simpl in Hc. apply list_elem_of_singleton in Hc. congruence.
Qed.

(** X4: when every field that is named like a column is that column,
    every column maps to itself and [ToCol] is idempotent. *)
Theorem ToCol_idempotent (s : list FieldInfo) (field : string) :
  Forall (λ info, fiName info ∈ map fiColumn s → fiColumn info = fiName info) s →
  (∀ c, c ∈ map fiColumn s → ToCol (NewViewBase s) c = c)
  ∧ ToCol (NewViewBase s) (ToCol (NewViewBase s) field) = ToCol (NewViewBase s) field.
Proof.
  intros Hs.
  assert (Hfix : ∀ c, c ∈ map fiColumn s → ToCol (NewViewBase s) c = c).
  { intros c Hc. unfold ToCol.
    by rewrite (NewViewBase_column_fixed (λ c, c ∈ map fiColumn s) s Hs c Hc Hc). }
  split; [exact Hfix|].
  unfold ToCol at 2 3.
  destruct (m (NewViewBase s) !! field) as [col|] eqn:Hm.
  - apply Hfix. by eapply NewViewBase_values.
  - unfold ToCol. by rewrite Hm.
Qed.

Lemma ToCol_idempotent_witness :
  ToCol (NewViewBase person_fields) (ToCol (NewViewBase person_fields) "Name")
  = ToCol (NewViewBase person_fields) "Name".
Proof.
  apply (ToCol_idempotent person_fields "Name").
  unfold person_fields. repeat constructor; simpl; intros H;
    rewrite !elem_of_cons, elem_of_nil in H;
    destruct H as [H|[H|[H|H]]]; try discriminate H; destruct H.
Defined.

(** X5: in both dialects the batch form agrees with the single form: it
    returns [count] placeholders, the one at position [i] is
    [Placeholder (start + i)], and the placeholders of two consecutive
    blocks are those of one block. *)
Theorem Placeholders_blocks (start : Z) (a b : nat) :
  Forall (λ d : Dialect,
    length (Placeholders d start a) = a
    ∧ (∀ i, (i < a)%nat →
         Placeholders d start a !! i = Some (Placeholder d (start + Z.of_nat i)))
    ∧ Placeholders d start (a + b)
      = Placeholders d start a ++ Placeholders d (start + Z.of_nat a) b)
    [mssql.Dialect; postgresql.Dialect].
Proof.
  repeat constructor; simpl.
  - unfold mssql.Placeholders. by rewrite length_replicate.
  - intros i Hi. by apply lookup_replicate_2.
  - unfold mssql.Placeholders. by rewrite replicate_add.
  - unfold postgresql.Placeholders. by rewrite length_map, length_seq.
  - intros i Hi. unfold postgresql.Placeholders, postgresql.Placeholder.
    by rewrite list_lookup_fmap, lookup_seq_lt by done.
  - unfold postgresql.Placeholders. rewrite seq_app, map_app. f_equal. simpl.
    replace (seq a b) with (map (λ j, a + j)%nat (seq 0 b)).
    2:{ clear. revert a. induction b as [|b IH]; intros a; [done|].
        rewrite !seq_S, !map_app, IH. done. }
    rewrite map_map. apply map_ext. intros j. do 2 f_equal. lia.
Qed.

(** X6: the placeholders of the PostgreSQL dialect for different indices
    are different strings, so a batch of them has no duplicate. *)
Theorem postgresql_placeholders_distinct (start : Z) (count : nat) :
  (∀ i j, postgresql.Placeholder i = postgresql.Placeholder j → i = j)
  ∧ NoDup (postgresql.Placeholders start count).
Proof.
  assert (Hinj : ∀ i j, postgresql.Placeholder i = postgresql.Placeholder j → i = j).
  { intros i j H. unfold postgresql.Placeholder, Itoa in H.
    apply (inj (String.append _)) in H. by apply (inj pretty) in H. }
  split; [exact Hinj|].
  unfold postgresql.Placeholders.
  apply (NoDup_fmap_2_strong (λ i : nat, "$" +:+ Itoa (start + Z.of_nat i))).
  - intros i j _ _ H. apply Hinj in H. lia.
  - apply NoDup_seq.
Qed.

Section FilterProperties.

Variable range_order : gset string → list string.

(** *** More on the column/value filter *)

(** The normalization of a requested name. *)
Lemma requested_set_ext (toCol : string → string) (l l' : list string) :
  (∀ c, c ∈ map (λ x, toCol (TrimLeft x "$"%char)) l
        ↔ c ∈ map (λ x, toCol (TrimLeft x "$"%char)) l') →
  requested_set toCol l = requested_set toCol l'.
Proof.
  intros H. apply set_eq. intros c. rewrite !elem_of_requested_set.
  specialize (H c). rewrite !list_elem_of_fmap in H.
  split; intros (x & Hx & ->).
  - destruct (proj1 H) as (y & -> & Hy); [by exists x|]. by exists y.
  - destruct (proj2 H) as (y & -> & Hy); [by exists x|]. by exists y.
Qed.

(** The filter for one requested set, under two iteration orders. *)
Lemma filter_two_orders (range_order' : gset string → list string)
    (record : Struct) (l l' : list string) (isUpdate : bool) :
  (∀ s, range_order s ≡ₚ elements s) → (∀ s, range_order' s ≡ₚ elements s) →
  requested_set (ToCol (vbase (sview record))) l
  = requested_set (ToCol (vbase (sview record))) l' →
  same_selection (filteredColumnsAndValues range_order record l isUpdate)
    (filteredColumnsAndValues range_order' record l' isUpdate).
Proof.
  intros Hro Hro' Hset. unfold filteredColumnsAndValues. rewrite Hset.
  destruct (PKColumnIndex (sview record)) as [pk|]; [|done].
  destruct (filter_pass _ _ _ _ _ _ _ _) as [[[[set' cols] vals] [e|]]|msg];
    simpl; [by eauto| |done].
  destruct (decide (0 < size set')%nat); simpl; [|done].
  split; [done|]. right. split; [|done]. by rewrite Hro, Hro'.
Qed.

(** X7: the filter depends on the request only through the set of its
    normalized names: the order of the names, their repetition and their
    leading dollar signs do not matter.  Two calls return the same columns,
    values and error, except that an error about unexpected columns may
    list them in another order, as each call ranges over a map of its
    own. *)
Theorem filter_request_as_set (range_order' : gset string → list string)
    (record : Struct) (l l' : list string) (isUpdate : bool) :
  let norm := λ x, ToCol (vbase (sview record)) (TrimLeft x "$"%char) in
  (∀ s, range_order s ≡ₚ elements s) → (∀ s, range_order' s ≡ₚ elements s) →
  (∀ c, c ∈ map norm l ↔ c ∈ map norm l') →
  same_selection (filteredColumnsAndValues range_order record l isUpdate)
    (filteredColumnsAndValues range_order' record l' isUpdate).
Proof.
  intros norm Hro Hro' H. apply filter_two_orders; [done|done|].
  by apply requested_set_ext.
Qed.

(** In update mode the pass stops at a requested primary key that no
    earlier column has removed from the set. *)
Lemma filter_pass_pk_stop (pk : nat) (allValues : list value) (c : string) :
  ∀ (rest : list string) (i : nat) (set : gset string) (cols : list string)
    (vals : list value) out,
  (i ≤ pk)%nat → rest !! (pk - i)%nat = Some c → c ∈ set →
  c ∉ take (pk - i) rest →
  filter_pass true pk allValues i rest set cols vals = Ok out →
  out.2 = Some (Errorf ("reform: will not update PK column: " +:+ c)).
Proof.
  induction rest as [|c' rest IH]; intros i set cols vals out Hi Hlk Hin Hnot Hrun;
    [done|].
  simpl in Hrun. destruct (decide (i = pk)) as [->|Hne].
  - rewrite Nat.sub_diag in Hlk. simpl in Hlk. injection Hlk as ->.
    rewrite bool_decide_eq_true_2 in Hrun by done.
    rewrite bool_decide_eq_true_2 in Hrun by done. simpl in Hrun.
    by injection Hrun as <-.
  - replace (pk - i)%nat with (S (pk - S i)) in Hlk, Hnot by lia.
    simpl in Hlk, Hnot. apply not_elem_of_cons in Hnot as [Hc Hnot].
    rewrite (bool_decide_eq_false_2 (i = pk)) in Hrun by done.
    destruct (bool_decide (c' ∈ set)).
    + destruct (allValues !! i); [|done].
      eapply (IH (S i)); [lia|done| |done|done]. set_solver.
    + eapply (IH (S i)); [lia|done|done|done|done].
Qed.

(** On a table whose column names are distinct, the pass in update mode
    over all columns stops at the primary key when it is requested. *)
Lemma update_pass_stops_at_key (record : Struct) (columnsIn : list string)
    (pk : nat) (c : string) out :
  NoDup (Columns (sview record)) →
  Columns (sview record) !! pk = Some c →
  c ∈ requested_set (ToCol (vbase (sview record))) columnsIn →
  filter_pass true pk (Values record) 0 (Columns (sview record))
    (requested_set (ToCol (vbase (sview record))) columnsIn) [] [] = Ok out →
  out.2 = Some (Errorf ("reform: will not update PK column: " +:+ c)).
Proof.
  intros Hnd Hc Hin Hrun.
  assert (Hnot : c ∉ take pk (Columns (sview record))).
  { intros Hel. apply list_elem_of_lookup in Hel as [j Hj].
    apply lookup_take_Some in Hj as [Hj Hlt].
    pose proof (NoDup_lookup _ _ _ _ Hnd Hj Hc). lia. }
  pose proof (filter_pass_pk_stop pk (Values record) c (Columns (sview record)) 0
                (requested_set (ToCol (vbase (sview record))) columnsIn) [] []
                out ltac:(lia)) as Hstop.
  rewrite Nat.sub_0_r in Hstop. by apply Hstop.
Qed.

(** X8: in update mode, on a table whose column names are distinct, a
    request that names the primary-key column fails with the error about the
    primary key, whatever else it names. *)
Theorem update_filter_rejects_primary_key (record : Struct)
    (columnsIn : list string) (pk : nat) (c : string) :
  wf_record record → NoDup (Columns (sview record)) →
  PKColumnIndex (sview record) = Some pk →
  Columns (sview record) !! pk = Some c →
  c ∈ requested_set (ToCol (vbase (sview record))) columnsIn →
  ∃ columns values,
    filteredColumnsAndValues range_order record columnsIn true
    = Ok (columns, values,
          Some (Errorf ("reform: will not update PK column: " +:+ c))).
Proof.
  intros Hwf Hnd Hpk Hc Hin.
  destruct Hwf as (pk' & Hpk' & Hlt & Hlen).
  unfold filteredColumnsAndValues. rewrite Hpk.
  destruct (filter_pass_ok true pk (Values record) (Columns (sview record)) 0
              (requested_set (ToCol (vbase (sview record))) columnsIn) [] [])
    as [[[[set' columns] values] err] Hrun].
  { unfold Values. simpl. lia. }
  rewrite Hrun.
  pose proof (update_pass_stops_at_key record columnsIn pk c _ Hnd Hc Hin Hrun)
    as Hstop.
  simpl in Hstop. subst err. by exists columns, values.
Qed.

(** X9: in update mode, on a table whose column names are distinct, the
    columns that the filter returns on success never include the
    primary-key column. *)
Theorem update_filter_excludes_primary_key (record : Struct)
    (columnsIn columns : list string) (values : list value) (pk : nat) (c : string) :
  wf_record record → NoDup (Columns (sview record)) →
  PKColumnIndex (sview record) = Some pk →
  Columns (sview record) !! pk = Some c →
  filteredColumnsAndValues range_order record columnsIn true
  = Ok (columns, values, None) →
  c ∉ columns.
Proof.
  intros Hwf Hnd Hpk Hc Hrun Hel.
  destruct (filter_cases range_order record columnsIn true Hwf)
    as (idx & cols & vals & err & _ & _ & Hsub & Herr).
  destruct err as [e|].
  { destruct Herr as (_ & _ & Hrun'). congruence. }
  destruct Herr as (Hiff & Hrun'). rewrite Hrun' in Hrun.
  destruct (decide (unmatched record columnsIn = ∅)); [|done].
  injection Hrun as <- <-. apply Hsub in Hel.
  unfold filteredColumnsAndValues in Hrun'. rewrite Hpk in Hrun'.
  destruct (filter_pass _ _ _ _ _ _ _ _) as [[[[set' cs'] vs'] err']|] eqn:Hp; [|done].
  pose proof (update_pass_stops_at_key record columnsIn pk c _ Hnd Hc Hel Hp) as Hstop.
  simpl in Hstop. subst err'. done.
Qed.

Lemma struct_pass_filter_pass (pk : nat) (allValues : list value) :
  ∀ (rest : list string) (i : nat) (set : gset string) (cols : list string)
    (vals : list value),
  filter_pass false pk allValues i rest set cols vals
  = match struct_pass allValues i rest set cols vals with
    | Ok (set', cols', vals') => Ok (set', cols', vals', None)
    | Panic msg => Panic msg
    end.
Proof.
  induction rest as [|c rest IH]; intros i set cols vals; simpl; [done|].
  destruct (bool_decide (c ∈ set)); [|by apply IH].
  destruct (allValues !! i); [by apply IH|done].
Qed.

(** X10: on a record, [filteredStructColumnsAndValues] returns what the
    filter for records returns in insert mode: the same columns, values
    and error, except that an error about unexpected columns may list them
    in another order. *)
Theorem filteredStruct_agrees (range_order' : gset string → list string)
    (record : Struct) (columnsIn : list string) :
  (∀ s, range_order s ≡ₚ elements s) → (∀ s, range_order' s ≡ₚ elements s) →
  isRecord record = true →
  same_selection (filteredStructColumnsAndValues range_order record columnsIn)
    (filteredColumnsAndValues range_order' record columnsIn false).
Proof.
  intros Hro Hro'.
  unfold isRecord, filteredStructColumnsAndValues, filteredColumnsAndValues.
  destruct (PKColumnIndex (sview record)) as [pk|]; [|done]. intros _.
  rewrite (struct_pass_filter_pass pk).
  destruct (struct_pass _ _ _ _ _ _) as [[[set' cols] vals]|]; simpl; [|done].
  destruct (decide (0 < size set')%nat); simpl; [|done].
  split; [done|]. right. split; [|done]. by rewrite Hro, Hro'.
Qed.

End FilterProperties.

Section MoreProperties.

Variable range_order : gset string → list string.
Variable Expand : string → (string → string) → string.
Variable q : Querier.

(** *** More on the commands *)

Lemma cut_ok {A : Type} (l : list A) (pk : nat) :
  (pk < length l)%nat → cut l pk = Ok (without pk l).
Proof. intros H. unfold cut. by destruct (decide (pk < length l)%nat). Qed.

Lemma length_without {A : Type} (l : list A) (pk : nat) :
  (pk < length l)%nat → S (length (without pk l)) = length l.
Proof.
  intros H. unfold without. rewrite length_app, length_take, length_drop. lia.
Qed.

Lemma rows_affected_outcome_trace (verb : string) (ra : Z) (tr : trace) :
  rows_affected_outcome verb ra tr = ((rows_affected_outcome verb ra []).1, tr).
Proof.
  unfold rows_affected_outcome.
  destruct (decide (ra = 0)%Z); [done|]. by destruct (decide (ra > 1)%Z).
Qed.

(** [update] sends one statement and turns its answer into its result. *)
Lemma update_shape (record : Struct) (columns : list string) (values : list value)
    (tr : trace) :
  wf_dialect q → wf_record record →
  ∃ query,
    update Expand q record columns values tr
    = (exec_outcome "UPDATE" (Exec q tr query (values ++ [PKValue record])),
       tr ++ [EvExec query (values ++ [PKValue record])]).
Proof.
  intros Hd (pk & Hpk & Hlt & _). unfold update.
  destruct (set_list_ok (map (QuoteIdentifier q) columns)
              (Placeholders q 1 (length (map (QuoteIdentifier q) columns))))
    as (p & Hp & _); [by rewrite Hd|].
  destruct (index_ok _ _ Hlt) as (c & _ & Hc).
  run. rewrite Hp. simpl. rewrite Hpk. rewrite Hc. simpl. unfold qExec.
  match goal with |- context [Exec _ tr ?Q (values ++ _)] => exists Q end.
  unfold exec_outcome.
  destruct (Exec q tr _ _) as [e|r]; [done|].
  destruct (resRowsAffected r) as [e|ra]; [done|].
  apply rows_affected_outcome_trace.
Qed.

Lemma Delete_shape (record : Struct) (tr : trace) :
  wf_record record → HasPK record = true →
  ∃ query,
    Delete Expand q record tr
    = (exec_outcome "DELETE" (Exec q tr query [PKValue record]),
       tr ++ [EvExec query [PKValue record]]).
Proof.
  intros (pk & Hpk & Hlt & _) Hhas. unfold Delete. rewrite Hhas. simpl.
  rewrite Hpk. destruct (index_ok _ _ Hlt) as (c & _ & Hc).
  run. rewrite Hc. simpl. unfold qExec.
  match goal with |- context [Exec _ tr ?Q [_]] => exists Q end.
  unfold exec_outcome.
  destruct (Exec q tr _ _) as [e|r]; [done|].
  destruct (resRowsAffected r) as [e|ra]; [done|].
  apply rows_affected_outcome_trace.
Qed.

Lemma set_list_zip (columns placeholders : list string) :
  (length columns ≤ length placeholders)%nat →
  set_list columns placeholders
  = Ok (zip_with (λ column placeholder, column +:+ " = " +:+ placeholder)
          columns placeholders).
Proof.
  revert placeholders. induction columns as [|c cs IH]; intros phs Hlen; [done|].
  destruct phs as [|ph phs]; [simpl in Hlen; lia|].
  simpl in *. rewrite IH by lia. done.
Qed.

(** [update] sends the UPDATE statement of [update_text]. *)
Lemma update_sends_text (record : Struct) (columns : list string)
    (values : list value) (tr : trace) (pk : nat) (c : string) :
  wf_dialect q →
  PKColumnIndex (sview record) = Some pk → Columns (sview record) !! pk = Some c →
  let query := Expand (update_text q (sview record) columns c)
                 (ToCol (vbase (sview record))) in
  let args := values ++ [PKValue record] in
  update Expand q record columns values tr
  = (exec_outcome "UPDATE" (Exec q tr query args), tr ++ [EvExec query args]).
Proof.
  intros Hd Hpk Hc query args. subst query args. unfold update, update_text.
  rewrite set_list_zip by by rewrite Hd.
  unfold mbind at 1, M_bind at 1, lift. rewrite Hpk. unfold index. rewrite Hc.
  unfold mbind at 1, M_bind at 1. rewrite !length_map.
  unfold mbind, M_bind, qExec. unfold exec_outcome.
  destruct (Exec q tr _ _) as [e|r]; [done|].
  destruct (resRowsAffected r) as [e|ra]; [done|].
  apply rows_affected_outcome_trace.
Qed.

Lemma Update_shape (record record1 : Struct) (tr tr1 : trace) (pk : nat) :
  beforeUpdate record tr = (Ok (None, record1), tr1) →
  wf_dialect q → wf_record record1 → PKColumnIndex (sview record1) = Some pk →
  let args := without pk (Values record1) ++ [PKValue record1] in
  ∃ query,
    Update Expand q record tr
    = (match exec_outcome "UPDATE" (Exec q tr1 query args) with
       | Ok err => Ok (err, record1)
       | Panic msg => Panic msg
       end,
       tr1 ++ [EvExec query args]).
Proof.
  intros Hbu Hd Hwf Hpk args. unfold Update.
  unfold mbind at 1, M_bind at 1. rewrite Hbu. rewrite Hpk.
  pose proof Hwf as (pk' & Hpk' & Hlt & Hlen).
  assert (pk' = pk) as -> by congruence.
  unfold mbind, M_bind, lift. unfold Values.
  rewrite (cut_ok (sfields record1)) by lia. rewrite cut_ok by done.
  destruct (update_shape record1 (without pk (Columns (sview record1)))
              (without pk (sfields record1)) tr1 Hd Hwf) as [query ->].
  exists query. subst args. unfold Values.
  by destruct (exec_outcome _ _).
Qed.

(** X11: [Update] sends one statement whose arguments are the values of
    the record without the primary key, in table order, followed by the
    primary-key value: as many arguments as the table has columns.  It
    leaves the record as the hook left it. *)
Theorem Update_binds_values (record record1 : Struct) (tr tr1 : trace) (pk : nat) :
  beforeUpdate record tr = (Ok (None, record1), tr1) →
  wf_dialect q → wf_record record1 → PKColumnIndex (sview record1) = Some pk →
  let args := without pk (Values record1) ++ [PKValue record1] in
  length args = length (Columns (sview record1))
  ∧ (∃ query, (Update Expand q record tr).2 = tr1 ++ [EvExec query args])
  ∧ (∀ err record', (Update Expand q record tr).1 = Ok (err, record') →
                    record' = record1).
Proof.
  intros Hbu Hd Hwf Hpk args.
  destruct (Update_shape record record1 tr tr1 pk Hbu Hd Hwf Hpk) as [query Hrun].
  fold args in Hrun. rewrite Hrun. simpl.
  pose proof Hwf as (pk' & Hpk' & Hlt & Hlen).
  assert (pk' = pk) as -> by congruence.
  split; [|split].
  - subst args. rewrite length_app. simpl. unfold Values.
    pose proof (length_without (sfields record1) pk). lia.
  - by exists query.
  - intros err record'. destruct (exec_outcome _ _); [|done]. by intros [= _ <-].
Qed.

(** X12: [update], [Delete], [DeleteFrom] and [DsExec] return an error of
    the driver, from [Exec] or from [RowsAffected], as it is. *)
Theorem driver_errors_pass_through (record : Struct) (view : View)
    (columns : list string) (values args : list value) (tail query : string)
    (tr : trace) (e : error) :
  wf_dialect q → wf_record record → HasPK record = true →
  (∀ query args, driver_error (Exec q tr query args) = Some e) →
  (update Expand q record columns values tr).1 = Ok (Some e)
  ∧ (Delete Expand q record tr).1 = Ok (Some e)
  ∧ (DeleteFrom Expand q view tail args tr).1 = Ok (0%Z, Some e)
  ∧ (DsExec Expand q view query args tr).1 = Ok (0%Z, Some e).
Proof.
  intros Hd Hwf Hhas Hexec.
  assert (Hout : ∀ verb query args,
            exec_outcome verb (Exec q tr query args) = Ok (Some e)).
  { intros verb query' args'. specialize (Hexec query' args').
    unfold exec_outcome, driver_error in *.
    destruct (Exec q tr query' args') as [e'|r]; [congruence|].
    destruct (resRowsAffected r); congruence. }
  destruct (update_shape record columns values tr Hd Hwf) as [qu ->].
  destruct (Delete_shape record tr Hwf Hhas) as [qd ->].
  rewrite !Hout. split; [done|]. split; [done|].
  unfold DeleteFrom, DsExec, qExec. run.
  split.
  - match goal with |- context [Exec _ tr ?Q args] => specialize (Hexec Q args) end.
    unfold driver_error in Hexec.
    destruct (Exec q tr _ args) as [e'|r]; [simpl; congruence|].
    destruct (resRowsAffected r); simpl; congruence.
  - match goal with |- context [Exec _ tr ?Q args] => specialize (Hexec Q args) end.
    unfold driver_error in Hexec.
    destruct (Exec q tr _ args) as [e'|r]; [simpl; congruence|].
    destruct (resRowsAffected r); simpl; congruence.
Qed.

(** X13: [DeleteFrom] sends one [Exec] of [DELETE FROM <view> <tail>],
    [DsExec] one [Exec] of the statement it is given, each expanded and with
    the given arguments; they return the number of affected rows and no
    error of their own: zero rows is the count 0 with a nil error. *)
Theorem DeleteFrom_counts_rows (view : View) (tail query : string)
    (args : list value) (tr : trace) (r : sql_Result) (ra : Z) :
  (∀ query args, Exec q tr query args = inr r) →
  resRowsAffected r = inr ra → (0 ≤ ra < 2 ^ 63)%Z →
  DeleteFrom Expand q view tail args tr
  = (Ok (ra, None),
     tr ++ [EvExec (Expand ("DELETE FROM " +:+ QualifiedView q view +:+ " " +:+ tail)
                      (ToCol (vbase view))) args])
  ∧ DsExec Expand q view query args tr
    = (Ok (ra, None), tr ++ [EvExec (Expand query (ToCol (vbase view))) args]).
Proof.
  intros Hexec Hra Hrange.
  unfold DeleteFrom, DsExec, qExec. run. rewrite !Hexec, Hra. simpl.
  unfold to_uint. rewrite Z.mod_small by lia. done.
Qed.

(** *** Requests, hooks and keys *)

Lemma filter_pass_empty (isUpdate : bool) (pk : nat) (allValues : list value) :
  ∀ (rest : list string) (i : nat) (cols : list string) (vals : list value),
  filter_pass isUpdate pk allValues i rest ∅ cols vals = Ok (∅, cols, vals, None).
Proof.
  induction rest as [|c rest IH]; intros i cols vals; simpl; [done|].
  rewrite bool_decide_eq_false_2 by set_solver. apply IH.
Qed.

Lemma HasPK_isRecord (record : Struct) :
  HasPK record = true → ∃ pk, PKColumnIndex (sview record) = Some pk.
Proof.
  unfold HasPK, PKValue. destruct (PKColumnIndex (sview record)); [eauto|done].
Qed.

Lemma beforeUpdate_ok (record record1 : Struct) (tr tr1 : trace) :
  beforeUpdate record tr = (Ok (None, record1), tr1) →
  HasPK record = true ∧ sview record1 = sview record.
Proof.
  unfold beforeUpdate. destruct (HasPK record); simpl; [|done].
  destruct (vBeforeUpdate (sview record)) as [bu|].
  - rewrite call_hook_run. by intros [= _ <- _].
  - by intros [= <- _].
Qed.

Lemma filter_empty_request (record : Struct) (isUpdate : bool) (pk : nat) :
  PKColumnIndex (sview record) = Some pk →
  filteredColumnsAndValues range_order record [] isUpdate = Ok ([], [], None).
Proof.
  intros Hpk. unfold filteredColumnsAndValues. rewrite Hpk. simpl.
  rewrite filter_pass_empty. by rewrite size_empty.
Qed.

(** X14: with no column named, [UpdateColumns] refuses with "nothing to
    update" after the hook and before any SQL, whereas [InsertColumns]
    sends an INSERT statement that binds no value. *)
Theorem empty_request (record record1 : Struct) (tr tr1 : trace) :
  (beforeUpdate record tr = (Ok (None, record1), tr1) →
   UpdateColumns range_order Expand q record [] tr
   = (Ok (Some (Errorf "reform: nothing to update"), record1), tr1))
  ∧ (beforeInsert record tr = (Ok (None, record1), tr1) → wf_record record1 →
     ∃ query,
       (InsertColumns range_order Expand q record [] tr).2
       = tr1 ++ [insert_event q query []]).
Proof.
  split.
  - intros Hbu. destruct (beforeUpdate_ok _ _ _ _ Hbu) as [Hhas Hview].
    destruct (HasPK_isRecord _ Hhas) as [pk Hpk]. rewrite <- Hview in Hpk.
    unfold UpdateColumns. unfold mbind at 1, M_bind at 1. rewrite Hbu.
    unfold mbind, M_bind, lift. by rewrite (filter_empty_request _ _ pk Hpk).
  - intros Hbi Hwf.
    destruct (beforeInsert_cases record tr) as (err & r1 & t1 & Hrun & Hview & _).
    rewrite Hbi in Hrun. injection Hrun as <- <- <-.
    pose proof Hwf as (pk & Hpk & _).
    unfold InsertColumns. rewrite <- Hview, Hpk.
    unfold mbind at 1, M_bind at 1. rewrite Hbi.
    unfold mbind, M_bind, lift. rewrite (filter_empty_request _ _ pk Hpk).
    destruct (insert_record Expand q record1 [] [] tr1 Hwf) as [query ->]. by exists query.
Qed.

(** X15: when the [BeforeInsert] hook fails, [Insert] and [InsertColumns]
    return its error as it is, leave the struct as the hook left it, and
    send nothing to the connection. *)
Theorem BeforeInsert_failure_aborts (str : Struct) (columns : list string)
    (bi : hook) (e : error) (tr : trace) :
  vBeforeInsert (sview str) = Some bi → (bi (sfields str)).2 = Some e →
  let str1 := {| sview := sview str; sfields := (bi (sfields str)).1 |} in
  let tr1 := tr ++ [EvBeforeInsert (sfields str)] in
  Insert Expand q str tr = (Ok (Some e, str1), tr1)
  ∧ (isRecord str = true →
     InsertColumns range_order Expand q str columns tr = (Ok (Some e, str1), tr1)).
Proof.
  intros Hbi He str1 tr1. split.
  - unfold Insert, beforeInsert. rewrite Hbi.
    unfold mbind, M_bind. rewrite call_hook_run, He. done.
  - unfold isRecord, InsertColumns, beforeInsert.
    destruct (PKColumnIndex (sview str)); [|done]. intros _. rewrite Hbi.
    unfold mbind, M_bind. rewrite call_hook_run, He. done.
Qed.

(** X16: when the [BeforeUpdate] hook of a record with a primary key fails,
    [Update] and [UpdateColumns] return its error as it is, leave the
    record as the hook left it, and send nothing to the connection. *)
Theorem BeforeUpdate_failure_aborts (record : Struct) (columns : list string)
    (bu : hook) (e : error) (tr : trace) :
  HasPK record = true →
  vBeforeUpdate (sview record) = Some bu → (bu (sfields record)).2 = Some e →
  let record1 := {| sview := sview record; sfields := (bu (sfields record)).1 |} in
  let tr1 := tr ++ [EvBeforeUpdate (sfields record)] in
  Update Expand q record tr = (Ok (Some e, record1), tr1)
  ∧ UpdateColumns range_order Expand q record columns tr = (Ok (Some e, record1), tr1).
Proof.
  intros Hhas Hbu He record1 tr1.
  unfold Update, UpdateColumns, beforeUpdate. rewrite Hhas, Hbu. simpl.
  unfold mbind, M_bind. rewrite call_hook_run, He. done.
Qed.


(** X18: [Insert] of a struct that is not a record sends its statement
    with [Exec] under every dialect, binds every value, and leaves the
    struct as the hook left it. *)
Theorem Insert_struct_uses_Exec (str str1 : Struct) (tr tr1 : trace) :
  beforeInsert str tr = (Ok (None, str1), tr1) →
  isRecord str1 = false →
  ∃ query,
    Insert Expand q str tr
    = (Ok (err_of (Exec q tr1 query (Values str1)), str1),
       tr1 ++ [EvExec query (Values str1)]).
Proof.
  intros Hbi Hrec. unfold isRecord in Hrec.
  destruct (PKColumnIndex (sview str1)) eqn:Hpk; [done|].
  unfold Insert. unfold mbind at 1, M_bind at 1. rewrite Hbi, Hpk.
  unfold insert. rewrite Hpk. unfold qExec. run.
  destruct (lastInsertIdMethod q); simpl;
    match goal with |- context [Exec _ tr1 ?Q (Values str1)] => exists Q end;
    by destruct (Exec q tr1 _ _).
Qed.

(** The columns that the filter selects when every requested name,
    normalized, is a column of the table: those that some requested name
    normalizes to. *)
Lemma filter_selects_requested (record : Struct) (columnsIn : list string)
    (isUpdate : bool) :
  let norm := λ x, ToCol (vbase (sview record)) (TrimLeft x "$"%char) in
  wf_record record →
  (∀ x, x ∈ columnsIn → norm x ∈ Columns (sview record)) →
  (isUpdate = true →
   ∀ x pk, x ∈ columnsIn → PKColumnIndex (sview record) = Some pk →
           Columns (sview record) !! pk ≠ Some (norm x)) →
  ∃ idx columns values,
    selected_at idx (Columns (sview record)) (Values record) columns values
    ∧ (∀ c, c ∈ columns ↔ ∃ x, x ∈ columnsIn ∧ c = norm x)
    ∧ filteredColumnsAndValues range_order record columnsIn isUpdate
      = Ok (columns, values, None).
Proof.
  intros norm Hwf Hknown Hkey.
  assert (Hun : unmatched record columnsIn = ∅).
  { apply set_eq. intros c. unfold unmatched.
    rewrite elem_of_difference, elem_of_requested_set, elem_of_list_to_set.
    split; [|set_solver]. intros [(x & Hx & ->) Hnot]. destruct Hnot.
    by apply Hknown. }
  destruct (filter_cases range_order record columnsIn isUpdate Hwf)
    as (idx & columns & values & err & Hsel & _ & _ & Herr).
  destruct err as [e|].
  { destruct Herr as (Hup & (pk & c & Hpk & Hc & Hin) & _).
    apply elem_of_requested_set in Hin as (x & Hx & ->).
    by destruct (Hkey Hup x pk Hx Hpk). }
  destruct Herr as [Hiff Hrun]. rewrite decide_True in Hrun by done.
  exists idx, columns, values. split; [done|]. split; [|done].
  intros c. rewrite Hiff, elem_of_requested_set. split; [by intros [? _]|].
  intros (x & Hx & ->). split; [by exists x|]. by apply Hknown.
Qed.


(** X20: when some name is requested and every requested name, with its
    leading dollar signs removed and mapped through [ToCol], is a column of
    the table other than the primary key, [UpdateColumns] sends one
    UPDATE that sets exactly the columns so named, in table order, and
    binds their values followed by the primary-key value. *)
Theorem UpdateColumns_binds_selection (record record1 : Struct)
    (columnsIn : list string) (tr tr1 : trace) (pk : nat) (c : string) :
  let norm := λ x, ToCol (vbase (sview record1)) (TrimLeft x "$"%char) in
  beforeUpdate record tr = (Ok (None, record1), tr1) →
  wf_dialect q → wf_record record1 →
  PKColumnIndex (sview record1) = Some pk → Columns (sview record1) !! pk = Some c →
  columnsIn ≠ [] →
  (∀ x, x ∈ columnsIn → norm x ∈ Columns (sview record1) ∧ norm x ≠ c) →
  ∃ idx columns values,
    selected_at idx (Columns (sview record1)) (Values record1) columns values
    ∧ (∀ c, c ∈ columns ↔ ∃ x, x ∈ columnsIn ∧ c = norm x)
    ∧ values ≠ []
    ∧ (UpdateColumns range_order Expand q record columnsIn tr).2
      = tr1 ++ [EvExec (Expand (update_text q (sview record1) columns c)
                          (ToCol (vbase (sview record1))))
                  (values ++ [PKValue record1])].
Proof.
  intros norm Hbu Hd Hwf Hpk Hc Hne Hknown.
  destruct (filter_selects_requested record1 columnsIn true Hwf)
    as (idx & columns & values & Hsel & Hiff & Hrun).
  { intros x Hx. by apply Hknown. }
  { intros _ x pk' Hx Hpk'. assert (pk' = pk) as -> by congruence.
    rewrite Hc. intros [= ->]. by apply (Hknown x Hx). }
  exists idx, columns, values. split; [done|]. split; [done|].
  assert (Hvalues : values ≠ []).
  { destruct columnsIn as [|x rest]; [done|].
    assert (Hin : norm x ∈ columns) by (apply Hiff; exists x; split; [by left|done]).
    destruct Hsel as (_ & Hcols & Hvals).
    apply Forall2_length in Hcols, Hvals.
    intros ->. simpl in Hvals. rewrite Hvals in Hcols.
    destruct columns; [by apply elem_of_nil in Hin|done]. }
  split; [done|].
  unfold UpdateColumns. unfold mbind at 1, M_bind at 1. rewrite Hbu.
  unfold mbind at 1, M_bind at 1, lift. rewrite Hrun.
  rewrite decide_False by (by destruct values).
  unfold mbind, M_bind.
  rewrite (update_sends_text record1 columns values tr1 pk c Hd Hpk Hc).
  by destruct (exec_outcome _ _).
Qed.

(** X21: [Save] of a record with a primary key first sends the UPDATE of
    all columns but the key, binding their values and then the key.  When
    that affects one row, nothing else is sent and the result is nil; when
    it affects none, or the driver reports [ErrNoRows], [Save] goes on with
    [Insert] of the record as the [BeforeUpdate] hook left it; any other
    error of the driver is returned and no INSERT is sent; more than one
    affected row is a panic. *)
Theorem Save_outcomes (record record1 : Struct) (tr tr1 : trace)
    (pk : nat) (c : string) :
  beforeUpdate record tr = (Ok (None, record1), tr1) →
  wf_dialect q → wf_record record1 →
  PKColumnIndex (sview record1) = Some pk → Columns (sview record1) !! pk = Some c →
  let args := without pk (Values record1) ++ [PKValue record1] in
  let query :=
    Expand (update_text q (sview record1) (without pk (Columns (sview record1))) c)
      (ToCol (vbase (sview record1))) in
  let tr2 := tr1 ++ [EvExec query args] in
  let failed := λ e,
    if decide (e = ErrNoRows) then Insert Expand q record1 tr2
    else (Ok (Some e, record1), tr2) in
  Save Expand q record tr
  = match Exec q tr1 query args with
    | inl e => failed e
    | inr r =>
        match resRowsAffected r with
        | inl e => failed e
        | inr ra =>
            if decide (ra = 0)%Z then Insert Expand q record1 tr2
            else if decide (ra > 1)%Z then
              (Panic ("reform: " +:+ Itoa ra
                      +:+ " rows by UPDATE by primary key. Please report this bug."),
               tr2)
            else (Ok (None, record1), tr2)
        end
    end.
Proof.
  intros Hbu Hd Hwf Hpk Hc args query tr2 failed.
  destruct (beforeUpdate_ok _ _ _ _ Hbu) as [Hhas _].
  pose proof Hwf as (pk' & Hpk' & Hlt & Hlen).
  assert (pk' = pk) as -> by congruence.
  unfold Save. rewrite Hhas. unfold mbind at 1, M_bind at 1.
  unfold Update. unfold mbind at 1, M_bind at 1. rewrite Hbu, Hpk.
  unfold mbind at 1, M_bind at 1, lift. unfold Values.
  rewrite (cut_ok (sfields record1)) by lia.
  unfold mbind at 1, M_bind at 1. rewrite cut_ok by done.
  unfold mbind at 1, M_bind at 1.
  rewrite (update_sends_text record1 _ _ tr1 pk c Hd Hpk Hc).
  change (without pk (sfields record1) ++ [PKValue record1]) with args.
  fold query. fold tr2. unfold exec_outcome, rows_affected_outcome.
  subst failed. cbv beta.
  assert (Hfailed : ∀ e,
            (if decide (Some e = Some ErrNoRows) then Insert Expand q record1
             else mret (Some e, record1)) tr2
            = if decide (e = ErrNoRows) then Insert Expand q record1 tr2
              else (Ok (Some e, record1), tr2)).
  { intros e. destruct (decide (e = ErrNoRows)) as [->|He].
    - by rewrite decide_True.
    - by rewrite decide_False by congruence. }
  destruct (Exec q tr1 query args) as [e|r]; [apply Hfailed|].
  destruct (resRowsAffected r) as [e|ra]; [apply Hfailed|].
  destruct (decide (ra = 0)%Z); [apply (Hfailed ErrNoRows)|].
  destruct (decide (ra > 1)%Z); [done|]. simpl.
  by destruct (decide (None = Some ErrNoRows)).
Qed.

(** *** InsertMulti *)

Lemma check_views_Some (view : View) (structs : list Struct) :
  Exists (λ s, vobj (sview s) ≠ vobj view ∨ vinfo (sview s) ≠ vinfo view) structs →
  ∃ msg, check_views view structs = Some (Errorf msg).
Proof.
  induction 1 as [str rest Hne|str rest _ IH]; simpl.
  - assert (same_view (sview str) view = false) as ->; [|eauto].
    unfold same_view. apply andb_false_iff.
    destruct Hne; [left|right]; by apply bool_decide_eq_false.
  - destruct (same_view (sview str) view); eauto.
Qed.

(** X22: [InsertMulti] of structs of different tables, or of different
    view objects, fails with a validation error before any hook runs and
    before any SQL, and leaves the structs as they are. *)
Theorem InsertMulti_different_tables (first : Struct) (rest : list Struct)
    (tr : trace) :
  Exists (λ s, vobj (sview s) ≠ vobj (sview first)
               ∨ vinfo (sview s) ≠ vinfo (sview first)) rest →
  ∃ msg,
    InsertMulti Expand q (first :: rest) tr
    = (Ok (Some (Errorf msg), first :: rest), tr).
Proof.
  intros Hne.
  destruct (check_views_Some (sview first) (first :: rest)) as [msg Hmsg].
  { by apply Exists_cons_tl. }
  exists msg. unfold InsertMulti. by rewrite Hmsg.
Qed.

(** X23: when a [BeforeInsert] hook fails in a batch of structs that share
    one view object, [InsertMulti] still runs the hook of every struct, in
    input order, then returns the error of the first hook that failed;
    nothing is sent to the connection. *)
Theorem InsertMulti_hook_failure (first : Struct) (rest : list Struct)
    (e : error) (tr : trace) :
  let structs := first :: rest in
  Forall (λ s, sview s = sview first) rest →
  first_error None (map (λ s, (after_BeforeInsert s).2) structs) = Some e →
  InsertMulti Expand q structs tr
  = (Ok (Some e, map (λ s, (after_BeforeInsert s).1) structs),
     tr ++ BeforeInsert_events structs).
Proof.
  intros structs Hsame He.
  assert (Hviews : check_views (sview first) structs = None)
    by (apply check_views_same; by constructor).
  subst structs. unfold InsertMulti. rewrite Hviews.
  unfold mbind at 1, M_bind at 1. rewrite run_hooks_run, He. done.
Qed.

Lemma check_pks_same (record : Struct) (structs : list Struct) :
  Forall (λ s, isRecord s = true ∧ HasPK s = HasPK record) structs →
  check_pks record structs = Ok None.
Proof.
  induction 1 as [|rec rest [Hrec Hhas] _ IH]; simpl; [done|].
  unfold isRecord in Hrec. destruct (PKColumnIndex (sview rec)); [|done].
  by rewrite bool_decide_eq_true_2.
Qed.

Lemma slice_ok {A : Type} (l : list A) (lo hi : nat) :
  (lo ≤ hi ≤ length l)%nat → ∃ g, slice l lo hi = Ok g.
Proof. intros H. unfold slice. rewrite decide_True by lia. eauto. Qed.

Lemma value_groups_ok (placeholders : list string) (ncols : nat) :
  ∀ (idx : list nat) (query : string),
  Forall (λ i, ncols * (i + 1) ≤ length placeholders)%nat idx →
  ∃ query', value_groups placeholders ncols idx query = Ok query'.
Proof.
  induction idx as [|i idx IH]; intros query Hidx; simpl; [eauto|].
  apply Forall_cons in Hidx as [Hi Hidx].
  destruct (slice_ok placeholders (ncols * i) (ncols * (i + 1))) as [g ->]; [nia|].
  by apply IH.
Qed.

(** The values that [InsertMulti] binds for one struct. *)
Lemma all_values_spec (cutpk : option nat) (structs : list Struct) :
  ∀ values,
  Forall (λ s, match cutpk with
               | Some pk => (pk < length (Values s))%nat
               | None => True
               end) structs →
  all_values cutpk structs values
  = Ok (values ++ concat (map (λ s, match cutpk with
                                    | Some pk => without pk (Values s)
                                    | None => Values s
                                    end) structs)).
Proof.
  induction structs as [|str rest IH]; intros values Hall; simpl.
  - by rewrite app_nil_r.
  - apply Forall_cons in Hall as [Hstr Hrest]. destruct cutpk as [pk|].
    + rewrite cut_ok by done. rewrite IH by done. by rewrite <- app_assoc.
    + rewrite IH by done. by rewrite <- app_assoc.
Qed.

(** X24: for a batch of records that share one view object, whose hooks
    succeed and whose primary keys are, after the hooks, all set or all
    unset, [InsertMulti]
    sends one statement with [Exec].  It binds the values of the records
    in input order, each without its primary key when the keys are unset,
    returns the error of [Exec] and never writes a generated key into the
    records. *)
Theorem InsertMulti_one_statement (first : Struct) (rest : list Struct)
    (pk : nat) (tr : trace) :
  let structs := first :: rest in
  let structs' := map (λ s, (after_BeforeInsert s).1) structs in
  let tr1 := tr ++ BeforeInsert_events structs in
  let keyed := HasPK (after_BeforeInsert first).1 in
  let args := concat (map (λ s, if keyed then Values s
                                else without pk (Values s)) structs') in
  wf_dialect q →
  Forall (λ s, sview s = sview first) rest →
  PKColumnIndex (sview first) = Some pk →
  Forall (λ s, (after_BeforeInsert s).2 = None) structs →
  Forall (λ s, wf_record s ∧ HasPK s = keyed) structs' →
  ∃ query,
    InsertMulti Expand q structs tr
    = (Ok (err_of (Exec q tr1 query args), structs'), tr1 ++ [EvExec query args]).
Proof.
  intros structs structs' tr1 keyed args Hd Hsame Hpk Hhooks Hwf.
  assert (Hviews : check_views (sview first) structs = None)
    by (apply check_views_same; by constructor).
  assert (Hfirst : wf_record (after_BeforeInsert first).1).
  { subst structs' structs. simpl in Hwf. by apply Forall_cons in Hwf as [[? _] _]. }
  assert (Hview1 : sview (after_BeforeInsert first).1 = sview first).
  { unfold after_BeforeInsert. by destruct (vBeforeInsert (sview first)). }
  destruct Hfirst as (pk' & Hpk' & Hlt & Hlen). rewrite Hview1 in Hpk', Hlt, Hlen.
  assert (pk' = pk) as -> by congruence.
  assert (Hviews' : Forall (λ s, vinfo (sview s) = vinfo (sview first)) structs').
  { apply Forall_fmap. apply check_views_None in Hviews.
    eapply Forall_impl; [exact Hviews|]. intros s Hs. simpl.
    unfold after_BeforeInsert. by destruct (vBeforeInsert (sview s)). }
  subst tr1 structs' structs. unfold InsertMulti. rewrite Hviews.
  unfold mbind at 1, M_bind at 1. rewrite run_hooks_run.
  rewrite first_error_None by by apply Forall_fmap.
  set (structs := first :: rest) in *.
  set (structs' := map (λ s, (after_BeforeInsert s).1) structs) in *.
  set (tr1 := tr ++ BeforeInsert_events structs).
  rewrite Hpk.
  change (head structs') with (Some (after_BeforeInsert first).1).
  unfold mbind at 1, M_bind at 1, lift.
  rewrite check_pks_same.
  2:{ eapply Forall_impl; [exact Hwf|]. intros s [(i & Hi & _) Hs]. simpl.
      unfold isRecord. rewrite Hi. split; [done|]. exact Hs. }
  fold keyed.
  set (cutpk := if keyed then None else Some pk).
  assert (Hargs : all_values cutpk structs' [] = Ok args).
  { rewrite all_values_spec.
    - simpl. subst args cutpk. by destruct keyed.
    - apply Forall_forall. intros s Hs.
      subst cutpk. destruct keyed; [done|].
      pose proof (proj1 (Forall_forall _ _) Hwf s Hs) as [(i & Hi & Hilt & Hilen) _].
      pose proof (proj1 (Forall_forall _ _) Hviews' s Hs) as Hv.
      unfold Values. rewrite Hilen. rewrite Hv in Hi. rewrite Hv.
      assert (i = pk) as -> by congruence. by rewrite <- Hv. }
  assert (Hcols : ∃ columns,
             match cutpk with
             | Some pk => lift (cut (map (QuoteIdentifier q) (Columns (sview first))) pk)
             | None => mret (map (QuoteIdentifier q) (Columns (sview first)))
             end tr1 = (Ok columns, tr1)).
  { subst cutpk. destruct keyed; [eauto|].
    unfold lift. rewrite cut_ok by by rewrite length_map. eauto. }
  destruct Hcols as [columns Hcols].
  change (if keyed then None else Some pk) with cutpk.
  unfold lift in Hcols. unfold mbind at 1, M_bind at 1. rewrite Hcols.
  destruct (value_groups_ok (Placeholders q 1 (length columns * length structs'))
              (length columns) (seq 0 (length structs'))
              ("INSERT INTO " +:+ QualifiedView q (sview first) +:+ " ("
               +:+ Join columns ", " +:+ ") VALUES ")) as [query Hquery].
  { rewrite Hd. apply Forall_forall. intros i Hi. apply elem_of_seq in Hi. nia. }
  unfold mbind at 1, M_bind at 1, lift. rewrite Hquery.
  unfold mbind at 1, M_bind at 1. rewrite Hargs.
  unfold mbind, M_bind, qExec, mret, M_ret.
  eexists. reflexivity.
Qed.

(** *** Selects and finds *)

Lemma SelectAllFrom_loop_end (view : View) (rows : sql_Rows) (structs : list Struct)
    (tr : trace) (fuel : nat) :
  rows_pending rows = [] →
  SelectAllFrom_loop (S fuel) view rows structs tr
  = (Ok (structs,
         match rows_err rows with
         | Some e => if decide (e = ErrNoRows) then None else Some e
         | None => None
         end, advance rows), tr).
Proof.
  intros Hp. simpl. unfold mbind, M_bind. rewrite NextRow_no_row by done.
  by destruct (rows_err rows).
Qed.

(** X25: when the query succeeds, every row scans and passes [AfterFind],
    and the cursor ends without error, [SelectAllFrom] returns one struct
    per row, in row order, and the error of [Close]; it sends one query and
    calls [AfterFind] once per row. *)
Theorem SelectAllFrom_all_rows (view : View) (tail : string) (args : list value)
    (tr : trace) (rows : sql_Rows) (good : list (list value)) :
  (∀ query, Query q tr query args = inr rows) →
  rows_pending rows = map plain_row good →
  Forall (valid_row view) good →
  rows_err rows = None →
  ∃ query,
    SelectAllFrom Expand q view tail args tr
    = (Ok (map (λ vs, (materialize view vs).1) good, rows_closeErr rows),
       tr ++ [EvQuery query args] ++ afterFind_events view good).
Proof.
  intros HQ Hp Hgood Herr.
  exists (Expand (selectQuery q view tail false) (ToCol (vbase view))).
  rewrite SelectAllFrom_unfold. cbv zeta. rewrite HQ.
  destruct (SelectAllFrom_loop_valid good 1 view rows [] []
              (tr ++ [EvQuery (Expand (selectQuery q view tail false)
                                 (ToCol (vbase view))) args]))
    as (rows' & Hp' & Herr' & Hclose' & Hloop);
    [by rewrite app_nil_r|done|].
  replace (S (length (rows_pending rows))) with (length good + 1)%nat
    by (rewrite Hp, length_map; lia).
  rewrite Hloop. rewrite SelectAllFrom_loop_end by done.
  rewrite Herr', Herr. unfold rows_Close. rewrite advance_closeErr, Hclose'.
  by rewrite <- app_assoc.
Qed.

(** X26: a row whose [Scan] or [AfterFind] hook returns [ErrNoRows] ends
    the iteration of [SelectAllFrom] as the end of the rows does: the
    structs before it are returned with the error of [Close], and the row
    and those after it are dropped. *)
Theorem ErrNoRows_ends_iteration (view : View) (tail : string) (args : list value)
    (tr : trace) (rows : sql_Rows) (good : list (list value))
    (row : sql_row) (rest : list sql_row) :
  (∀ query, Query q tr query args = inr rows) →
  rows_pending rows = map plain_row good ++ row :: rest →
  Forall (valid_row view) good →
  (∃ assigned, scan_row row (length (vzero view)) = inl (ErrNoRows, assigned))
  ∨ (∃ vs, row = plain_row vs ∧ length vs = length (vzero view)
           ∧ (materialize view vs).2 = Some ErrNoRows) →
  (SelectAllFrom Expand q view tail args tr).1
  = Ok (map (λ vs, (materialize view vs).1) good, rows_closeErr rows).
Proof.
  intros HQ Hp Hgood Hrow.
  rewrite SelectAllFrom_unfold. cbv zeta. rewrite HQ.
  set (tr1 := tr ++ [EvQuery _ args]).
  destruct (SelectAllFrom_loop_valid good (S (S (length rest))) view rows
              (row :: rest) [] tr1 Hp Hgood)
    as (rows' & Hp' & Herr' & Hclose' & Hloop).
  replace (S (length (rows_pending rows)))
    with (length good + S (S (length rest)))%nat
    by (rewrite Hp, length_app, length_map; simpl; lia).
  rewrite Hloop.
  assert (Hlast : ∀ n structs tr',
            (SelectAllFrom_loop (S n) view rows' structs tr').1
            = Ok (structs, None, advance rows')).
  { intros n structs tr'. simpl. unfold mbind, M_bind.
    destruct Hrow as [[assigned Hscan]|(vs & -> & Hlen & Hmat)].
    - by rewrite (NextRow_scan_error (NewStruct view) _ _ _ _ ErrNoRows assigned
                    Hp' Hscan).
    - rewrite (NextRow_row _ _ _ _ _ vs Hp').
      2:{ by apply scan_row_inr. }
      simpl. by rewrite Hmat. }
  specialize (Hlast (S (length rest)) ([] ++ map (λ vs, (materialize view vs).1) good)
                (tr1 ++ afterFind_events view good)).
  destruct (SelectAllFrom_loop _ _ rows' _ _) as [[[[structs err] rows3]|msg] tr3];
    simpl in Hlast; [|done].
  injection Hlast as -> -> ->. simpl.
  unfold rows_Close. by rewrite advance_closeErr, Hclose'.
Qed.

Lemma SelectOneTo_shape (str : Struct) (tail : string) (args : list value) (tr : trace) :
  let query := Expand (selectQuery q (sview str) tail true) (ToCol (vbase (sview str))) in
  SelectOneTo Expand q str tail args tr
  = match scan_row (QueryRow q tr query args) (length (sfields str)) with
    | inl (e, assigned) =>
        (Ok (Some e, {| sview := sview str;
                        sfields := overwrite assigned (sfields str) |}),
         tr ++ [EvQueryRow query args])
    | inr vs =>
        (Ok ((materialize (sview str) vs).2, (materialize (sview str) vs).1),
         tr ++ [EvQueryRow query args] ++ afterFind_events (sview str) [vs])
    end.
Proof.
  intros query. unfold SelectOneTo, qQueryRow. unfold mbind, M_bind. fold query.
  unfold Scan_Pointers.
  destruct (scan_row (QueryRow q tr query args) (length (sfields str)))
    as [[e assigned]|vs]; [done|].
  unfold afterFind, materialize, afterFind_events. simpl.
  destruct (vAfterFind (sview str)) as [af|].
  - rewrite call_hook_run. simpl. by rewrite <- app_assoc.
  - done.
Qed.

(** X27: [SelectOneTo] sends one single-row query.  When [Scan] fails at a
    column, the fields before that column hold the values of the row and
    the others are as they were; when the row cannot be scanned at all the
    struct is untouched; no hook runs in either case.  Otherwise every
    field is overwritten with the row and then [AfterFind] runs.
    [SelectOneFrom] does the same on a new struct and returns either that
    struct or an error, never both. *)
Theorem SelectOne_struct_or_error (str : Struct) (view : View) (tail : string)
    (args : list value) (tr : trace) :
  let sent :=
    EvQueryRow (Expand (selectQuery q (sview str) tail true)
                  (ToCol (vbase (sview str)))) args in
  (∀ assigned e later,
     (∀ query, QueryRow q tr query args = inr (map inr assigned ++ inl e :: later)) →
     length assigned + S (length later) = length (sfields str) →
     SelectOneTo Expand q str tail args tr
     = (Ok (Some e, {| sview := sview str;
                       sfields := assigned ++ drop (length assigned) (sfields str) |}),
        tr ++ [sent]))
  ∧ (∀ e, (∀ query, QueryRow q tr query args = inl e) →
          SelectOneTo Expand q str tail args tr = (Ok (Some e, str), tr ++ [sent]))
  ∧ (∀ vs, (∀ query, QueryRow q tr query args = plain_row vs) →
           length vs = length (sfields str) →
           SelectOneTo Expand q str tail args tr
           = (Ok ((materialize (sview str) vs).2, (materialize (sview str) vs).1),
              tr ++ [sent] ++ afterFind_events (sview str) [vs]))
  ∧ (∃ result err,
       (SelectOneFrom Expand q view tail args tr).1 = Ok (result, err)
       ∧ (result = None ↔ err ≠ None)
       ∧ ∀ s, result = Some s →
              ∃ vs, s = (materialize view vs).1 ∧ length vs = length (vzero view)).
Proof.
  intros sent. subst sent. split; [|split; [|split]].
  - intros assigned e later Hrow Hlen. rewrite SelectOneTo_shape. cbv zeta.
    rewrite Hrow. unfold scan_row. rewrite decide_True.
    + by rewrite assign_cells_fail.
    + rewrite length_app, length_map. simpl. lia.
  - intros e Hrow. rewrite SelectOneTo_shape. cbv zeta. rewrite Hrow. simpl.
    by rewrite overwrite_nil.
  - intros vs Hrow Hlen. rewrite SelectOneTo_shape. cbv zeta.
    rewrite Hrow. rewrite <- Hlen. by rewrite scan_row_plain.
  - unfold SelectOneFrom. unfold mbind, M_bind. rewrite SelectOneTo_shape. cbv zeta.
    destruct (scan_row _ _) as [[e assigned]|vs] eqn:Hscan.
    + exists None, (Some e). simpl. split; [done|]. split; [done|]. by intros s.
    + apply scan_row_inr in Hscan as [_ Hlen]. simpl in Hlen.
      destruct (materialize (NewStruct view).(sview) vs) as [s err] eqn:Hm.
      simpl in Hm. simpl. destruct err as [e|].
      * exists None, (Some e). simpl. split; [done|]. split; [done|]. by intros s'.
      * exists (Some s), None. simpl. split; [done|]. split; [done|].
        intros s' [= <-]. exists vs. by rewrite Hm.
Qed.

Lemma NextRow_trace (str : Struct) (rows : sql_Rows) (tr : trace) :
  ∃ added, (NextRow str rows tr).2 = tr ++ added.
Proof.
  destruct (rows_pending rows) as [|row rest] eqn:Hp.
  - rewrite NextRow_no_row by done. exists []. by rewrite app_nil_r.
  - destruct (scan_row row (length (sfields str))) as [[e assigned]|vs] eqn:Hs.
    + rewrite (NextRow_scan_error _ _ _ _ _ e assigned Hp Hs). exists [].
      by rewrite app_nil_r.
    + rewrite (NextRow_row _ _ _ _ _ vs Hp Hs). eauto.
Qed.

Lemma SelectAllFrom_loop_trace (view : View) :
  ∀ (fuel : nat) (rows : sql_Rows) (structs : list Struct) (tr : trace),
  ∃ added, (SelectAllFrom_loop fuel view rows structs tr).2 = tr ++ added.
Proof.
  induction fuel as [|fuel IH]; intros rows structs tr.
  - exists []. simpl. by rewrite app_nil_r.
  - simpl. unfold mbind, M_bind.
    destruct (NextRow_trace (NewStruct view) rows tr) as [added Hadd].
    destruct (NextRow (NewStruct view) rows tr) as [[[[err str] rows']|msg] tr'];
      simpl in Hadd; subst tr'; [|eauto].
    destruct err as [e|]; [eauto|].
    destruct (IH rows' (structs ++ [str]) (tr ++ added)) as [added' ->].
    exists (added ++ added'). by rewrite app_assoc.
Qed.

Lemma SelectAllFrom_trace (view : View) (tail : string) (args : list value) (tr : trace) :
  ∃ rest,
    (SelectAllFrom Expand q view tail args tr).2
    = tr ++ EvQuery (Expand (selectQuery q view tail false) (ToCol (vbase view))) args
         :: rest.
Proof.
  rewrite SelectAllFrom_unfold. cbv zeta.
  destruct (Query q tr _ args) as [err|rows]; [by exists []|].
  match goal with |- context [SelectAllFrom_loop ?f view rows [] ?t] =>
    destruct (SelectAllFrom_loop_trace view f rows [] t) as [added Hadd];
    destruct (SelectAllFrom_loop f view rows [] t) as [[[[structs err] rows']|msg] tr']
  end; simpl in Hadd; subst tr'; exists added; simpl; by rewrite <- app_assoc.
Qed.

(** X28: [FindAllFromPK] without arguments returns [ErrNoPK] and sends
    nothing; with arguments it is [FindAllFrom] on the primary-key column
    of the metadata.  [FindAllFrom] always queries, binding its arguments
    as they are, also when there is none. *)
Theorem FindAllFromPK_needs_arguments (view : View) (column : string)
    (args : list value) (tr : trace) :
  FindAllFromPK Expand q view [] tr = (Ok ([], Some ErrNoPK), tr)
  ∧ (args ≠ [] →
     FindAllFromPK Expand q view args tr
     = FindAllFrom Expand q view (pk (vbase view)) args tr)
  ∧ ∃ query rest,
      (FindAllFrom Expand q view column args tr).2 = tr ++ EvQuery query args :: rest.
Proof.
  split; [done|]. split.
  - intros Hne. unfold FindAllFromPK, FindAllFrom.
    rewrite decide_False; [done|]. by destruct args.
  - unfold FindAllFrom.
    match goal with |- context [SelectAllFrom _ _ view ?t args tr] =>
      destruct (SelectAllFrom_trace view t args tr) as [rest ->]
    end. eauto.
Qed.

(** X29: [FindByPrimaryKeyFrom] on a table whose primary-key index is a
    valid column index sends one single-row query on the primary-key
    column: with a nil key it asks for [IS NULL] and binds nothing,
    otherwise it binds the key alone.  It returns a new record, filled from
    the row and passed through [AfterFind], or an error, never both: when
    [Scan] or the hook fails the record is discarded. *)
Theorem FindByPrimaryKeyFrom_record_or_error (table : View) (key : value)
    (i : nat) (c : string) (tr : trace) :
  PKColumnIndex table = Some i → Columns table !! i = Some c →
  let tail := find_predicate q (Name table) c key +:+ limit_suffix q true in
  let bound := if decide (key = VNil) then [] else [key] in
  let query := Expand (select_text q table tail true) (ToCol (vbase table)) in
  let tr1 := tr ++ [EvQueryRow query bound] in
  FindByPrimaryKeyFrom Expand q table key tr
  = match scan_row (QueryRow q tr query bound) (length (vzero table)) with
    | inl (e, _) => (Ok (None, Some e), tr1)
    | inr vs =>
        (Ok (match (materialize table vs).2 with
             | Some e => (None, Some e)
             | None => (Some (materialize table vs).1, None)
             end),
         tr1 ++ afterFind_events table [vs])
    end.
Proof.
  intros Hi Hc tail bound query tr1.
  unfold FindByPrimaryKeyFrom. rewrite Hi. unfold index. rewrite Hc.
  unfold mbind at 1, M_bind at 1, lift. unfold FindOneTo.
  change (Name (sview (NewStruct table))) with (Name table).
  rewrite findTail_spec. fold tail.
  assert (Hsel : (if negb (bool_decide (key = VNil))
                  then SelectOneTo Expand q (NewStruct table) tail [key]
                  else SelectOneTo Expand q (NewStruct table) tail [])
                 = SelectOneTo Expand q (NewStruct table) tail bound).
  { subst bound. destruct (decide (key = VNil)) as [Hk|Hk].
    - by rewrite (bool_decide_eq_true_2 _ Hk).
    - by rewrite (bool_decide_eq_false_2 _ Hk). }
  cbv beta iota. unfold mbind, M_bind. rewrite Hsel, SelectOneTo_shape. cbv zeta.
  change (sview (NewStruct table)) with table.
  change (sfields (NewStruct table)) with (vzero table).
  rewrite selectQuery_text. fold query.
  destruct (scan_row (QueryRow q tr query bound) (length (vzero table)))
    as [[e assigned]|vs]; [done|].
  rewrite app_assoc. fold tr1.
  by destruct (materialize table vs) as [s [e|]].
Qed.

(** X30: [Reload] of a record whose primary-key value is not nil sends one
    single-row query that binds that value alone; when a row comes back,
    every field of the record is overwritten with it, the primary key
    included, and then [AfterFind] runs. *)
Theorem Reload_overwrites_fields (record : Struct) (vs : list value) (tr : trace) :
  wf_record record → PKValue record ≠ VNil →
  (∀ query, QueryRow q tr query [PKValue record] = plain_row vs) →
  length vs = length (sfields record) →
  ∃ query,
    Reload Expand q record tr
    = (Ok ((materialize (sview record) vs).2, (materialize (sview record) vs).1),
       tr ++ [EvQueryRow query [PKValue record]]
          ++ afterFind_events (sview record) [vs]).
Proof.
  intros (i & Hi & Hlt & _) Hnil Hrow Hlen.
  destruct (index_ok _ _ Hlt) as (c & Hc & Hidx).
  unfold Reload, FindByPrimaryKeyTo. rewrite Hi, Hidx.
  unfold mbind, M_bind, lift. unfold FindOneTo. rewrite findTail_spec.
  rewrite bool_decide_eq_false_2 by done. change (negb false) with true. cbv iota.
  rewrite SelectOneTo_shape. cbv zeta. rewrite Hrow.
  rewrite <- Hlen, scan_row_plain. eexists. reflexivity.
Qed.

End MoreProperties.

(** ** The further properties on the sample tables *)

Import Samples.

Lemma NoDup_person_columns : NoDup (Columns person_info).
Proof.
  simpl. repeat (apply NoDup_cons; split; [set_solver|]). apply NoDup_nil_2.
Qed.

Lemma range_sorted_order (s : gset string) : range_sorted s ≡ₚ elements s.
Proof. done. Qed.

Lemma range_reversed_order (s : gset string) : range_reversed s ≡ₚ elements s.
Proof. apply reverse_Permutation. Qed.

(** The request order, the repetition and the dollar sign make no
    difference for Ann; the two unknown names are reported in the order of
    each call. *)
Lemma filter_request_as_set_witness :
  same_selection
    (filteredColumnsAndValues range_sorted ann
       ["age"; "bogus"; "$Name"; "name"; "other"] false)
    (filteredColumnsAndValues range_reversed ann
       ["name"; "other"; "age"; "bogus"] false).
Proof.
  apply (filter_request_as_set range_sorted range_reversed ann
           ["age"; "bogus"; "$Name"; "name"; "other"]
           ["name"; "other"; "age"; "bogus"] false).
  - exact range_sorted_order.
  - exact range_reversed_order.
  - intros c.
    change (c ∈ ["age"; "bogus"; "name"; "name"; "other"]
            ↔ c ∈ ["name"; "other"; "age"; "bogus"]).
    set_solver.
Defined.

(** An update of Ann that names her key is refused. *)
Lemma update_filter_rejects_primary_key_witness :
  ∃ columns values,
    filteredColumnsAndValues range_sorted ann ["name"; "ID"] true
    = Ok (columns, values, Some (Errorf "reform: will not update PK column: id")).
Proof.
  apply (update_filter_rejects_primary_key range_sorted ann ["name"; "ID"] 0 "id").
  - by apply wf_record_person.
  - exact NoDup_person_columns.
  - reflexivity.
  - reflexivity.
  - apply elem_of_requested_set. exists "ID". split; [set_solver|reflexivity].
Defined.

Lemma update_filter_excludes_primary_key_witness : "id" ∉ ["name"; "age"].
Proof.
  apply (update_filter_excludes_primary_key range_sorted ann ["age"; "name"]
           ["name"; "age"] [VStr "ann"; VInt 30] 0 "id").
  - by apply wf_record_person.
  - exact NoDup_person_columns.
  - reflexivity.
  - reflexivity.
  - vm_compute. reflexivity.
Defined.

Lemma filteredStruct_agrees_witness :
  same_selection
    (filteredStructColumnsAndValues range_sorted ann ["name"; "bogus"; "other"])
    (filteredColumnsAndValues range_reversed ann ["name"; "bogus"; "other"] false).
Proof.
  apply (filteredStruct_agrees range_sorted range_reversed ann
           ["name"; "bogus"; "other"]).
  - exact range_sorted_order.
  - exact range_reversed_order.
  - reflexivity.
Defined.

(** Ann is updated. *)
Lemma Update_binds_values_witness :
  let args := without 0 (Values ann) ++ [PKValue ann] in
  length args = length (Columns (sview ann))
  ∧ (∃ query,
       (Update expand_plain (querier mssql.Dialect (stub_db 1 5)) ann []).2
       = [] ++ [EvExec query args])
  ∧ (∀ err record',
       (Update expand_plain (querier mssql.Dialect (stub_db 1 5)) ann []).1
       = Ok (err, record') → record' = ann).
Proof.
  apply (Update_binds_values expand_plain (querier mssql.Dialect (stub_db 1 5))
           ann ann [] [] 0).
  - reflexivity.
  - exact wf_dialect_mssql.
  - by apply wf_record_person.
  - reflexivity.
Defined.

(** Ann is updated and deleted through a connection that has lost the
    link. *)
Lemma driver_errors_pass_through_witness :
  (update expand_plain (querier mssql.Dialect broken_db) ann ["name"] [VStr "ann"] []).1
  = Ok (Some (ErrForeign "connection lost"))
  ∧ (Delete expand_plain (querier mssql.Dialect broken_db) ann []).1
    = Ok (Some (ErrForeign "connection lost"))
  ∧ (DeleteFrom expand_plain (querier mssql.Dialect broken_db) PersonTable
       "WHERE age > ?" [VInt 100] []).1
    = Ok (0%Z, Some (ErrForeign "connection lost"))
  ∧ (DsExec expand_plain (querier mssql.Dialect broken_db) PersonTable
       "DELETE FROM people" [VInt 100] []).1
    = Ok (0%Z, Some (ErrForeign "connection lost")).
Proof.
  apply (driver_errors_pass_through expand_plain (querier mssql.Dialect broken_db)
           ann PersonTable ["name"] [VStr "ann"] [VInt 100] "WHERE age > ?"
           "DELETE FROM people" [] (ErrForeign "connection lost")).
  - exact wf_dialect_mssql.
  - by apply wf_record_person.
  - reflexivity.
  - intros query args. reflexivity.
Defined.

(** Three persons are deleted. *)
Lemma DeleteFrom_counts_rows_witness :
  DeleteFrom expand_plain (querier mssql.Dialect rows_db) PersonTable
    "WHERE age > ?" [VInt 100] []
  = (Ok (3%Z, None), [EvExec "DELETE FROM [people] WHERE age > ?" [VInt 100]])
  ∧ DsExec expand_plain (querier mssql.Dialect rows_db) PersonTable
      "DELETE FROM people WHERE age > ?" [VInt 100] []
    = (Ok (3%Z, None), [EvExec "DELETE FROM people WHERE age > ?" [VInt 100]]).
Proof.
  apply (DeleteFrom_counts_rows expand_plain (querier mssql.Dialect rows_db)
           PersonTable "WHERE age > ?" "DELETE FROM people WHERE age > ?"
           [VInt 100] []
           {| resLastInsertId := inr 0%Z; resRowsAffected := inr 3%Z |} 3%Z).
  - intros query args. reflexivity.
  - reflexivity.
  - lia.
Defined.

Lemma empty_request_witness :
  UpdateColumns range_sorted expand_plain (querier mssql.Dialect (stub_db 1 5)) ann [] []
  = (Ok (Some (Errorf "reform: nothing to update"), ann), []).
Proof.
  apply (proj1 (empty_request range_sorted expand_plain
                  (querier mssql.Dialect (stub_db 1 5)) ann ann [] [])).
  reflexivity.
Defined.

(** A person without a name is inserted, and updated, as a struct type
    that checks the name. *)
Lemma BeforeInsert_failure_aborts_witness :
  let nobody := person PersonChecked 0 EmptyString 31 in
  Insert expand_plain (querier mssql.Dialect (stub_db 1 7)) nobody []
  = (Ok (Some (ErrForeign "name is empty"), nobody), [EvBeforeInsert (sfields nobody)])
  ∧ (isRecord nobody = true →
     InsertColumns range_sorted expand_plain (querier mssql.Dialect (stub_db 1 7))
       nobody ["age"] []
     = (Ok (Some (ErrForeign "name is empty"), nobody),
        [EvBeforeInsert (sfields nobody)])).
Proof.
  apply (BeforeInsert_failure_aborts range_sorted expand_plain
           (querier mssql.Dialect (stub_db 1 7))
           (person PersonChecked 0 EmptyString 31) ["age"] hook_named
           (ErrForeign "name is empty") []).
  - reflexivity.
  - reflexivity.
Defined.

Lemma BeforeUpdate_failure_aborts_witness :
  let nobody := person PersonChecked 5 EmptyString 31 in
  Update expand_plain (querier mssql.Dialect (stub_db 1 7)) nobody []
  = (Ok (Some (ErrForeign "name is empty"), nobody), [EvBeforeUpdate (sfields nobody)])
  ∧ UpdateColumns range_sorted expand_plain (querier mssql.Dialect (stub_db 1 7))
      nobody ["age"] []
    = (Ok (Some (ErrForeign "name is empty"), nobody),
       [EvBeforeUpdate (sfields nobody)]).
Proof.
  apply (BeforeUpdate_failure_aborts range_sorted expand_plain
           (querier mssql.Dialect (stub_db 1 7))
           (person PersonChecked 5 EmptyString 31) ["age"] hook_named
           (ErrForeign "name is empty") []).
  - reflexivity.
  - reflexivity.
  - reflexivity.
Defined.


(** Ann is inserted as a row of a view. *)
Lemma Insert_struct_uses_Exec_witness :
  let db := querier postgresql.Dialect (stub_db 1 7) in
  ∃ query,
    Insert expand_plain db ann_viewed []
    = (Ok (err_of (Exec db [] query (Values ann_viewed)), ann_viewed),
       [] ++ [EvExec query (Values ann_viewed)]).
Proof.
  apply (Insert_struct_uses_Exec expand_plain (querier postgresql.Dialect (stub_db 1 7))
           ann_viewed ann_viewed [] []).
  - reflexivity.
  - reflexivity.
Defined.

Lemma name_and_age_are_columns (x : string) :
  x ∈ ["age"; "$Name"] →
  ToCol (vbase person_info) (TrimLeft x "$"%char) ∈ Columns person_info
  ∧ ToCol (vbase person_info) (TrimLeft x "$"%char) ≠ "id".
Proof.
  rewrite !elem_of_cons, elem_of_nil. intros [->|[->|[]]].
  - change ("age" ∈ ["id"; "name"; "age"] ∧ "age" ≠ "id"). split; [set_solver|done].
  - change ("name" ∈ ["id"; "name"; "age"] ∧ "name" ≠ "id"). split; [set_solver|done].
Qed.


Lemma UpdateColumns_binds_selection_witness :
  let db := querier mssql.Dialect (stub_db 1 5) in
  let norm := λ x, ToCol (vbase (sview ann)) (TrimLeft x "$"%char) in
  ∃ idx columns values,
    selected_at idx (Columns (sview ann)) (Values ann) columns values
    ∧ (∀ c, c ∈ columns ↔ ∃ x, x ∈ ["age"; "$Name"] ∧ c = norm x)
    ∧ values ≠ []
    ∧ (UpdateColumns range_sorted expand_plain db ann ["age"; "$Name"] []).2
      = [] ++ [EvExec (expand_plain (update_text db (sview ann) columns "id")
                         (ToCol (vbase (sview ann))))
                 (values ++ [PKValue ann])].
Proof.
  apply (UpdateColumns_binds_selection range_sorted expand_plain
           (querier mssql.Dialect (stub_db 1 5)) ann ann ["age"; "$Name"] [] [] 0 "id").
  - reflexivity.
  - exact wf_dialect_mssql.
  - by apply wf_record_person.
  - reflexivity.
  - reflexivity.
  - discriminate.
  - exact name_and_age_are_columns.
Defined.

(** Ann is saved: one row is updated, and nothing is inserted. *)
Lemma Save_outcomes_witness :
  Save expand_plain (querier mssql.Dialect (stub_db 1 5)) ann []
  = (Ok (None, ann),
     [EvExec "UPDATE [people] SET [name] = ?, [age] = ? WHERE [id] = ?"
        [VStr "ann"; VInt 30; VInt 5]]).
Proof.
  exact (Save_outcomes expand_plain (querier mssql.Dialect (stub_db 1 5))
           ann ann [] [] 0 "id" eq_refl wf_dialect_mssql
           (wf_record_person PersonTable 5 "ann" 30 eq_refl) eq_refl eq_refl).
Defined.

(** The same requests with the values they bind. *)
Example InsertColumns_name_and_age :
  (InsertColumns range_sorted expand_plain (querier lastid_dialect (stub_db 1 7))
     ann ["age"; "$Name"] []).2
  = [EvExec "INSERT INTO `people` (`name`, `age`) VALUES (?, ?)" [VStr "ann"; VInt 30]].
Proof. vm_compute. reflexivity. Qed.

Example UpdateColumns_name_and_age :
  (UpdateColumns range_sorted expand_plain (querier lastid_dialect (stub_db 1 7))
     ann ["age"; "$Name"] []).2
  = [EvExec "UPDATE `people` SET `name` = ?, `age` = ? WHERE `id` = ?"
       [VStr "ann"; VInt 30; VInt 5]].
Proof. vm_compute. reflexivity. Qed.

(** A person and a pet in one batch. *)
Lemma InsertMulti_different_tables_witness :
  ∃ msg,
    InsertMulti expand_plain (querier mssql.Dialect (stub_db 1 7)) [bob; rex] []
    = (Ok (Some (Errorf msg), [bob; rex]), []).
Proof.
  apply (InsertMulti_different_tables expand_plain
           (querier mssql.Dialect (stub_db 1 7)) bob [rex] []).
  apply Exists_cons_hd. right. intros H. apply (f_equal Name) in H. discriminate H.
Defined.

(** Bob twice, as a person and as a person of the struct type with hooks:
    two view objects over the same table. *)
Example InsertMulti_two_struct_types :
  InsertMulti expand_plain (querier mssql.Dialect (stub_db 1 7)) [bob; bob_hooked] []
  = (Ok (Some (Errorf "reform: different tables in InsertMulti: people and people"),
         [bob; bob_hooked]), []).
Proof. vm_compute. reflexivity. Qed.

(** A batch of three persons, the second and the third without a name. *)
Lemma InsertMulti_hook_failure_witness :
  let structs := [person PersonChecked 0 "bob" 31;
                  person PersonChecked 0 EmptyString 32;
                  person PersonChecked 0 EmptyString 33] in
  InsertMulti expand_plain (querier mssql.Dialect (stub_db 1 7)) structs []
  = (Ok (Some (ErrForeign "name is empty"), structs),
     map (λ s, EvBeforeInsert (sfields s)) structs).
Proof.
  apply (InsertMulti_hook_failure expand_plain (querier mssql.Dialect (stub_db 1 7))
           (person PersonChecked 0 "bob" 31)
           [person PersonChecked 0 EmptyString 32;
            person PersonChecked 0 EmptyString 33]
           (ErrForeign "name is empty") []).
  - repeat constructor.
  - reflexivity.
Defined.

(** Bob and Cy, both without a key, in one batch. *)
Lemma InsertMulti_one_statement_witness :
  let db := querier postgresql.Dialect (stub_db 2 7) in
  let args := [VStr "bob"; VInt 31; VStr "cy"; VInt 20] in
  ∃ query,
    InsertMulti expand_plain db [bob; cy] []
    = (Ok (err_of (Exec db [] query args), [bob; cy]), [] ++ [EvExec query args]).
Proof.
  apply (InsertMulti_one_statement expand_plain
           (querier postgresql.Dialect (stub_db 2 7)) bob [cy] 0 []).
  - exact wf_dialect_postgresql.
  - repeat constructor.
  - reflexivity.
  - repeat constructor.
  - repeat constructor; by apply wf_record_person.
Defined.

(** All persons are selected: three rows, no error. *)
Lemma SelectAllFrom_all_rows_witness :
  ∃ query,
    SelectAllFrom expand_plain (querier mssql.Dialect rows_db) PersonTable
      "ORDER BY id" [] []
    = (Ok ([person PersonTable 1 "ann" 30; person PersonTable 2 "bob" 0;
            person PersonTable 3 "cy" 20], None),
       [] ++ [EvQuery query []] ++ []).
Proof.
  apply (SelectAllFrom_all_rows expand_plain (querier mssql.Dialect rows_db)
           PersonTable "ORDER BY id" [] [] three_rows
           [[VInt 1; VStr "ann"; VInt 30]; [VInt 2; VStr "bob"; VInt 0];
            [VInt 3; VStr "cy"; VInt 20]]).
  - intros query. reflexivity.
  - reflexivity.
  - repeat constructor.
  - reflexivity.
Defined.

(** The same rows for a struct type whose [AfterFind] reports [ErrNoRows]
    at age 0: Bob and Cy are dropped, and no error is returned. *)
Lemma ErrNoRows_ends_iteration_witness :
  (SelectAllFrom expand_plain (querier mssql.Dialect rows_db) PersonStopping
     "ORDER BY id" [] []).1
  = Ok ([person PersonStopping 1 "ann" 30], None).
Proof.
  apply (ErrNoRows_ends_iteration expand_plain (querier mssql.Dialect rows_db)
           PersonStopping "ORDER BY id" [] [] three_rows
           [[VInt 1; VStr "ann"; VInt 30]] (plain_row [VInt 2; VStr "bob"; VInt 0])
           [plain_row [VInt 3; VStr "cy"; VInt 20]]).
  - intros query. reflexivity.
  - reflexivity.
  - repeat constructor.
  - right. exists [VInt 2; VStr "bob"; VInt 0]. repeat split.
Defined.

(** Bob is looked up and a row comes back whose age does not convert: his
    key and name are overwritten, his age is kept. *)
Lemma SelectOne_struct_or_error_witness :
  SelectOneTo expand_plain (querier mssql.Dialect torn_db) bob "WHERE age > ?"
    [VInt 30] []
  = (Ok (Some (ErrForeign "converting to int"), person PersonTable 7 "zed" 31),
     [EvQueryRow
        ("SELECT TOP 1 [people].[id], [people].[name], [people].[age] "
         +:+ "FROM [people] WHERE age > ?") [VInt 30]]).
Proof.
  destruct (SelectOne_struct_or_error expand_plain (querier mssql.Dialect torn_db)
              bob PersonTable "WHERE age > ?" [VInt 30] []) as (Htorn & _).
  apply (Htorn [VInt 7; VStr "zed"] (ErrForeign "converting to int") []).
  - intros query. reflexivity.
  - reflexivity.
Defined.

Lemma FindAllFromPK_needs_arguments_witness :
  FindAllFromPK expand_plain (querier mssql.Dialect rows_db) PersonTable
    [VInt 1; VInt 2] []
  = FindAllFrom expand_plain (querier mssql.Dialect rows_db) PersonTable "id"
      [VInt 1; VInt 2] [].
Proof.
  destruct (FindAllFromPK_needs_arguments expand_plain (querier mssql.Dialect rows_db)
              PersonTable "id" [VInt 1; VInt 2] []) as (_ & Hargs & _).
  apply Hargs. discriminate.
Defined.

(** The person of key 5 is looked up. *)
Lemma FindByPrimaryKeyFrom_record_or_error_witness :
  FindByPrimaryKeyFrom expand_plain (querier mssql.Dialect rows_db) PersonTable
    (VInt 5) []
  = (Ok (Some (person PersonTable 5 "ann" 31), None),
     [EvQueryRow
        ("SELECT TOP 1 [people].[id], [people].[name], [people].[age] "
         +:+ "FROM [people] WHERE [people].[id] = ?") [VInt 5]]).
Proof.
  exact (FindByPrimaryKeyFrom_record_or_error expand_plain
           (querier mssql.Dialect rows_db) PersonTable (VInt 5) 0 "id" []
           eq_refl eq_refl).
Defined.

(** Ann is reloaded: her age in the table is 31. *)
Lemma Reload_overwrites_fields_witness :
  ∃ query,
    Reload expand_plain (querier mssql.Dialect rows_db) ann []
    = (Ok (None, person PersonTable 5 "ann" 31),
       [] ++ [EvQueryRow query [VInt 5]] ++ []).
Proof.
  apply (Reload_overwrites_fields expand_plain (querier mssql.Dialect rows_db)
           ann [VInt 5; VStr "ann"; VInt 31] []).
  - by apply wf_record_person.
  - discriminate.
  - intros query. reflexivity.
  - reflexivity.
Defined.
